(** * Arabic-Morphology: root index, pattern index and morphological engine

    A shallow embedding of [backend/avl.py], [backend/hashtable.py] and
    [backend/morphology.py], with the properties of the specification
    stated and proved over it.

    Python [str] values are sequences of Unicode code points, so a string
    is a [list Z] of code points: [len] is [length], indexing is list
    lookup, [ord] is the identity, and [<] is the lexicographic order on
    code points.  Python [int] is [Z].  A [None] dereference or an index
    out of range raises in Python; the functions that can reach one
    return [option], with [None] standing for the raised exception. *)

From Stdlib Require Import ZArith Lia.
From stdpp Require Import base option list sorting gmap strings.

Local Open Scope Z_scope.

(** ** Python strings *)

Abbreviation pystr := (list Z) (only parsing).

(** An ASCII literal of the source, as code points. *)
Definition lit (s : string) : pystr :=
  map (fun a => Z.of_N (Ascii.N_of_ascii a)) (String.list_ascii_of_string s).

(** [a < b] on [str]: lexicographic on code points, a proper prefix is
    smaller. *)
Fixpoint str_ltb (a b : pystr) : bool :=
  match a, b with
  | [], [] => false
  | [], _ :: _ => true
  | _ :: _, [] => false
  | x :: a', y :: b' =>
      if x <? y then true
      else if y <? x then false
      else str_ltb a' b'
  end.

Definition str_eqb (a b : pystr) : bool := bool_decide (a = b).

Definition str_lt (a b : pystr) : Prop := str_ltb a b = true.
Definition str_le (a b : pystr) : Prop := str_ltb b a = false.

(** [c in letters] for a one-character [c] and a list of one-character
    strings. *)
Definition char_in (c : Z) (letters : list Z) : bool :=
  existsb (Z.eqb c) letters.

(** [s.startswith(p)] *)
Fixpoint starts_with (p s : pystr) : bool :=
  match p, s with
  | [], _ => true
  | _ :: _, [] => false
  | x :: p', y :: s' => (x =? y) && starts_with p' s'
  end.

(** The left-to-right scan of [str.replace] for a non-empty [old]:
    [skip] counts the characters of the occurrence just replaced that are
    still to be passed over, so occurrences never overlap. *)
Fixpoint replace_scan (old new s : pystr) (skip : nat) : pystr :=
  match s with
  | [] => []
  | c :: s' =>
      match skip with
      | S k => replace_scan old new s' k
      | O =>
          if starts_with old s
          then new ++ replace_scan old new s' (length old - 1)%nat
          else c :: replace_scan old new s' O
      end
  end.

(** [s.replace(old, new)]; for an empty [old] Python inserts [new] before
    every character and at the end. *)
Definition replace (s old new : pystr) : pystr :=
  match old with
  | [] => new ++ flat_map (fun c => c :: new) s
  | _ :: _ => replace_scan old new s O
  end.

(** ** The morphological engine ([backend/morphology.py]) *)

Module MorphologicalEngine.

(** Code points of the letters the engine names. *)
Definition WAW := 0x648.
Definition YA := 0x64a.
Definition ALIF := 0x627.
Definition ALIF_MAQSURA := 0x649.
Definition TA := 0x62a.
Definition TAH := 0x637.
Definition THA := 0x62b.
Definition NUN := 0x646.
Definition MIM := 0x645.
Definition FATHA := 0x64e.
Definition DAMMA := 0x64f.
Definition KASRA := 0x650.
Definition SHADDA := 0x651.
Definition FA := 0x641.
Definition AYN := 0x639.
Definition LAM := 0x644.

Definition WEAK_LETTERS : list Z := [WAW; YA].
Definition EMPHATIC : list Z := [0x635; 0x636; 0x637; 0x638].
Definition DENTAL : list Z := [0x62f; 0x630; 0x632].
Definition LABIAL : list Z := [0x628; MIM].

Inductive weakness := assimilated | hollow | defective | doubled | sound.

Inductive position := NoPosition | At (i : Z) | Pair (i j : Z).

#[export] Instance weakness_eq_dec : EqDecision weakness.
Proof. solve_decision. Defined.

Definition is_weak_root (root : pystr) : weakness * position :=
  match root with
  | [c1; c2; c3] =>
      if char_in c1 WEAK_LETTERS then (assimilated, At 0)
      else if char_in c2 WEAK_LETTERS then (hollow, At 1)
      else if char_in c3 WEAK_LETTERS then (defective, At 2)
      else if c2 =? c3 then (doubled, Pair 1 2)
      else (sound, NoPosition)
  | _ => (sound, NoPosition)
  end.

Definition apply_form8_assimilation (word root : pystr) : pystr :=
  match root with
  | [c1; _; _] =>
      if char_in c1 EMPHATIC then replace word [c1; TA] [c1; TAH]
      else if char_in c1 DENTAL then replace word [c1; TA] [c1; SHADDA]
      else if c1 =? THA then replace word [THA; TA] [THA; SHADDA]
      else word
  | _ => word
  end.

Definition apply_form7_assimilation (word root : pystr) : pystr :=
  match root with
  | [c1; _; _] =>
      if char_in c1 LABIAL then replace word [NUN; c1] [MIM; c1]
      else word
  | _ => word
  end.

Definition apply_hollow_root_rules (word root : pystr) : pystr :=
  match root with
  | [c1; c2; c3] =>
      if char_in c2 WEAK_LETTERS then
        if c2 =? WAW then
          let word := replace word [c1; FATHA; WAW] [c1; FATHA; ALIF] in
          let word := replace word [c1; DAMMA; WAW] [c1; DAMMA; WAW] in
          replace word [c1; KASRA; WAW] [c1; KASRA; YA]
        else if c2 =? YA then
          let word := replace word [c1; FATHA; YA] [c1; FATHA; ALIF] in
          let word := replace word [c1; KASRA; YA] [c1; KASRA; YA] in
          replace word [c1; DAMMA; YA] [c1; DAMMA; WAW]
        else word
      else word
  | _ => word
  end.

(** [word.endswith(c)] for a one-character [c]. *)
Definition ends_with_char (word : pystr) (c : Z) : bool :=
  match last word with
  | Some x => x =? c
  | None => false
  end.

Definition apply_defective_root_rules (word root : pystr) : pystr :=
  match root with
  | [_; _; c3] =>
      if char_in c3 WEAK_LETTERS then
        if ends_with_char word c3
        then removelast word ++ [ALIF_MAQSURA]
        else word
      else word
  | _ => word
  end.

Definition apply_phonological_rules (word root pattern : pystr) : pystr :=
  if negb (length root =? 3)%nat then word
  else
    let '(weakness_type, _) := is_weak_root root in
    let word :=
      if bool_decide (weakness_type = hollow)
      then apply_hollow_root_rules word root
      else if bool_decide (weakness_type = defective)
      then apply_defective_root_rules word root
      else word in
    let word := apply_form8_assimilation word root in
    let word := apply_form7_assimilation word root in
    replace word [SHADDA; SHADDA] [SHADDA].

(** One turn of the [while] loop of [apply_root_to_pattern]: the
    character appended to [result] for the pattern character [char]. *)
Definition place (fa ayn lam char : Z) : Z :=
  if char =? FA then fa
  else if char =? AYN then ayn
  else if char =? LAM then lam
  else if char =? 49 then fa          (* '1' *)
  else if char =? 50 then ayn         (* '2' *)
  else if char =? 51 then lam         (* '3' *)
  else if char =? 70 then fa          (* 'F' *)
  else if char =? 65 then ayn         (* 'A' *)
  else if char =? 76 then lam         (* 'L' *)
  else char.

Fixpoint substitute_loop (fa ayn lam : Z) (pattern result : pystr) : pystr :=
  match pattern with
  | [] => result
  | char :: rest =>
      substitute_loop fa ayn lam rest (result ++ [place fa ayn lam char])
  end.

Definition apply_root_to_pattern (root pattern : pystr) : pystr :=
  match root with
  | [fa; ayn; lam] =>
      let result := substitute_loop fa ayn lam pattern [] in
      apply_phonological_rules result root pattern
  | _ => []
  end.

Fixpoint validate_loop (word root : pystr) (all_patterns : list pystr)
  : bool * option pystr :=
  match all_patterns with
  | [] => (false, None)
  | template :: rest =>
      let generated_word := apply_root_to_pattern root template in
      if str_eqb generated_word word then (true, Some template)
      else validate_loop word root rest
  end.

Definition validate_word (word root : pystr) (all_patterns : list pystr)
  : bool * option pystr :=
  if negb (length root =? 3)%nat then (false, None)
  else validate_loop word root all_patterns.

Record derivative := { template : pystr; generated_word : pystr }.

Fixpoint generate_loop (root : pystr) (all_patterns : list pystr)
  (derivatives : list derivative) : list derivative :=
  match all_patterns with
  | [] => derivatives
  | template :: rest =>
      let generated_word := apply_root_to_pattern root template in
      generate_loop root rest
        (match generated_word with
         | [] => derivatives
         | _ :: _ =>
             derivatives ++
             [{| template := template; generated_word := generated_word |}]
         end)
  end.

Definition generate_derivatives (root : pystr) (all_patterns : list pystr)
  : list derivative :=
  if negb (length root =? 3)%nat then []
  else generate_loop root all_patterns [].

End MorphologicalEngine.

(** ** The root index ([backend/avl.py]) *)

Module avl.

(** The value of one entry of [derived_words]:
    [{"template": ..., "frequency": ...}]. *)
Record word_info := { template : pystr; frequency : Z }.

(** A value of type [Optional[AVLNode]]: [NoNode] is [None], [Node] an
    object with the fields [root], [left], [right], [height] and
    [derived_words].  Every node has one owner (its parent or the tree),
    so assigning to a field of a node is rebuilding that node. *)
Inductive AVLNode : Type :=
| NoNode
| Node (root : pystr) (left right : AVLNode) (height : Z)
       (derived_words : gmap pystr word_info).

(** [AVLNode(root)] *)
Definition new_node (root : pystr) : AVLNode := Node root NoNode NoNode 1 ∅.

(** [AVLNode.add_derived_word], on the dictionary of the node. *)
Definition add_derived_word (derived_words : gmap pystr word_info)
  (word template : pystr) : gmap pystr word_info :=
  match derived_words !! word with
  | Some info =>
      <[word := {| template := info.(avl.template);
                   frequency := info.(frequency) + 1 |}]> derived_words
  | None => <[word := {| template := template; frequency := 1 |}]> derived_words
  end.

(** [node.root] and [node.derived_words]; [None] when [node] is [None]
    (an [AttributeError]). *)
Definition root_of (node : AVLNode) : option pystr :=
  match node with
  | NoNode => None
  | Node k _ _ _ _ => Some k
  end.

Definition derived_words_of (node : AVLNode) : option (gmap pystr word_info) :=
  match node with
  | NoNode => None
  | Node _ _ _ _ d => Some d
  end.

Record AVLTree := { root : AVLNode; size : Z }.

(** [AVLTree()] *)
Definition init : AVLTree := {| root := NoNode; size := 0 |}.

Definition _get_height (node : AVLNode) : Z :=
  match node with
  | NoNode => 0
  | Node _ _ _ h _ => h
  end.

Definition _get_balance_factor (node : AVLNode) : Z :=
  match node with
  | NoNode => 0
  | Node _ l r _ _ => _get_height l - _get_height r
  end.

Definition _rotate_right (node : AVLNode) : option AVLNode :=
  match node with
  | Node k (Node lk ll lr _ ld) r _ d =>
      let node := Node k lr r (1 + Z.max (_get_height lr) (_get_height r)) d in
      Some (Node lk ll node (1 + Z.max (_get_height ll) (_get_height node)) ld)
  | _ => None
  end.

Definition _rotate_left (node : AVLNode) : option AVLNode :=
  match node with
  | Node k l (Node rk rl rr _ rd) _ d =>
      let node := Node k l rl (1 + Z.max (_get_height l) (_get_height rl)) d in
      Some (Node rk node rr (1 + Z.max (_get_height node) (_get_height rr)) rd)
  | _ => None
  end.

(** The tail of [_insert_recursive], from [# Update height] on, for the
    node whose child has just been reassigned. *)
Definition insert_rebalance (node : AVLNode) (root : pystr) : option AVLNode :=
  match node with
  | NoNode => None
  | Node k l r _ d =>
      let h := 1 + Z.max (_get_height l) (_get_height r) in
      let node := Node k l r h d in
      let balance_factor := _get_balance_factor node in
      (* Left-Left case *)
      c ← (if balance_factor >? 1
           then lk ← root_of l; Some (str_ltb root lk) else Some false);
      if c : bool then _rotate_right node else
      (* Right-Right case *)
      c ← (if balance_factor <? -1
           then rk ← root_of r; Some (str_ltb rk root) else Some false);
      if c : bool then _rotate_left node else
      (* Left-Right case *)
      c ← (if balance_factor >? 1
           then lk ← root_of l; Some (str_ltb lk root) else Some false);
      if c : bool then l' ← _rotate_left l; _rotate_right (Node k l' r h d) else
      (* Right-Left case *)
      c ← (if balance_factor <? -1
           then rk ← root_of r; Some (str_ltb root rk) else Some false);
      if c : bool then r' ← _rotate_right r; _rotate_left (Node k l r' h d) else
      Some node
  end.

(** [self.size] is threaded through as the last argument and the second
    component of the result. *)
Fixpoint _insert_recursive (node : AVLNode) (root : pystr) (size : Z)
  : option (AVLNode * Z) :=
  match node with
  | NoNode => Some (new_node root, size + 1)
  | Node k l r h d =>
      if str_ltb root k then
        '(l', size) ← _insert_recursive l root size;
        node ← insert_rebalance (Node k l' r h d) root;
        Some (node, size)
      else if str_ltb k root then
        '(r', size) ← _insert_recursive r root size;
        node ← insert_rebalance (Node k l r' h d) root;
        Some (node, size)
      else Some (node, size)
  end.

Definition insert (self : AVLTree) (root : pystr)
  : option (AVLTree * (bool * pystr)) :=
  let old_size := self.(size) in
  '(node, new_size) ← _insert_recursive self.(avl.root) root self.(size);
  let self := {| root := node; size := new_size |} in
  if new_size >? old_size
  then Some (self, (true, lit "Root '" ++ root ++ lit "' inserted successfully"))
  else Some (self, (false, lit "Root '" ++ root ++ lit "' already exists")).

Fixpoint _search_recursive (node : AVLNode) (root : pystr) : bool :=
  match node with
  | NoNode => false
  | Node k l r _ _ =>
      if str_eqb root k then true
      else if str_ltb root k then _search_recursive l root
      else _search_recursive r root
  end.

Definition search (self : AVLTree) (root : pystr) : bool :=
  _search_recursive self.(avl.root) root.

Fixpoint _get_node (node : AVLNode) (root : pystr) : AVLNode :=
  match node with
  | NoNode => NoNode
  | Node k l r _ _ =>
      if str_eqb root k then node
      else if str_ltb root k then _get_node l root
      else _get_node r root
  end.

Definition get_node (self : AVLTree) (root : pystr) : AVLNode :=
  _get_node self.(avl.root) root.

(** [get_node] hands out a reference into the tree, and the callers
    assign to the [derived_words] of the node they get.  [_set_node]
    is that assignment: it follows the path of [_get_node] and
    rebuilds the node found there with the dictionary [f d]. *)
Fixpoint _set_node (f : gmap pystr word_info -> gmap pystr word_info)
  (node : AVLNode) (root : pystr) : AVLNode :=
  match node with
  | NoNode => NoNode
  | Node k l r h d =>
      if str_eqb root k then Node k l r h (f d)
      else if str_ltb root k then Node k (_set_node f l root) r h d
      else Node k l (_set_node f r root) h d
  end.

Definition add_validated_word (self : AVLTree) (root word template : pystr)
  : AVLTree * (bool * pystr) :=
  match get_node self root with
  | NoNode => (self, (false, lit "Root '" ++ root ++ lit "' not found in the tree"))
  | Node _ _ _ _ _ =>
      ({| root := _set_node (fun d => add_derived_word d word template)
                    self.(avl.root) root;
          size := self.(size) |},
       (true, lit "Word '" ++ word ++ lit "' added to root '" ++ root ++ lit "'"))
  end.

Definition get_derived_words (self : AVLTree) (root : pystr)
  : option (gmap pystr word_info) :=
  derived_words_of (get_node self root).

Fixpoint _in_order_recursive (node : AVLNode) (result : list pystr)
  : list pystr :=
  match node with
  | NoNode => result
  | Node k l r _ _ =>
      let result := _in_order_recursive l result in
      let result := result ++ [k] in
      _in_order_recursive r result
  end.

Definition in_order_traversal (self : AVLTree) : list pystr :=
  _in_order_recursive self.(avl.root) [].

Definition get_all_roots (self : AVLTree) : list pystr :=
  in_order_traversal self.

Fixpoint _in_order_with_words (node : AVLNode)
  (result : list (pystr * gmap pystr word_info))
  : list (pystr * gmap pystr word_info) :=
  match node with
  | NoNode => result
  | Node k l r _ d =>
      let result := _in_order_with_words l result in
      let result := result ++ [(k, d)] in
      _in_order_with_words r result
  end.

Definition get_all_roots_with_words (self : AVLTree)
  : list (pystr * gmap pystr word_info) :=
  _in_order_with_words self.(avl.root) [].

Definition get_size (self : AVLTree) : Z := self.(size).

Definition get_height (self : AVLTree) : Z := _get_height self.(avl.root).

Fixpoint _get_min_node (node : AVLNode) : option AVLNode :=
  match node with
  | NoNode => None
  | Node _ l _ _ _ =>
      match l with
      | NoNode => Some node
      | Node _ _ _ _ _ => _get_min_node l
      end
  end.

(** The tail of [_delete_recursive], from [# Update height and balance]
    on. *)
Definition delete_rebalance (node : AVLNode) : option AVLNode :=
  match node with
  | NoNode => None
  | Node k l r _ d =>
      let h := 1 + Z.max (_get_height l) (_get_height r) in
      let node := Node k l r h d in
      let balance := _get_balance_factor node in
      if balance >? 1 then
        if _get_balance_factor l >=? 0 then _rotate_right node
        else l' ← _rotate_left l; _rotate_right (Node k l' r h d)
      else if balance <? -1 then
        if _get_balance_factor r <=? 0 then _rotate_left node
        else r' ← _rotate_right r; _rotate_left (Node k l r' h d)
      else Some node
  end.

Fixpoint _delete_recursive (node : AVLNode) (root : pystr) (size : Z)
  : option (AVLNode * Z) :=
  match node with
  | NoNode => Some (NoNode, size)
  | Node k l r h d =>
      if str_ltb root k then
        '(l', size) ← _delete_recursive l root size;
        node ← delete_rebalance (Node k l' r h d);
        Some (node, size)
      else if str_ltb k root then
        '(r', size) ← _delete_recursive r root size;
        node ← delete_rebalance (Node k l r' h d);
        Some (node, size)
      else
        let size := size - 1 in
        match l, r with
        | NoNode, _ => Some (r, size)
        | _, NoNode => Some (l, size)
        | _, _ =>
            min_larger_node ← _get_min_node r;
            mk ← root_of min_larger_node;
            md ← derived_words_of min_larger_node;
            '(r', size) ← _delete_recursive r mk size;
            let size := size + 1 in
            node ← delete_rebalance (Node mk l r' h md);
            Some (node, size)
        end
  end.

Definition delete (self : AVLTree) (root : pystr)
  : option (AVLTree * (bool * pystr)) :=
  if negb (search self root)
  then Some (self, (false, lit "Root '" ++ root ++ lit "' not found"))
  else
    let old_size := self.(size) in
    '(node, new_size) ← _delete_recursive self.(avl.root) root self.(size);
    let self := {| root := node; size := new_size |} in
    if new_size <? old_size
    then Some (self, (true, lit "Root '" ++ root ++ lit "' deleted successfully"))
    else Some (self, (false, lit "Failed to delete root '" ++ root ++ lit "'")).

Definition update (self : AVLTree) (old_root new_root : pystr)
  : option (AVLTree * (bool * pystr)) :=
  if negb (length new_root =? 3)%nat
  then Some (self, (false, lit "New root must be exactly 3 characters"))
  else if negb (search self old_root)
  then Some (self, (false, lit "Root '" ++ old_root ++ lit "' not found"))
  else if search self new_root && negb (str_eqb old_root new_root)
  then Some (self, (false, lit "Root '" ++ new_root ++ lit "' already exists"))
  else if str_eqb old_root new_root
  then Some (self, (false, lit "New root is the same as old root"))
  else
    let derived_words_backup :=
      match get_node self old_root with
      | Node _ _ _ _ d => d
      | NoNode => ∅
      end in
    '(self, (success, _)) ← delete self old_root;
    if success : bool then
      '(self, _) ← insert self new_root;
      let self :=
        {| root := _set_node (fun _ => derived_words_backup)
                     self.(avl.root) new_root;
           size := self.(size) |} in
      Some (self, (true, lit "Root updated from '" ++ old_root ++ lit "' to '"
                           ++ new_root ++ lit "'"))
    else Some (self, (false, lit "Failed to update root")).

End avl.

(** ** The pattern index ([backend/hashtable.py]) *)

(** [a % b] on [int]: the result has the sign of [b], and a zero divisor
    raises [ZeroDivisionError]. *)
Definition pymod (a b : Z) : option Z :=
  if b =? 0 then None else Some (a mod b).

(** [l[i]] on a list: a negative index counts from the end, an index out
    of range raises [IndexError]. *)
Definition getitem {A} (l : list A) (i : Z) : option A :=
  let n := Z.of_nat (length l) in
  if (0 <=? i) && (i <? n) then l !! Z.to_nat i
  else if (i <? 0) && (0 <=? n + i) then l !! Z.to_nat (n + i)
  else None.

(** [l[i] = x] *)
Definition setitem {A} (l : list A) (i : Z) (x : A) : option (list A) :=
  let n := Z.of_nat (length l) in
  if (0 <=? i) && (i <? n) then Some (<[Z.to_nat i := x]> l)
  else if (i <? 0) && (0 <=? n + i) then Some (<[Z.to_nat (n + i) := x]> l)
  else None.

Module hashtable.

(** A [HashEntry] without its [next] link: a bucket is the list of the
    entries of its chain, head first, and [next] is the tail. *)
Record HashEntry := { template : pystr; hash_value : Z }.

Record HashTable := {
  size : Z;
  table : list (list HashEntry);
  count : Z;
  prime : Z;
  mod_ : Z
}.

(** [HashTable(initial_size)]; [[None] * n] is empty for [n <= 0]. *)
Definition init (initial_size : Z) : HashTable :=
  {| size := initial_size;
     table := replicate (Z.to_nat initial_size) [];
     count := 0;
     prime := 31;
     mod_ := 10 ^ 9 + 7 |}.

(** [HashTable()] *)
Definition default : HashTable := init 101.

(** The [for char in template] loop of [_polynomial_hash]. *)
Fixpoint hash_loop (self : HashTable) (template : pystr) (hash_value : Z)
  : option Z :=
  match template with
  | [] => Some hash_value
  | char :: rest =>
      hash_value ← pymod (hash_value * self.(prime) + char) self.(mod_);
      hash_loop self rest hash_value
  end.

Definition _polynomial_hash (self : HashTable) (template : pystr) : option Z :=
  hash_value ← hash_loop self template 0;
  pymod hash_value self.(size).

Definition _compute_full_hash (self : HashTable) (template : pystr) : option Z :=
  _polynomial_hash self template.

(** The [while current] loop of [exists]. *)
Fixpoint chain_exists (current : list HashEntry) (template : pystr) : bool :=
  match current with
  | [] => false
  | e :: next =>
      if str_eqb e.(hashtable.template) template then true
      else chain_exists next template
  end.

Definition exists_ (self : HashTable) (template : pystr) : option bool :=
  hash_index ← _polynomial_hash self template;
  current ← getitem self.(table) hash_index;
  Some (chain_exists current template).

Definition put (self : HashTable) (template : pystr)
  : option (HashTable * (bool * pystr)) :=
  e ← exists_ self template;
  if e : bool
  then Some (self, (false, lit "Pattern '" ++ template ++ lit "' already exists"))
  else
    hash_index ← _polynomial_hash self template;
    hash_value ← _compute_full_hash self template;
    head ← getitem self.(table) hash_index;
    let new_entry := {| template := template; hash_value := hash_value |} in
    table ← setitem self.(table) hash_index (new_entry :: head);
    Some ({| size := self.(size); table := table; count := self.(count) + 1;
             prime := self.(prime); mod_ := self.(mod_) |},
          (true, lit "Pattern '" ++ template ++ lit "' inserted successfully")).

Definition get (self : HashTable) (template : pystr) : option bool :=
  exists_ self template.

(** The two nested loops of [get_all_patterns], before the sort. *)
Definition collect_patterns (self : HashTable) : list pystr :=
  flat_map (fun bucket => map hashtable.template bucket) self.(table).

#[export] Instance str_le_dec : RelDecision str_le.
Proof. intros a b. unfold str_le. solve_decision. Defined.

(** [patterns.sort()] orders by [<] on [str]; strings that compare
    equal are the same string, so the result is the sorted
    arrangement whatever the algorithm. *)
Definition get_all_patterns (self : HashTable) : list pystr :=
  merge_sort str_le (collect_patterns self).

(** The [while current] loop of [delete]: the chain with the first
    entry for [template] unlinked, or [None] when there is none. *)
Fixpoint chain_unlink (current : list HashEntry) (template : pystr)
  : option (list HashEntry) :=
  match current with
  | [] => None
  | e :: next =>
      if str_eqb e.(hashtable.template) template then Some next
      else
        match chain_unlink next template with
        | Some next' => Some (e :: next')
        | None => None
        end
  end.

Definition delete (self : HashTable) (template : pystr)
  : option (HashTable * (bool * pystr)) :=
  hash_index ← _polynomial_hash self template;
  current ← getitem self.(table) hash_index;
  match chain_unlink current template with
  | Some chain =>
      table ← setitem self.(table) hash_index chain;
      Some ({| size := self.(size); table := table; count := self.(count) - 1;
               prime := self.(prime); mod_ := self.(mod_) |},
            (true, lit "Pattern '" ++ template ++ lit "' deleted successfully"))
  | None => Some (self, (false, lit "Pattern '" ++ template ++ lit "' not found"))
  end.

Definition get_size (self : HashTable) : Z := self.(count).

Definition update (self : HashTable) (old_template new_template : pystr)
  : option (HashTable * (bool * pystr)) :=
  e ← exists_ self old_template;
  if negb e
  then Some (self, (false, lit "Pattern '" ++ old_template ++ lit "' not found"))
  else
    c ← (if negb (str_eqb old_template new_template)
         then exists_ self new_template else Some false);
    if c : bool
    then Some (self, (false, lit "Pattern '" ++ new_template ++ lit "' already exists"))
    else
      '(self, (success, _)) ← delete self old_template;
      if success : bool then
        '(self, _) ← put self new_template;
        Some (self, (true, lit "Pattern updated from '" ++ old_template
                             ++ lit "' to '" ++ new_template ++ lit "'"))
      else Some (self, (false, lit "Failed to update pattern")).

End hashtable.

(** ** Vocabulary of the properties *)

(** The strings of the documented examples. *)
Definition root_ktb : pystr := [0x643; 0x62a; 0x628].
Definition root_3lm : pystr := [0x639; 0x644; 0x645].
Definition pattern_faa3il : pystr := [0x641; 0x64e; 0x627; 0x639; 0x650; 0x644].
Definition word_katib : pystr := [0x643; 0x627; 0x62a; 0x628].
Definition word_3alim : pystr := [0x639; 0x627; 0x644; 0x645].
Definition word_katib_vocalised : pystr :=
  [0x643; 0x64e; 0x627; 0x62a; 0x650; 0x628].
Definition word_3alim_vocalised : pystr :=
  [0x639; 0x64e; 0x627; 0x644; 0x650; 0x645].

Module avl_spec.
Import avl.

Abbreviation dict := (gmap pystr word_info).

(** The nodes of a tree in order, each with its dictionary: what
    [_in_order_with_words] collects. *)
Fixpoint items (node : AVLNode) : list (pystr * dict) :=
  match node with
  | NoNode => []
  | Node k l r _ d => items l ++ (k, d) :: items r
  end.

Definition keys (node : AVLNode) : list pystr := (items node).*1.

(** The height of a tree counted on its shape, as opposed to the
    [height] field [_get_height] reads. *)
Fixpoint real_height (node : AVLNode) : Z :=
  match node with
  | NoNode => 0
  | Node _ l r _ _ => 1 + Z.max (real_height l) (real_height r)
  end.

(** [P] holds at every node of the tree. *)
Fixpoint all_nodes (P : pystr -> AVLNode -> AVLNode -> Z -> dict -> Prop)
  (node : AVLNode) : Prop :=
  match node with
  | NoNode => True
  | Node k l r h d => all_nodes P l /\ P k l r h d /\ all_nodes P r
  end.

(** The AVL invariant on the stored heights. *)
Definition balanced : AVLNode -> Prop :=
  all_nodes (fun _ l r h _ =>
    -1 <= _get_height l - _get_height r <= 1 /\
    h = 1 + Z.max (_get_height l) (_get_height r)).

(** The search-tree invariant: the keys in order increase strictly. *)
Definition bst (node : AVLNode) : Prop := StronglySorted str_lt (keys node).

Definition wf (self : AVLTree) : Prop :=
  balanced self.(root) /\ bst self.(root).

(** The mutating operations of the root index. *)
Inductive op := Insert (root : pystr) | Delete (root : pystr).

Definition step (self : AVLTree) (o : op) : option AVLTree :=
  match o with
  | Insert root => fst <$> insert self root
  | Delete root => fst <$> delete self root
  end.

(** The tree after a sequence of operations, first operation first. *)
Fixpoint run (ops : list op) (self : AVLTree) : option AVLTree :=
  match ops with
  | [] => Some self
  | o :: ops => self ← step self o; run ops self
  end.

(** Sorted insertion into and removal from the in-order listing, the
    abstract counterparts of [_insert_recursive] and
    [_delete_recursive]. *)
Fixpoint insert_item (x : pystr) (l : list (pystr * dict))
  : list (pystr * dict) :=
  match l with
  | [] => [(x, ∅)]
  | (k, d) :: l' =>
      if str_ltb x k then (x, ∅) :: l
      else if str_ltb k x then (k, d) :: insert_item x l'
      else l
  end.

Definition remove_item (x : pystr) (l : list (pystr * dict))
  : list (pystr * dict) :=
  filter (fun kd => kd.1 <> x) l.

(** The shape of a subtree that an insertion of [x] made taller: the
    node at its top is the one that was there, and the side [x] went to
    is the taller one by one level. *)
Definition leans_to (x : pystr) (node' : AVLNode) (k : pystr) : Prop :=
  match node' with
  | NoNode => False
  | Node k' l' r' _ _ =>
      k' = k /\
      (if str_ltb x k then _get_height l' = _get_height r' + 1
       else str_ltb k x = true /\ _get_height r' = _get_height l' + 1)
  end.

Definition grown (node : AVLNode) (x : pystr) (node' : AVLNode) : Prop :=
  match node with
  | NoNode => True
  | Node k _ _ _ _ => leans_to x node' k
  end.

Definition ins_post (node : AVLNode) (x : pystr) (node' : AVLNode) : Prop :=
  balanced node' /\
  (_get_height node' = _get_height node \/
   _get_height node' = _get_height node + 1 /\ grown node x node').

(** A one-node tree and a three-node tree with dictionaries, for the
    examples. *)
Definition tree_ktb : AVLTree :=
  {| root := new_node root_ktb; size := 1 |}.

Definition dict_nsr : dict :=
  {[ [0x646; 0x64e; 0x627; 0x635; 0x650; 0x631] :=
       {| template := pattern_faa3il; frequency := 2 |} ]}.

Definition dict_ktb : dict :=
  {[ word_katib_vocalised := {| template := pattern_faa3il; frequency := 1 |} ]}.

Definition root_nsr : pystr := [0x646; 0x635; 0x631].

Definition node_3lm : AVLNode := Node root_3lm NoNode NoNode 1 ∅.
Definition node_nsr : AVLNode := Node root_nsr NoNode NoNode 1 dict_nsr.
Definition node_ktb : AVLNode := Node root_ktb node_3lm node_nsr 2 dict_ktb.

End avl_spec.

(** Vocabulary for the pattern index. *)

Module hashtable_spec.
Import hashtable.

(** The templates of a chain, head first. *)
Definition templates (chain : list HashEntry) : list pystr :=
  hashtable.template <$> chain.

(** What every table built by the operations satisfies: the bucket
    array has [size] buckets, the divisor of the hash is not zero, every
    entry sits in the bucket of its template, and no chain holds a
    template twice. *)
Definition table_wf (self : HashTable) : Prop :=
  0 < self.(size) /\
  self.(mod_) <> 0 /\
  length self.(table) = Z.to_nat self.(size) /\
  (forall (i : nat) chain t,
     self.(table) !! i = Some chain -> t ∈ templates chain ->
     _polynomial_hash self t = Some (Z.of_nat i)) /\
  (forall (i : nat) chain,
     self.(table) !! i = Some chain -> NoDup (templates chain)).

(** The mutating operations of the pattern index. *)
Inductive table_op :=
| Put (template : pystr)
| Delete (template : pystr)
| Update (old_template new_template : pystr).

Definition table_step (self : HashTable) (o : table_op) : option HashTable :=
  match o with
  | Put t => fst <$> put self t
  | Delete t => fst <$> delete self t
  | Update t t' => fst <$> update self t t'
  end.

Fixpoint table_run (ops : list table_op) (self : HashTable) : option HashTable :=
  match ops with
  | [] => Some self
  | o :: ops => self ← table_step self o; table_run ops self
  end.

(** The table with the chain of bucket [i] replaced and the count set. *)
Definition with_bucket (self : HashTable) (i : nat) (chain : list HashEntry)
  (count : Z) : HashTable :=
  {| size := self.(size); table := <[i := chain]> self.(table);
     count := count; prime := self.(prime); mod_ := self.(mod_) |}.

End hashtable_spec.

(** ** More of the source, and the vocabulary of its properties *)

Module avl_more.
Import avl avl_spec.

(** [AVLNode.get_word_frequency], on the dictionary of the node:
    [self.derived_words.get(word, {}).get("frequency", 0)]. *)
Definition get_word_frequency (derived_words : dict) (word : pystr) : Z :=
  match derived_words !! word with
  | Some info => info.(frequency)
  | None => 0
  end.

(** The four mutating methods of [AVLTree]. *)
Inductive call :=
| CallInsert (root : pystr)
| CallDelete (root : pystr)
| CallUpdate (old_root new_root : pystr)
| CallAddWord (root word template : pystr).

Definition exec_call (self : AVLTree) (c : call) : option AVLTree :=
  match c with
  | CallInsert r => fst <$> insert self r
  | CallDelete r => fst <$> delete self r
  | CallUpdate o n => fst <$> update self o n
  | CallAddWord r w t => Some (add_validated_word self r w t).1
  end.

(** The tree after a sequence of calls, first call first; [None] when a
    call raises. *)
Fixpoint exec (calls : list call) (self : AVLTree) : option AVLTree :=
  match calls with
  | [] => Some self
  | c :: calls => self ← exec_call self c; exec calls self
  end.

(** The dictionary listed for a key in an in-order listing. *)
Fixpoint lookup_item (x : pystr) (l : list (pystr * dict)) : option dict :=
  match l with
  | [] => None
  | (k, d) :: l' => if bool_decide (k = x) then Some d else lookup_item x l'
  end.

(** The listing with [f] applied to the dictionary listed for [x]. *)
Definition alter_item (f : dict -> dict) (x : pystr)
  (l : list (pystr * dict)) : list (pystr * dict) :=
  (fun kd => if bool_decide (kd.1 = x) then (kd.1, f kd.2) else kd) <$> l.

(** A well-formed tree whose [size] is the number of its nodes. *)
Definition counted (self : AVLTree) : Prop :=
  wf self /\ self.(size) = Z.of_nat (length (items self.(root))).

End avl_more.

Module hashtable_more.
Import hashtable hashtable_spec.

(** One element of the [buckets] list of [get_table_structure]. *)
Record bucket_info := {
  index : Z;
  bucket_count : Z;
  chain : list HashEntry
}.

(** The dictionary [get_table_structure] returns, without its
    [load_factor] entry, which is a float. *)
Record table_structure := {
  structure_size : Z;
  structure_count : Z;
  non_empty_buckets : Z;
  collisions : Z;
  buckets : list bucket_info
}.

(** The [for index, bucket in enumerate(self.table)] loop, with its
    three accumulators. *)
Fixpoint structure_loop (table : list (list HashEntry)) (index : Z)
  (buckets : list bucket_info) (non_empty_buckets collisions : Z)
  : list bucket_info * Z * Z :=
  match table with
  | [] => (buckets, non_empty_buckets, collisions)
  | bucket :: rest =>
      let chain := bucket in
      let len := Z.of_nat (length chain) in
      let '(non_empty_buckets, collisions) :=
        match chain with
        | [] => (non_empty_buckets, collisions)
        | _ :: _ =>
            (non_empty_buckets + 1,
             if len >? 1 then collisions + (len - 1) else collisions)
        end in
      structure_loop rest (index + 1)
        (buckets ++ [{| index := index; bucket_count := len; chain := chain |}])
        non_empty_buckets collisions
  end.

Definition get_table_structure (self : HashTable) : table_structure :=
  let '(buckets, non_empty_buckets, collisions) :=
    structure_loop self.(table) 0 [] 0 0 in
  {| structure_size := self.(size);
     structure_count := self.(count);
     non_empty_buckets := non_empty_buckets;
     collisions := collisions;
     buckets := buckets |}.

(** A table built from [HashTable(n)], [n] positive, by [put], [delete]
    and [update] calls. *)
Definition reachable (self : HashTable) : Prop :=
  exists n ops, 0 < n /\ table_run ops (init n) = Some self.

(** What the reachable tables satisfy beyond [table_wf]: [count] is the
    number of entries and every entry carries the index of its bucket as
    [hash_value]. *)
Definition table_ok (self : HashTable) : Prop :=
  table_wf self /\
  self.(count) = Z.of_nat (length (collect_patterns self)) /\
  (forall (i : nat) chain e,
     self.(table) !! i = Some chain -> e ∈ chain ->
     e.(hash_value) = Z.of_nat i).

(** The sum of the docstring of [_polynomial_hash]:
    [p1*prime^(k-1) + p2*prime^(k-2) + ... + pk]. *)
Fixpoint polynomial (prime : Z) (template : pystr) : Z :=
  match template with
  | [] => 0
  | char :: rest =>
      char * prime ^ Z.of_nat (length rest) + polynomial prime rest
  end.

End hashtable_more.

(** ** A tree for deletions below the top node *)

Module avl_deep.
Import avl avl_spec.

(** A five-node tree whose node with two children, [fff], is below the
    top node. *)
Definition node_ccc : AVLNode := Node (lit "ccc") NoNode NoNode 1 ∅.
Definition node_hhh : AVLNode := Node (lit "hhh") NoNode NoNode 1 dict_nsr.
Definition node_fff : AVLNode := Node (lit "fff") node_ccc node_hhh 2 dict_ktb.
Definition node_ttt : AVLNode := Node (lit "ttt") NoNode NoNode 1 ∅.
Definition tree_deep : AVLTree :=
  {| root := Node (lit "mmm") node_fff node_ttt 3 ∅; size := 5 |}.

End avl_deep.

(** ** Facts on the string order *)

Section str_order.

Lemma str_ltb_irrefl a : str_ltb a a = false.
Proof.
  induction a as [|x a IH]; simpl; [done|].
  by rewrite Z.ltb_irrefl.
Qed.

Lemma str_ltb_trans a b c :
  str_ltb a b = true -> str_ltb b c = true -> str_ltb a c = true.
Proof.
  revert b c. induction a as [|x a IH]; intros [|y b] [|z c]; simpl; try done.
  destruct (Z.ltb_spec x y), (Z.ltb_spec y x), (Z.ltb_spec y z),
    (Z.ltb_spec z y), (Z.ltb_spec x z), (Z.ltb_spec z x);
    try done; try lia.
  apply IH.
Qed.

Lemma str_ltb_asym a b : str_ltb a b = true -> str_ltb b a = false.
Proof.
  revert b. induction a as [|x a IH]; intros [|y b]; simpl; try done.
  destruct (Z.ltb_spec x y), (Z.ltb_spec y x); try done; try lia.
  apply IH.
Qed.

(** When neither [a < b] nor [b < a], the strings are the same: the
    final [else] of a comparison chain is the case [a == b]. *)
Lemma str_ltb_connex a b :
  str_ltb a b = false -> str_ltb b a = false -> a = b.
Proof.
  revert b. induction a as [|x a IH]; intros [|y b]; simpl; try done.
  destruct (Z.ltb_spec x y), (Z.ltb_spec y x); try done.
  intros. f_equal; [lia | by apply IH].
Qed.

Lemma str_eqb_eq a b : str_eqb a b = true <-> a = b.
Proof. unfold str_eqb. by rewrite bool_decide_eq_true. Qed.

Lemma str_eqb_neq a b : str_eqb a b = false <-> a <> b.
Proof. unfold str_eqb. by rewrite bool_decide_eq_false. Qed.

Lemma str_eqb_refl a : str_eqb a a = true.
Proof. by apply str_eqb_eq. Qed.

Lemma str_lt_neq a b : str_ltb a b = true -> a <> b.
Proof. intros H ->. by rewrite str_ltb_irrefl in H. Qed.

#[global] Instance str_lt_trans : Transitive str_lt.
Proof. intros a b c. apply str_ltb_trans. Qed.

#[global] Instance str_lt_irrefl : Irreflexive str_lt.
Proof. intros a H. red in H. by rewrite str_ltb_irrefl in H. Qed.

#[global] Instance str_le_total : Total str_le.
Proof.
  intros a b. unfold str_le.
  destruct (str_ltb b a) eqn:E; [right; by apply str_ltb_asym | by left].
Qed.

#[global] Instance str_le_trans : Transitive str_le.
Proof.
  intros a b c. unfold str_le. intros Hab Hbc.
  destruct (str_ltb c a) eqn:E; [|done].
  destruct (str_ltb a b) eqn:E1.
  - by rewrite (str_ltb_trans _ _ _ E E1) in Hbc.
  - rewrite (str_ltb_connex _ _ E1 Hab) in E. congruence.
Qed.

#[global] Instance str_le_antisym : AntiSymm (=) str_le.
Proof. intros a b Hab Hba. by apply str_ltb_connex. Qed.

End str_order.


(** ** The morphological engine *)

Module morphology_facts.
Import MorphologicalEngine.

(** A root that is not three characters long never reaches the
    substitution loop. *)
Lemma apply_root_to_pattern_bad_length (root pattern : pystr) :
  length root <> 3%nat -> apply_root_to_pattern root pattern = [].
Proof.
  intros Hlen. unfold apply_root_to_pattern.
  destruct root as [|c1 [|c2 [|c3 [|c4 rest]]]]; simpl in *; congruence.
Qed.

(** C1, evaluated on the code: [apply_root_to_pattern] on the root
    k-t-b and the template fa-fatha-alif-ayn-kasra-lam returns the six
    code points kaf, fatha, alif, ta, kasra, ba; on the root ayn-l-m it
    returns ayn, fatha, alif, lam, kasra, mim.  The root consonants
    replace the three markers and every other character of the
    template, the two short vowels included, is kept.  The first two
    examples of the function's docstring give for these calls the
    four-letter words kaf-alif-ta-ba and ayn-alif-lam-mim, which the
    function does not return. *)
Theorem C1_apply_keeps_template_vowels :
  apply_root_to_pattern root_ktb pattern_faa3il = word_katib_vocalised /\
  apply_root_to_pattern root_3lm pattern_faa3il = word_3alim_vocalised /\
  apply_root_to_pattern root_ktb pattern_faa3il <> word_katib /\
  apply_root_to_pattern root_3lm pattern_faa3il <> word_3alim.
Proof.
  repeat split; try reflexivity; intros H; vm_compute in H; discriminate H.
Qed.

(** The matching loop of [validate_word] stops at the first template
    that generates the word; a template at position [j] that generates
    it bounds where the loop stops. *)
Lemma validate_loop_finds word root (patterns : list pystr) (j : nat) t :
  patterns !! j = Some t ->
  apply_root_to_pattern root t = word ->
  exists (i : nat) t',
    (i <= j)%nat /\ patterns !! i = Some t' /\
    apply_root_to_pattern root t' = word /\
    validate_loop word root patterns = (true, Some t').
Proof.
  revert j. induction patterns as [|p ps IH]; intros j Hj Hw; [done|].
  simpl. destruct (str_eqb (apply_root_to_pattern root p) word) eqn:E.
  - exists 0%nat, p. apply str_eqb_eq in E. repeat split; [lia|done..].
  - destruct j as [|j]; simpl in Hj.
    + injection Hj as ->. apply str_eqb_neq in E. done.
    + destruct (IH j Hj Hw) as (i & t' & Hi & Hl & Ha & Hv).
      exists (S i), t'. repeat split; [lia|done..].
Qed.

(** Every derivative the generating loop adds to its accumulator pairs a
    template of the list with the word it generates. *)
Lemma generate_loop_sound root (patterns : list pystr) acc d :
  d ∈ generate_loop root patterns acc ->
  d ∈ acc \/
  exists j : nat,
    patterns !! j = Some d.(template) /\
    apply_root_to_pattern root d.(template) = d.(generated_word).
Proof.
  revert acc. induction patterns as [|p ps IH]; intros acc Hd; simpl in Hd.
  - by left.
  - apply IH in Hd as [Hd | (j & Hj & Hw)].
    + destruct (apply_root_to_pattern root p) as [|c w] eqn:E; [by left|].
      apply elem_of_app in Hd as [Hd | Hd]; [by left|].
      apply list_elem_of_singleton in Hd as ->. right. by exists 0%nat.
    + right. by exists (S j).
Qed.

(** C7: for a three-character root and any list of patterns, each
    [{template, generated_word}] of [generate_derivatives] is accepted
    by [validate_word] on the same root and list: it returns [True]
    with a template that generates the word and stands at or before the
    position of the derivative's own template. *)
Theorem C7_generated_words_validate root (patterns : list pystr) d :
  length root = 3%nat ->
  d ∈ generate_derivatives root patterns ->
  exists (i j : nat) t',
    validate_word d.(generated_word) root patterns = (true, Some t') /\
    apply_root_to_pattern root t' = d.(generated_word) /\
    patterns !! i = Some t' /\
    patterns !! j = Some d.(template) /\
    (i <= j)%nat.
Proof.
  intros Hlen Hd. unfold generate_derivatives, validate_word in *.
  rewrite Hlen in *. simpl in *.
  apply generate_loop_sound in Hd as [Hd | (j & Hj & Hw)].
  - by apply elem_of_nil in Hd.
  - destruct (validate_loop_finds _ _ _ _ _ Hj Hw) as (i & t' & Hi & Hl & Ha & Hv).
    exists i, j, t'. done.
Qed.

Lemma C7_generated_words_validate_witness :
  exists (i j : nat) t',
    validate_word word_katib_vocalised root_ktb
      [lit "xyz"; pattern_faa3il; lit "1a2i3"; pattern_faa3il]
      = (true, Some t') /\
    apply_root_to_pattern root_ktb t' = word_katib_vocalised /\
    [lit "xyz"; pattern_faa3il; lit "1a2i3"; pattern_faa3il] !! i = Some t' /\
    [lit "xyz"; pattern_faa3il; lit "1a2i3"; pattern_faa3il] !! j
      = Some pattern_faa3il /\
    (i <= j)%nat.
Proof.
  apply (C7_generated_words_validate root_ktb
           [lit "xyz"; pattern_faa3il; lit "1a2i3"; pattern_faa3il]
           {| template := pattern_faa3il;
              generated_word := word_katib_vocalised |}).
  - reflexivity.
  - vm_compute. do 3 right. left.
Defined.

(** Two checks of the model against Python: occurrences found by
    [str.replace] do not overlap, and the hollow root q-w-l in the
    template fa-fatha-ayn-fatha-lam turns fatha-waw into fatha-alif. *)
Example replace_does_not_overlap :
  replace (lit "aaab") (lit "aa") (lit "c") = lit "cab".
Proof. reflexivity. Qed.

Example apply_hollow_root :
  apply_root_to_pattern [0x642; WAW; 0x644] [FA; FATHA; AYN; FATHA; LAM]
  = [0x642; FATHA; ALIF; FATHA; 0x644].
Proof. reflexivity. Qed.

End morphology_facts.


(** ** The root index *)

Module avl_facts.
Import avl avl_spec.

(** *** Shape: heights and balance *)

Lemma balanced_node k l r h d :
  balanced (Node k l r h d) <->
  balanced l /\ balanced r /\
  -1 <= _get_height l - _get_height r <= 1 /\
  h = 1 + Z.max (_get_height l) (_get_height r).
Proof. unfold balanced. simpl. tauto. Qed.

Lemma balanced_height_nonneg node : balanced node -> 0 <= _get_height node.
Proof.
  induction node as [|k l IHl r IHr h d]; simpl; [lia|].
  intros (Hl & Hr & Hb & ->)%balanced_node.
  specialize (IHl Hl). lia.
Qed.

Lemma balanced_real_height node :
  balanced node -> real_height node = _get_height node.
Proof.
  induction node as [|k l IHl r IHr h d]; [done|].
  intros (Hl & Hr & Hb & ->)%balanced_node. simpl.
  rewrite IHl, IHr by done. done.
Qed.

Lemma height_pos_node node :
  balanced node -> 0 < _get_height node ->
  exists k l r h d, node = Node k l r h d.
Proof. destruct node; simpl; [lia | eauto 6]. Qed.

(** *** Rotations keep the in-order listing *)

Lemma _rotate_right_items node node' :
  _rotate_right node = Some node' -> items node' = items node.
Proof.
  destruct node as [|k [|lk ll lr lh ld] r h d]; simpl; try done.
  intros [= <-]. simpl. by rewrite <- app_assoc.
Qed.

Lemma _rotate_left_items node node' :
  _rotate_left node = Some node' -> items node' = items node.
Proof.
  destruct node as [|k l [|rk rl rr rh rd] h d]; simpl; try done.
  intros [= <-]. simpl. by rewrite <- app_assoc.
Qed.

Ltac split_result H :=
  repeat first
    [ apply bind_Some in H as (? & ? & H)
    | match type of H with
      | (if ?c then _ else _) = Some _ => destruct c eqn:?
      end ].

Ltac rotations_keep_items :=
  repeat match goal with
  | H : _rotate_right _ = Some _ |- _ => apply _rotate_right_items in H
  | H : _rotate_left _ = Some _ |- _ => apply _rotate_left_items in H
  | H : Some _ = Some _ |- _ => injection H as <-
  end; simpl in *; congruence.

Lemma insert_rebalance_items node x node' :
  insert_rebalance node x = Some node' -> items node' = items node.
Proof.
  destruct node as [|k l r h d]; [done|]. unfold insert_rebalance.
  intros H. split_result H; rotations_keep_items.
Qed.

Lemma delete_rebalance_items node node' :
  delete_rebalance node = Some node' -> items node' = items node.
Proof.
  destruct node as [|k l r h d]; [done|]. unfold delete_rebalance.
  intros H. split_result H; rotations_keep_items.
Qed.

#[local] Arguments insert_rebalance : simpl never.
#[local] Arguments delete_rebalance : simpl never.
#[local] Arguments balanced : simpl never.

Ltac heights :=
  repeat match goal with
  | H : balanced (Node _ _ _ _ _) |- _ =>
      apply balanced_node in H as (? & ? & ? & ?)
  | |- balanced (Node _ _ _ _ _) => apply balanced_node
  end;
  repeat match goal with
  | H : balanced ?n |- _ =>
      lazymatch goal with
      | _ : 0 <= _get_height n |- _ => fail
      | _ => pose proof (balanced_height_nonneg n H)
      end
  end.


Lemma insert_rebalance_left k l l' r h h0 d x :
  balanced (Node k l r h d) ->
  str_ltb x k = true ->
  ins_post l x l' ->
  exists n', insert_rebalance (Node k l' r h0 d) x = Some n' /\
             ins_post (Node k l r h d) x n'.
Proof.
  intros Hb Hx [Hl' Hh]. heights. subst h.
  unfold insert_rebalance, ins_post, grown, leans_to. simpl.
  rewrite !Z.gtb_ltb.
  destruct (Z.ltb_spec 1 (_get_height l' - _get_height r)) as [Hbig|Hok].
  - (* the left subtree got taller and is now two levels above the right *)
    destruct Hh as [?|[Hh Hg]]; [lia|].
    destruct l as [|lk ll lr lh ld]; simpl in *; [lia|].
    destruct l' as [|lk' ll' lr' lh' ld']; simpl in *; [done|].
    destruct Hg as [-> Hg]. heights. simpl in *.
    destruct (str_ltb x lk) eqn:Hxl; simpl.
    + eexists; split; [done|]. rewrite Hx. simpl. split; [|left; lia].
      heights. simpl. repeat split; try done; lia.
    + destruct Hg as [Hlx Hg]. rewrite Hlx.
      destruct (Z.ltb_spec (lh' - _get_height r) (-1)); [lia|]. simpl.
      destruct lr' as [|lrk lrl lrr lrh lrd]; simpl in *; [lia|].
      heights. simpl in *.
      eexists; split; [done|]. rewrite Hx. simpl. split; [|left; lia].
      heights. simpl. repeat split; try done; lia.
  - destruct (Z.ltb_spec (_get_height l' - _get_height r) (-1)); [lia|]. simpl.
    eexists; split; [done|]. simpl. rewrite Hx. split.
    + heights. repeat split; try done; lia.
    + destruct Hh as [Hh|[Hh Hg]]; [left; lia|].
      destruct (Z.le_gt_cases (_get_height l') (_get_height r)); [left; lia|right].
      repeat split; lia.
Qed.

Lemma insert_rebalance_right k l r r' h h0 d x :
  balanced (Node k l r h d) ->
  str_ltb x k = false ->
  str_ltb k x = true ->
  ins_post r x r' ->
  exists n', insert_rebalance (Node k l r' h0 d) x = Some n' /\
             ins_post (Node k l r h d) x n'.
Proof.
  intros Hb Hx Hkx [Hr' Hh]. heights. subst h.
  unfold insert_rebalance, ins_post, grown, leans_to. simpl.
  rewrite !Z.gtb_ltb.
  destruct (Z.ltb_spec 1 (_get_height l - _get_height r')) as [?|_]; [lia|].
  simpl.
  destruct (Z.ltb_spec (_get_height l - _get_height r') (-1)) as [Hbig|Hok].
  - (* the right subtree got taller and is now two levels above the left *)
    destruct Hh as [?|[Hh Hg]]; [lia|].
    destruct r as [|rk rl rr rh rd]; simpl in *; [lia|].
    destruct r' as [|rk' rl' rr' rh' rd']; simpl in *; [done|].
    destruct Hg as [-> Hg]. heights. simpl in *.
    destruct (str_ltb rk x) eqn:Hrx; simpl.
    + rewrite (str_ltb_asym _ _ Hrx) in Hg. destruct Hg as [_ Hg].
      eexists; split; [done|]. rewrite Hx, Hkx. simpl. split; [|left; lia].
      heights. simpl. repeat split; try done; lia.
    + destruct (str_ltb x rk) eqn:Hxr; [|by destruct Hg].
      destruct rl' as [|rlk rll rlr rlh rld]; simpl in *; [lia|].
      heights. simpl in *.
      eexists; split; [done|]. rewrite Hx, Hkx. simpl. split; [|left; lia].
      heights. simpl. repeat split; try done; lia.
  - simpl. eexists; split; [done|]. simpl. rewrite Hx, Hkx. split.
    + heights. repeat split; try done; lia.
    + destruct Hh as [Hh|[Hh Hg]]; [left; lia|].
      destruct (Z.le_gt_cases (_get_height r') (_get_height l)); [left; lia|right].
      repeat split; lia.
Qed.


Lemma _insert_recursive_balanced node x sz :
  balanced node ->
  exists node' sz',
    _insert_recursive node x sz = Some (node', sz') /\ ins_post node x node'.
Proof.
  revert sz. induction node as [|k l IHl r IHr h d]; intros sz Hb.
  - exists (new_node x), (sz + 1). split; [done|].
    unfold ins_post, new_node. simpl. split; [|right; done].
    apply balanced_node. simpl. repeat split; try done; lia.
  - simpl. pose proof Hb as (Hbl & Hbr & _)%balanced_node.
    destruct (str_ltb x k) eqn:Hx.
    + destruct (IHl sz Hbl) as (l' & sz' & -> & Hpost). simpl.
      destruct (insert_rebalance_left k l l' r h h d x Hb Hx Hpost)
        as (n' & -> & Hn'). simpl. eauto.
    + destruct (str_ltb k x) eqn:Hkx.
      * destruct (IHr sz Hbr) as (r' & sz' & -> & Hpost). simpl.
        destruct (insert_rebalance_right k l r r' h h d x Hb Hx Hkx Hpost)
          as (n' & -> & Hn'). simpl. eauto.
      * eexists _, _. split; [done|]. split; [done|by left].
Qed.

Lemma delete_rebalance_balanced k l r h0 d :
  balanced l -> balanced r ->
  -2 <= _get_height l - _get_height r <= 2 ->
  exists n',
    delete_rebalance (Node k l r h0 d) = Some n' /\ balanced n' /\
    Z.max (_get_height l) (_get_height r) <= _get_height n'
      <= 1 + Z.max (_get_height l) (_get_height r) /\
    (-1 <= _get_height l - _get_height r <= 1 ->
     _get_height n' = 1 + Z.max (_get_height l) (_get_height r)).
Proof.
  intros Hl Hr Hb. heights. unfold delete_rebalance. simpl.
  rewrite !Z.gtb_ltb.
  destruct (Z.ltb_spec 1 (_get_height l - _get_height r)) as [Hbig|Hle].
  - destruct l as [|lk ll lr lh ld]; simpl in *; [lia|]. heights.
    rewrite Z.geb_leb.
    destruct (Z.leb_spec 0 (_get_height ll - _get_height lr)).
    + eexists; split; [done|]. simpl. split; [|lia].
      heights. simpl. repeat split; try done; lia.
    + destruct lr as [|lrk lrl lrr lrh lrd]; simpl in *; [lia|].
      heights. simpl in *.
      eexists; split; [done|]. simpl. split; [|lia].
      heights. simpl. repeat split; try done; lia.
  - destruct (Z.ltb_spec (_get_height l - _get_height r) (-1)) as [Hbig|Hge].
    + destruct r as [|rk rl rr rh rd]; simpl in *; [lia|]. heights.
      destruct (Z.leb_spec (_get_height rl - _get_height rr) 0).
      * eexists; split; [done|]. simpl. split; [|lia].
        heights. simpl. repeat split; try done; lia.
      * destruct rl as [|rlk rll rlr rlh rld]; simpl in *; [lia|].
        heights. simpl in *.
        eexists; split; [done|]. simpl. split; [|lia].
        heights. simpl. repeat split; try done; lia.
    + eexists; split; [done|]. simpl. split; [|lia].
      heights. repeat split; try done; lia.
Qed.

Lemma _get_min_node_is_node k l r h d :
  exists mk ml mr mh md,
    _get_min_node (Node k l r h d) = Some (Node mk ml mr mh md).
Proof.
  revert k r h d. induction l as [|lk ll IHl lr _ lh ld]; intros k r h d.
  - simpl. eauto 6.
  - apply (IHl lk lr lh ld).
Qed.

Lemma _delete_recursive_balanced node x sz :
  balanced node ->
  exists node' sz',
    _delete_recursive node x sz = Some (node', sz') /\ balanced node' /\
    _get_height node - 1 <= _get_height node' <= _get_height node.
Proof.
  revert x sz. induction node as [|k l IHl r IHr h d]; intros x sz Hb.
  - exists NoNode, sz. simpl. repeat split; try done; lia.
  - simpl. pose proof Hb as (Hbl & Hbr & Hd & ->)%balanced_node.
    pose proof (balanced_height_nonneg _ Hbl).
    pose proof (balanced_height_nonneg _ Hbr).
    destruct (str_ltb x k) eqn:Hx; [|destruct (str_ltb k x) eqn:Hkx].
    + destruct (IHl x sz Hbl) as (l' & sz' & -> & Hl' & Hh). simpl.
      destruct (delete_rebalance_balanced k l' r
                  (1 + Z.max (_get_height l) (_get_height r)) d Hl' Hbr)
        as (n' & -> & Hn' & Hh1 & Hh2); [lia|].
      simpl. eexists _, _. split; [done|]. split; [done|]. lia.
    + destruct (IHr x sz Hbr) as (r' & sz' & -> & Hr' & Hh). simpl.
      destruct (delete_rebalance_balanced k l r'
                  (1 + Z.max (_get_height l) (_get_height r)) d Hbl Hr')
        as (n' & -> & Hn' & Hh1 & Hh2); [lia|].
      simpl. eexists _, _. split; [done|]. split; [done|]. lia.
    + destruct l as [|lk ll lr lh ld].
      { eexists _, _. split; [done|]. split; [done|]. simpl in *. lia. }
      destruct r as [|rk rl rr rh rd].
      { eexists _, _. split; [done|]. split; [done|]. simpl in *. lia. }
      destruct (_get_min_node_is_node rk rl rr rh rd)
        as (mk & ml & mr & mh & md & ->).
      cbn [mbind option_bind root_of derived_words_of].
      destruct (IHr mk (sz - 1) Hbr) as (r' & sz' & -> & Hr' & Hh).
      cbn [mbind option_bind].
      edestruct (delete_rebalance_balanced mk (Node lk ll lr lh ld) r')
        as (n' & Hn & Hn' & Hh1 & Hh2);
        [exact Hbl | exact Hr' | simpl in *; lia |].
      rewrite Hn. simpl. eexists _, _. split; [done|]. split; [done|]. simpl in *. lia.
Qed.

(** *** Order: the in-order listing *)

Lemma keys_node k l r h d :
  keys (Node k l r h d) = keys l ++ k :: keys r.
Proof. unfold keys. simpl. by rewrite fmap_app. Qed.

Lemma bst_node k l r h d :
  bst (Node k l r h d) <->
  bst l /\ bst r /\
  (forall a, a ∈ keys l -> str_lt a k) /\
  (forall b, b ∈ keys r -> str_lt k b).
Proof.
  unfold bst. rewrite keys_node, StronglySorted_app, StronglySorted_cons.
  rewrite Forall_forall. split.
  - intros (Hlr & Hl & Hk & Hr). repeat split; try done.
    intros a Ha. apply (Hlr a k Ha). by left.
  - intros (Hl & Hr & Hlk & Hkr). repeat split; try done.
    intros a b Ha [->|Hb]%elem_of_cons; [by apply Hlk|].
    transitivity k; [by apply Hlk | by apply Hkr].
Qed.

Lemma elem_of_keys x node : x ∈ keys node <-> exists d, (x, d) ∈ items node.
Proof.
  unfold keys. rewrite list_elem_of_fmap. split.
  - intros ([k d] & -> & H). by exists d.
  - intros (d & H). by exists (x, d).
Qed.

Lemma _search_recursive_elem_of node x :
  bst node -> _search_recursive node x = true <-> x ∈ keys node.
Proof.
  induction node as [|k l IHl r IHr h d]; intros Hb.
  - simpl. split; [done|]. by intros ?%elem_of_nil.
  - apply bst_node in Hb as (Hl & Hr & Hlk & Hkr).
    rewrite keys_node, elem_of_app, elem_of_cons. simpl.
    destruct (str_eqb x k) eqn:E.
    { apply str_eqb_eq in E. tauto. }
    apply str_eqb_neq in E.
    destruct (str_ltb x k) eqn:Hx.
    + rewrite (IHl Hl). split; [tauto|]. intros [?|[?|Hin]]; [done..|].
      apply Hkr in Hin. red in Hin. by rewrite (str_ltb_asym _ _ Hin) in Hx.
    + rewrite (IHr Hr). split; [tauto|]. intros [Hin|[?|?]]; [|done..].
      apply Hlk in Hin. red in Hin. congruence.
Qed.

Lemma insert_item_left x k d A B :
  str_ltb x k = true ->
  insert_item x (A ++ (k, d) :: B) = insert_item x A ++ (k, d) :: B.
Proof.
  intros Hx. induction A as [|[a da] A IH]; simpl.
  - by rewrite Hx.
  - destruct (str_ltb x a); [done|]. destruct (str_ltb a x); [|done].
    by rewrite IH.
Qed.

Lemma insert_item_right x k d A B :
  (forall a, a ∈ A.*1 -> str_lt a k) ->
  str_ltb k x = true ->
  insert_item x (A ++ (k, d) :: B) = A ++ (k, d) :: insert_item x B.
Proof.
  intros HA Hx. induction A as [|[a da] A IH]; simpl.
  - by rewrite (str_ltb_asym _ _ Hx), Hx.
  - assert (str_ltb a x = true) as Hax.
    { apply (str_ltb_trans _ k); [|done]. apply HA. simpl. by left. }
    rewrite (str_ltb_asym _ _ Hax), Hax, IH; [done|].
    intros b Hb. apply HA. simpl. by right.
Qed.

Lemma insert_item_here x k d A B :
  (forall a, a ∈ A.*1 -> str_lt a k) ->
  str_ltb x k = false -> str_ltb k x = false ->
  insert_item x (A ++ (k, d) :: B) = A ++ (k, d) :: B.
Proof.
  intros HA Hx Hk. pose proof (str_ltb_connex _ _ Hx Hk) as ->.
  clear Hx Hk. induction A as [|[a da] A IH]; simpl.
  - by rewrite str_ltb_irrefl.
  - assert (str_ltb a k = true) as Hax by (apply HA; simpl; by left).
    rewrite (str_ltb_asym _ _ Hax), Hax, IH; [done|].
    intros b Hb. apply HA. simpl. by right.
Qed.

Lemma _insert_recursive_items node x sz node' sz' :
  bst node ->
  _insert_recursive node x sz = Some (node', sz') ->
  items node' = insert_item x (items node).
Proof.
  revert sz node' sz'.
  induction node as [|k l IHl r IHr h d]; intros sz node' sz' Hb H.
  - by injection H as <- <-.
  - apply bst_node in Hb as (Hl & Hr & Hlk & Hkr). simpl in *.
    destruct (str_ltb x k) eqn:Hx; [|destruct (str_ltb k x) eqn:Hkx].
    + apply bind_Some in H as ([l' s1] & Hrec & H).
      apply bind_Some in H as (n' & Hn & [= <- <-]).
      apply insert_rebalance_items in Hn. rewrite Hn. simpl.
      rewrite (IHl _ _ _ Hl Hrec). by rewrite insert_item_left.
    + apply bind_Some in H as ([r' s1] & Hrec & H).
      apply bind_Some in H as (n' & Hn & [= <- <-]).
      apply insert_rebalance_items in Hn. rewrite Hn. simpl.
      rewrite (IHr _ _ _ Hr Hrec). by rewrite insert_item_right.
    + injection H as <- <-. simpl. by rewrite insert_item_here.
Qed.

Lemma _insert_recursive_size node x sz node' sz' :
  _insert_recursive node x sz = Some (node', sz') ->
  sz' = if _search_recursive node x then sz else sz + 1.
Proof.
  revert sz node' sz'.
  induction node as [|k l IHl r IHr h d]; intros sz node' sz' H.
  - by injection H as <- <-.
  - simpl in *.
    destruct (str_ltb x k) eqn:Hx; [|destruct (str_ltb k x) eqn:Hkx].
    + apply bind_Some in H as ([l' s1] & Hrec & H).
      apply bind_Some in H as (n' & Hn & [= <- <-]).
      rewrite (proj2 (str_eqb_neq x k)) by (by apply str_lt_neq).
      eauto.
    + apply bind_Some in H as ([r' s1] & Hrec & H).
      apply bind_Some in H as (n' & Hn & [= <- <-]).
      rewrite (proj2 (str_eqb_neq x k))
        by (apply not_eq_sym; by apply str_lt_neq).
      eauto.
    + injection H as <- <-.
      by rewrite (proj2 (str_eqb_eq x k)) by (by apply str_ltb_connex).
Qed.

(** Sorted insertion keeps a listing sorted and adds exactly [x]. *)
Lemma elem_of_insert_item x l y :
  y ∈ (insert_item x l).*1 <-> y = x \/ y ∈ l.*1.
Proof.
  induction l as [|[a da] l IH]; simpl.
  - rewrite list_elem_of_singleton. rewrite elem_of_nil. tauto.
  - destruct (str_ltb x a) eqn:Hx; [|destruct (str_ltb a x) eqn:Ha]; simpl.
    + rewrite !elem_of_cons. simpl. tauto.
    + rewrite !elem_of_cons, IH. tauto.
    + pose proof (str_ltb_connex _ _ Hx Ha) as ->.
      rewrite !elem_of_cons. tauto.
Qed.

Lemma insert_item_sorted x l :
  StronglySorted str_lt l.*1 -> StronglySorted str_lt (insert_item x l).*1.
Proof.
  induction l as [|[a da] l IH]; simpl; intros Hs.
  - repeat constructor.
  - apply StronglySorted_cons in Hs as [Hall Hs].
    destruct (str_ltb x a) eqn:Hx; [|destruct (str_ltb a x) eqn:Ha]; simpl.
    + apply StronglySorted_cons. split; [|by apply StronglySorted_cons].
      constructor; [done|]. eapply Forall_impl; [done|].
      intros b Hb. by transitivity a.
    + apply StronglySorted_cons. split; [|by apply IH].
      apply Forall_forall. intros y [->|Hy]%elem_of_insert_item; [done|].
      by eapply Forall_forall in Hall.
    + by apply StronglySorted_cons.
Qed.

Lemma _get_min_node_items r m :
  _get_min_node r = Some m ->
  exists mk ml mr mh md rest,
    m = Node mk ml mr mh md /\ items r = (mk, md) :: rest.
Proof.
  induction r as [|k l IHl rr _ h d]; [done|]. simpl.
  destruct l as [|lk ll lr lh ld].
  - intros [= <-]. by eexists _, _, _, _, _, _.
  - intros (mk & ml & mr & mh & md & rest & -> & Hi)%IHl.
    rewrite Hi. by eexists _, _, _, _, _, _.
Qed.

Lemma remove_item_absent (x : pystr) (l : list (pystr * dict)) :
  x ∉ l.*1 -> remove_item x l = l.
Proof.
  unfold remove_item. induction l as [|[a da] l IH]; [done|]. simpl.
  rewrite not_elem_of_cons. intros [Hne Hl].
  rewrite filter_cons_True by (simpl; congruence). by rewrite IH.
Qed.

Lemma remove_item_app (x : pystr) (A B : list (pystr * dict)) :
  remove_item x (A ++ B) = remove_item x A ++ remove_item x B.
Proof. apply filter_app. Qed.

Lemma remove_item_head (x : pystr) (d : dict) (l : list (pystr * dict)) :
  remove_item x ((x, d) :: l) = remove_item x l.
Proof. unfold remove_item. by rewrite filter_cons_False by (simpl; tauto). Qed.

Lemma remove_item_other (x k : pystr) (d : dict) (l : list (pystr * dict)) :
  k <> x -> remove_item x ((k, d) :: l) = (k, d) :: remove_item x l.
Proof. intros. unfold remove_item. by rewrite filter_cons_True. Qed.

Lemma str_lt_not_elem_of_l (x k : pystr) (l : list pystr) :
  (forall a, a ∈ l -> str_lt a k) -> str_ltb x k = false -> x ∉ l.
Proof. intros Hl Hx Hin. apply Hl in Hin. red in Hin. congruence. Qed.

Lemma str_lt_not_elem_of_r (x k : pystr) (l : list pystr) :
  (forall b, b ∈ l -> str_lt k b) -> str_ltb k x = false -> x ∉ l.
Proof. intros Hl Hx Hin. apply Hl in Hin. red in Hin. congruence. Qed.

Lemma _delete_recursive_items node x sz node' sz' :
  bst node ->
  _delete_recursive node x sz = Some (node', sz') ->
  items node' = remove_item x (items node) /\
  sz' = if _search_recursive node x then sz - 1 else sz.
Proof.
  revert x sz node' sz'.
  induction node as [|k l IHl r IHr h d]; intros x sz node' sz' Hb H.
  - by injection H as <- <-.
  - pose proof Hb as (Hl & Hr & Hlk & Hkr)%bst_node. simpl in H. simpl.
    rewrite remove_item_app.
    destruct (str_ltb x k) eqn:Hx; [|destruct (str_ltb k x) eqn:Hkx].
    + apply bind_Some in H as ([l' s1] & Hrec & H).
      apply bind_Some in H as (n' & Hn & [= <- <-]).
      apply delete_rebalance_items in Hn. rewrite Hn. simpl.
      destruct (IHl _ _ _ _ Hl Hrec) as [-> ->].
      rewrite (proj2 (str_eqb_neq x k)) by (by apply str_lt_neq).
      split; [|done]. f_equal.
      rewrite remove_item_other by (apply not_eq_sym; by apply str_lt_neq).
      rewrite (remove_item_absent x (items r)); [done|].
      apply (str_lt_not_elem_of_r _ k); [done|]. by apply str_ltb_asym.
    + apply bind_Some in H as ([r' s1] & Hrec & H).
      apply bind_Some in H as (n' & Hn & [= <- <-]).
      apply delete_rebalance_items in Hn. rewrite Hn. simpl.
      destruct (IHr _ _ _ _ Hr Hrec) as [-> ->].
      rewrite (proj2 (str_eqb_neq x k))
        by (apply not_eq_sym; by apply str_lt_neq).
      split; [|done].
      rewrite remove_item_other by (by apply str_lt_neq).
      rewrite (remove_item_absent x (items l)); [done|].
      by apply (str_lt_not_elem_of_l _ k).
    + pose proof (str_ltb_connex _ _ Hx Hkx) as ->.
      rewrite str_eqb_refl, remove_item_head.
      rewrite (remove_item_absent k (items l))
        by (by apply (str_lt_not_elem_of_l _ k)).
      rewrite (remove_item_absent k (items r))
        by (by apply (str_lt_not_elem_of_r _ k)).
      destruct l as [|lk ll lr lh ld].
      { by injection H as <- <-. }
      destruct r as [|rk rl rr rh rd].
      { injection H as <- <-. by rewrite app_nil_r. }
      remember (Node rk rl rr rh rd) as r eqn:Er.
      remember (Node lk ll lr lh ld) as l eqn:El.
      apply bind_Some in H as (m & Hm & H).
      apply _get_min_node_items in Hm
        as (mk & ml & mr & mh & md & rest & -> & Hi).
      simpl in H.
      apply bind_Some in H as ([r' s1] & Hrec & H).
      apply bind_Some in H as (n' & Hn & [= <- <-]).
      apply delete_rebalance_items in Hn. rewrite Hn. simpl.
      destruct (IHr _ _ _ _ Hr Hrec) as [-> ->].
      assert (mk ∈ keys r) as Hin.
      { unfold keys. rewrite Hi. simpl. by left. }
      rewrite (proj2 (_search_recursive_elem_of r mk Hr) Hin).
      split; [|lia]. rewrite Hi, remove_item_head.
      rewrite remove_item_absent; [done|].
      unfold bst, keys in Hr. rewrite Hi in Hr. simpl in Hr.
      apply StronglySorted_cons in Hr as [Hall _].
      intros Hmk. eapply Forall_forall in Hall; [|done].
      by apply str_lt_irrefl in Hall.
Qed.

Lemma remove_item_sorted (x : pystr) (l : list (pystr * dict)) :
  StronglySorted str_lt l.*1 -> StronglySorted str_lt (remove_item x l).*1.
Proof.
  unfold remove_item. induction l as [|[a da] l IH]; [done|]. simpl.
  intros [Hall Hs]%StronglySorted_cons. rewrite filter_cons.
  destruct (decide ((a, da).1 <> x)); [|by apply IH].
  simpl. apply StronglySorted_cons. split; [|by apply IH].
  apply Forall_forall. intros y ([b db] & -> & [_ Hy]%list_elem_of_filter)%list_elem_of_fmap.
  eapply Forall_forall in Hall; [done|]. apply list_elem_of_fmap. by exists (b, db).
Qed.

Lemma StronglySorted_str_lt_NoDup (l : list pystr) :
  StronglySorted str_lt l -> NoDup l.
Proof.
  induction l as [|a l IH]; [constructor|].
  intros [Hall Hs]%StronglySorted_cons. constructor; [|by apply IH].
  intros Hin. eapply Forall_forall in Hall; [|done].
  by apply str_lt_irrefl in Hall.
Qed.

Lemma _in_order_recursive_keys node result :
  _in_order_recursive node result = result ++ keys node.
Proof.
  revert result. induction node as [|k l IHl r IHr h d]; intros result; simpl.
  - by rewrite app_nil_r.
  - rewrite IHr, IHl, keys_node. by rewrite <- !app_assoc.
Qed.

Lemma in_order_traversal_keys self :
  in_order_traversal self = keys self.(root).
Proof. unfold in_order_traversal. by rewrite _in_order_recursive_keys. Qed.

Lemma _in_order_with_words_items node result :
  _in_order_with_words node result = result ++ items node.
Proof.
  revert result. induction node as [|k l IHl r IHr h d]; intros result; simpl.
  - by rewrite app_nil_r.
  - rewrite IHr, IHl. by rewrite <- !app_assoc.
Qed.

(** *** The public operations on a well-formed tree *)

Lemma insert_wf self x :
  wf self ->
  exists self' msg,
    insert self x = Some (self', (negb (search self x), msg)) /\
    wf self' /\
    items self'.(root) = insert_item x (items self.(root)) /\
    self'.(size) = (if search self x then self.(size) else self.(size) + 1).
Proof.
  intros [Hb Hs]. unfold insert, search.
  destruct (_insert_recursive_balanced _ x self.(size) Hb)
    as (node' & sz' & Hins & Hb' & _).
  rewrite Hins. simpl.
  pose proof (_insert_recursive_items _ _ _ _ _ Hs Hins) as Hitems.
  pose proof (_insert_recursive_size _ _ _ _ _ Hins) as ->.
  assert (wf {| root := node'; size :=
            if _search_recursive self.(root) x then self.(size)
            else self.(size) + 1 |}) as Hwf.
  { split; [done|]. unfold bst, keys. simpl. rewrite Hitems.
    by apply insert_item_sorted. }
  destruct (_search_recursive self.(root) x); simpl.
  - rewrite Z.gtb_ltb, Z.ltb_irrefl. by eexists _, _.
  - rewrite Z.gtb_ltb. destruct (Z.ltb_spec self.(size) (self.(size) + 1)); [|lia].
    by eexists _, _.
Qed.

Lemma delete_wf self x :
  wf self ->
  exists self' msg,
    delete self x = Some (self', (search self x, msg)) /\
    wf self' /\
    items self'.(root) = remove_item x (items self.(root)) /\
    self'.(size) = (if search self x then self.(size) - 1 else self.(size)).
Proof.
  intros [Hb Hs]. unfold delete.
  destruct (search self x) eqn:Hfound; simpl.
  - destruct (_delete_recursive_balanced _ x self.(size) Hb)
      as (node' & sz' & Hdel & Hb' & _).
    rewrite Hdel. simpl.
    destruct (_delete_recursive_items _ _ _ _ _ Hs Hdel) as [Hitems ->].
    unfold search in Hfound. rewrite Hfound.
    destruct (Z.ltb_spec (self.(size) - 1) self.(size)); [|lia].
    eexists _, _. split; [done|]. split; [|done].
    split; [done|]. unfold bst, keys. simpl. rewrite Hitems.
    by apply remove_item_sorted.
  - eexists _, _. split; [done|]. split; [done|]. split; [|done].
    rewrite remove_item_absent; [done|].
    intros Hin. unfold search in Hfound.
    apply (_search_recursive_elem_of _ _ Hs) in Hin. congruence.
Qed.

Lemma init_wf : wf init.
Proof. split; [done|]. constructor. Qed.

Lemma step_wf self o :
  wf self -> exists self', step self o = Some self' /\ wf self'.
Proof.
  intros Hwf. destruct o as [x|x]; simpl.
  - destruct (insert_wf self x Hwf) as (self' & msg & -> & Hwf' & _). eauto.
  - destruct (delete_wf self x Hwf) as (self' & msg & -> & Hwf' & _). eauto.
Qed.

Lemma run_wf ops self :
  wf self -> exists self', run ops self = Some self' /\ wf self'.
Proof.
  revert self. induction ops as [|o ops IH]; intros self Hwf; simpl; [eauto|].
  destruct (step_wf self o Hwf) as (self1 & -> & Hwf1). simpl. by apply IH.
Qed.

Lemma balanced_all_nodes node :
  balanced node ->
  all_nodes (fun _ l r h _ =>
    Z.abs (real_height l - real_height r) <= 1 /\
    h = 1 + Z.max (real_height l) (real_height r) /\
    h = 1 + Z.max (_get_height l) (_get_height r)) node.
Proof.
  induction node as [|k l IHl r IHr h d]; [done|].
  intros (Hl & Hr & Hb & ->)%balanced_node. simpl.
  rewrite !balanced_real_height by done.
  split; [by apply IHl|]. split; [|by apply IHr]. lia.
Qed.

(** C3: after any finite sequence of [insert] and [delete] calls on the
    empty tree, no call having raised, every node has subtrees whose
    heights differ by at most one, and its [height] field is one more
    than the larger height of its children, an absent child counting
    for 0 (both for the heights counted on the tree and for the
    [height] fields of the children). *)
Theorem C3_avl_invariant (ops : list op) :
  exists self,
    run ops init = Some self /\
    all_nodes (fun _ l r h _ =>
      Z.abs (real_height l - real_height r) <= 1 /\
      h = 1 + Z.max (real_height l) (real_height r) /\
      h = 1 + Z.max (_get_height l) (_get_height r)) self.(root).
Proof.
  destruct (run_wf ops init init_wf) as (self & Hrun & Hb & _).
  exists self. split; [done|]. by apply balanced_all_nodes.
Qed.

(** C4: in every state reached from the empty tree by [insert] and
    [delete] calls, [in_order_traversal] returns keys that increase
    strictly under the comparison of strings, and no key twice. *)
Theorem C4_in_order_strictly_increasing (ops : list op) :
  exists self,
    run ops init = Some self /\
    StronglySorted str_lt (in_order_traversal self) /\
    NoDup (in_order_traversal self).
Proof.
  destruct (run_wf ops init init_wf) as (self & Hrun & _ & Hs).
  exists self. split; [done|]. rewrite in_order_traversal_keys.
  split; [done|]. by apply StronglySorted_str_lt_NoDup.
Qed.

(** *** Inserting a key the tree holds *)

Lemma insert_rebalance_balanced k l r h d x :
  balanced (Node k l r h d) ->
  insert_rebalance (Node k l r h d) x = Some (Node k l r h d).
Proof.
  intros (Hl & Hr & Hb & ->)%balanced_node. unfold insert_rebalance. simpl.
  rewrite !Z.gtb_ltb.
  destruct (Z.ltb_spec 1 (_get_height l - _get_height r)); [lia|].
  destruct (Z.ltb_spec (_get_height l - _get_height r) (-1)); [lia|].
  done.
Qed.

Lemma _insert_recursive_present node x sz :
  balanced node ->
  _search_recursive node x = true ->
  _insert_recursive node x sz = Some (node, sz).
Proof.
  induction node as [|k l IHl r IHr h d]; intros Hb Hfound; [done|].
  pose proof Hb as (Hbl & Hbr & _)%balanced_node. simpl in *.
  destruct (str_eqb x k) eqn:E.
  - apply str_eqb_eq in E as ->. by rewrite str_ltb_irrefl.
  - destruct (str_ltb x k) eqn:Hx.
    + rewrite (IHl Hbl Hfound). simpl.
      by rewrite insert_rebalance_balanced.
    + destruct (str_ltb k x) eqn:Hkx; [|done].
      rewrite (IHr Hbr Hfound). simpl.
      by rewrite insert_rebalance_balanced.
Qed.

Lemma elem_of_insert_item_self (x : pystr) (l : list (pystr * dict)) :
  x ∈ (insert_item x l).*1.
Proof. apply elem_of_insert_item. by left. Qed.

Lemma insert_then_search self x self' res :
  wf self -> insert self x = Some (self', res) -> search self' x = true.
Proof.
  intros Hwf Hins.
  destruct (insert_wf self x Hwf) as (self1 & msg & Heq & [_ Hs] & Hitems & _).
  rewrite Heq in Hins. injection Hins as <- <-.
  apply _search_recursive_elem_of; [done|].
  unfold keys. rewrite Hitems. apply elem_of_insert_item_self.
Qed.

(** C8: on a well-formed tree (every reachable tree is one)
    [insert(r)] returns, with the flag [True] exactly when [search(r)]
    was [False] and then the message [Root 'r' inserted successfully]
    and a size count one more; after it [search(r)] returns [True].
    [insert(r)] on a tree where [search(r)] is [True] (the tree after
    the first [insert(r)], or any other) returns [False] with the
    message [Root 'r' already exists] and leaves the tree, its size
    count included, as it was. *)
Theorem C8_insert_search_and_reinsert self r :
  wf self ->
  exists self',
    insert self r =
      Some (self', (negb (search self r),
                    if search self r
                    then lit "Root '" ++ r ++ lit "' already exists"
                    else lit "Root '" ++ r ++ lit "' inserted successfully")) /\
    search self' r = true /\
    get_size self' =
      (if search self r then get_size self else get_size self + 1) /\
    (search self r = true -> self' = self) /\
    insert self' r =
      Some (self', (false, lit "Root '" ++ r ++ lit "' already exists")).
Proof.
  intros Hwf. pose proof Hwf as [Hb Hs].
  destruct (_insert_recursive_balanced _ r self.(size) Hb)
    as (node' & sz' & Hins & [Hb' _]).
  pose proof (_insert_recursive_size _ _ _ _ _ Hins) as Hsz.
  assert (insert self r =
    Some ({| root := node'; size := sz' |},
          (negb (search self r),
           if search self r
           then lit "Root '" ++ r ++ lit "' already exists"
           else lit "Root '" ++ r ++ lit "' inserted successfully")))
    as Hfirst.
  { unfold insert, search. rewrite Hins. simpl. rewrite Hsz, Z.gtb_ltb.
    destruct (_search_recursive self.(root) r); simpl.
    - by rewrite Z.ltb_irrefl.
    - by destruct (Z.ltb_spec self.(size) (self.(size) + 1)); [|lia]. }
  pose proof (insert_then_search _ _ _ _ Hwf Hfirst) as Hfound.
  exists {| root := node'; size := sz' |}.
  split; [done|]. split; [done|]. split; [|split].
  - unfold get_size, search. simpl. by rewrite Hsz.
  - intros Hpresent. unfold search in Hpresent.
    rewrite (_insert_recursive_present _ _ _ Hb Hpresent) in Hins.
    injection Hins as <- <-. by destruct self.
  - unfold insert, search in *. simpl in *.
    rewrite (_insert_recursive_present _ _ _ Hb' Hfound). simpl.
    by rewrite Z.gtb_ltb, Z.ltb_irrefl.
Qed.

Lemma C8_insert_search_and_reinsert_witness :
  (exists self',
     insert tree_ktb root_3lm =
       Some (self',
             (true, lit "Root '" ++ root_3lm ++ lit "' inserted successfully")) /\
     search self' root_3lm = true /\
     get_size self' = get_size tree_ktb + 1 /\
     insert self' root_3lm =
       Some (self',
             (false, lit "Root '" ++ root_3lm ++ lit "' already exists"))) /\
  insert tree_ktb root_ktb =
    Some (tree_ktb, (false, lit "Root '" ++ root_ktb ++ lit "' already exists")).
Proof.
  assert (wf tree_ktb) as Hwf.
  { split.
    - apply balanced_node. simpl. repeat split; try done; lia.
    - repeat constructor. }
  split.
  - destruct (C8_insert_search_and_reinsert tree_ktb root_3lm Hwf)
      as (self' & Hins & Hfound & Hsize & _ & Hagain).
    exists self'. split; [exact Hins|]. split; [exact Hfound|].
    split; [exact Hsize|exact Hagain].
  - destruct (C8_insert_search_and_reinsert tree_ktb root_ktb Hwf)
      as (self' & Hins & _ & _ & Hsame & _).
    rewrite (Hsame eq_refl) in Hins. exact Hins.
Defined.

(** *** Deleting a node with two children *)

Lemma _delete_recursive_here k l r h d sz :
  _delete_recursive (Node k l r h d) k sz =
  match l, r with
  | NoNode, _ => Some (r, sz - 1)
  | _, NoNode => Some (l, sz - 1)
  | _, _ =>
      min_larger_node ← _get_min_node r;
      mk ← root_of min_larger_node;
      md ← derived_words_of min_larger_node;
      '(r', size) ← _delete_recursive r mk (sz - 1);
      node ← delete_rebalance (Node mk l r' h md);
      Some (node, size + 1)
  end.
Proof. simpl. by rewrite str_ltb_irrefl. Qed.

(** Deleting the key of a node that has two children, for the call of
    [_delete_recursive] on that node with the size count [sz] it is
    given: the in-order successor is the leftmost node of the right
    subtree, the first of its listing; the call removes the successor
    from the right subtree, puts the successor's key and its whole
    [derived_words] dictionary in the place of the deleted ones,
    rebalances, and returns the size count one less than it was. *)
Lemma _delete_recursive_two_children k l r h d sz :
  balanced (Node k l r h d) -> bst (Node k l r h d) ->
  l <> NoNode -> r <> NoNode ->
  exists mk ml mr mh md r' node' msg,
    _get_min_node r = Some (Node mk ml mr mh md) /\
    head (items r) = Some (mk, md) /\
    _delete_recursive r mk (sz - 1) = Some (r', sz - 2) /\
    items r' = tail (items r) /\
    delete_rebalance (Node mk l r' h md) = Some node' /\
    items node' = items l ++ (mk, md) :: items r' /\
    _delete_recursive (Node k l r h d) k sz = Some (node', sz - 1) /\
    delete {| root := Node k l r h d; size := sz |} k =
      Some ({| root := node'; size := sz - 1 |}, (true, msg)).
Proof.
  intros Hb Hs Hl Hr.
  pose proof Hb as (Hbl & Hbr & _)%balanced_node.
  pose proof Hs as (Hsl & Hsr & Hlk & Hkr)%bst_node.
  destruct (_delete_recursive_balanced _ k sz Hb)
    as (node' & sz' & Hdel & Hb' & _).
  pose proof Hdel as Hdel0.
  rewrite _delete_recursive_here in Hdel.
  destruct l as [|lk ll lr lh ld]; [done|].
  destruct r as [|rk rl rr rh rd]; [done|].
  remember (Node rk rl rr rh rd) as r eqn:Er.
  remember (Node lk ll lr lh ld) as l eqn:El.
  apply bind_Some in Hdel as (m & Hm & Hdel).
  pose proof Hm as Hm0.
  apply _get_min_node_items in Hm as (mk & ml & mr & mh & md & rest & -> & Hi).
  simpl in Hdel.
  apply bind_Some in Hdel as ([r' s1] & Hrec & Hdel).
  apply bind_Some in Hdel as (n' & Hn & [= -> <-]).
  destruct (_delete_recursive_items _ _ _ _ _ Hsr Hrec) as [Hr' ->].
  assert (mk ∈ keys r) as Hin.
  { unfold keys. rewrite Hi. simpl. by left. }
  rewrite (proj2 (_search_recursive_elem_of r mk Hsr) Hin) in *.
  assert (items r' = rest) as Hrest.
  { rewrite Hr', Hi, remove_item_head. apply remove_item_absent.
    unfold bst, keys in Hsr. rewrite Hi in Hsr. simpl in Hsr.
    apply StronglySorted_cons in Hsr as [Hall _].
    intros Hmk. eapply Forall_forall in Hall; [|done].
    by apply str_lt_irrefl in Hall. }
  replace (sz - 1 - 1) with (sz - 2) in * by lia.
  replace (sz - 2 + 1) with (sz - 1) in * by lia.
  eexists mk, ml, mr, mh, md, r', node', _.
  split; [done|]. split; [by rewrite Hi|]. split; [done|].
  split; [by rewrite Hi|]. split; [done|].
  split; [by rewrite (delete_rebalance_items _ _ Hn)|]. split; [done|].
  unfold delete, search. cbn [root size].
  assert (_search_recursive (Node k l r h d) k = true) as ->.
  { simpl. by rewrite str_eqb_refl. }
  cbn [negb]. rewrite Hdel0. simpl.
  destruct (Z.ltb_spec (sz - 1) sz); [done|lia].
Qed.

Ltac concrete_balanced :=
  repeat (apply balanced_node; simpl; repeat split; try done; try lia).

(** *** Renaming a key *)

Lemma _get_node_set_node f node x :
  derived_words_of (_get_node (_set_node f node x) x) =
  f <$> derived_words_of (_get_node node x).
Proof.
  induction node as [|k l IHl r IHr h d]; [done|]. simpl.
  destruct (str_eqb x k) eqn:E; [|destruct (str_ltb x k) eqn:Hx];
    simpl; rewrite ?E, ?Hx; done.
Qed.

Lemma _search_recursive_get_node node x :
  _search_recursive node x = true <->
  is_Some (derived_words_of (_get_node node x)).
Proof.
  induction node as [|k l IHl r IHr h d]; simpl.
  - split; [done|]. by intros [? ?].
  - destruct (str_eqb x k); [|by destruct (str_ltb x k)].
    simpl. split; [eauto|done].
Qed.

(** C6: on a well-formed tree [update(old, new)] returns, and it
    returns [False] exactly when [new] is not three characters long, or
    [old] is absent, or [new] is present and differs from [old], or
    [old] equals [new]; when it returns [True], the dictionary that
    [get_derived_words] gave for [old] before the call is the one it
    gives for [new] after it. *)
Theorem C6_update_renames_key self old new :
  wf self ->
  exists self' success msg,
    update self old new = Some (self', (success, msg)) /\
    (success = false <->
       length new <> 3%nat \/ search self old = false \/
       (search self new = true /\ old <> new) \/ old = new) /\
    (success = true ->
     exists d,
       get_derived_words self old = Some d /\
       get_derived_words self' new = Some d).
Proof.
  intros Hwf. unfold update.
  destruct (Nat.eqb_spec (length new) 3) as [Hlen|Hlen]; simpl.
  2:{ eexists _, _, _. split; [done|]. split; [tauto|done]. }
  destruct (search self old) eqn:Hold; simpl.
  2:{ eexists _, _, _. split; [done|]. split; [tauto|done]. }
  destruct (str_eqb old new) eqn:E; simpl.
  { apply str_eqb_eq in E. rewrite andb_false_r.
    eexists _, _, _. split; [done|]. split; [tauto|done]. }
  apply str_eqb_neq in E. rewrite andb_true_r.
  destruct (search self new) eqn:Hnew.
  { eexists _, _, _. split; [done|]. split; [tauto|done]. }
  destruct (delete_wf self old Hwf) as (self1 & msg1 & -> & Hwf1 & _).
  rewrite Hold. simpl.
  destruct (insert_wf self1 new Hwf1) as (self2 & msg2 & Hins & Hwf2 & _).
  rewrite Hins. simpl.
  eexists _, true, _. split; [done|]. split.
  { split; [done|]. intros [?|[?|[[? _]|?]]]; congruence. }
  intros _.
  pose proof (proj1 (_search_recursive_get_node _ _) Hold) as [d Hd].
  exists d. unfold get_derived_words, get_node in *. split; [done|]. simpl.
  rewrite _get_node_set_node.
  pose proof (insert_then_search _ _ _ _ Hwf1 Hins) as Hfound.
  apply _search_recursive_get_node in Hfound as [d2 ->]. simpl.
  destruct (_get_node self.(root) old); simpl in *; congruence.
Qed.

Lemma C6_update_renames_key_witness :
  exists self' success msg,
    update {| root := node_ktb; size := 3 |} root_nsr (lit "abc")
      = Some (self', (success, msg)) /\
    (success = false <->
       length (lit "abc") <> 3%nat \/
       search {| root := node_ktb; size := 3 |} root_nsr = false \/
       (search {| root := node_ktb; size := 3 |} (lit "abc") = true /\
        root_nsr <> lit "abc") \/
       root_nsr = lit "abc") /\
    (success = true ->
     exists d,
       get_derived_words {| root := node_ktb; size := 3 |} root_nsr = Some d /\
       get_derived_words self' (lit "abc") = Some d).
Proof.
  apply (C6_update_renames_key {| root := node_ktb; size := 3 |}
           root_nsr (lit "abc")).
  split.
  - simpl. concrete_balanced.
  - repeat constructor.
Defined.

(** Three ascending insertions rotate once: the middle key ends at the
    top, the size count is 3. *)
Example insert_ascending_rotates :
  run [Insert (lit "a"); Insert (lit "b"); Insert (lit "c")] init =
  Some {| root := Node (lit "b") (new_node (lit "a")) (new_node (lit "c")) 2 ∅;
          size := 3 |}.
Proof. reflexivity. Qed.

End avl_facts.


(** ** The pattern index *)

Module hashtable_facts.
Import hashtable hashtable_spec.

Lemma getitem_lookup {A} (l : list A) (i : nat) :
  (i < length l)%nat -> getitem l (Z.of_nat i) = l !! i.
Proof.
  intros Hi. unfold getitem.
  destruct (Z.leb_spec 0 (Z.of_nat i)); [|lia].
  destruct (Z.ltb_spec (Z.of_nat i) (Z.of_nat (length l))); [|lia].
  simpl. by rewrite Nat2Z.id.
Qed.

Lemma setitem_insert {A} (l : list A) (i : nat) x :
  (i < length l)%nat -> setitem l (Z.of_nat i) x = Some (<[i := x]> l).
Proof.
  intros Hi. unfold setitem.
  destruct (Z.leb_spec 0 (Z.of_nat i)); [|lia].
  destruct (Z.ltb_spec (Z.of_nat i) (Z.of_nat (length l))); [|lia].
  simpl. by rewrite Nat2Z.id.
Qed.

Lemma hash_loop_Some self t h :
  self.(mod_) <> 0 -> exists h', hash_loop self t h = Some h'.
Proof.
  intros Hmod. revert h. induction t as [|c t IH]; intros h; simpl; [eauto|].
  unfold pymod. destruct (Z.eqb_spec self.(mod_) 0); [done|]. simpl. apply IH.
Qed.

(** On a well-formed table the hash of a template is the index of one of
    the buckets. *)
Lemma _polynomial_hash_bucket self t :
  table_wf self ->
  exists (i : nat) chain,
    _polynomial_hash self t = Some (Z.of_nat i) /\
    self.(table) !! i = Some chain /\
    (i < length self.(table))%nat.
Proof.
  intros (Hsize & Hmod & Hlen & _). unfold _polynomial_hash.
  destruct (hash_loop_Some self t 0 Hmod) as [h ->]. simpl.
  unfold pymod. destruct (Z.eqb_spec self.(size) 0); [lia|].
  pose proof (Z.mod_pos_bound h self.(size) Hsize) as Hb.
  assert (Z.to_nat (h mod self.(size)) < length self.(table))%nat as Hi by lia.
  destruct (lookup_lt_is_Some_2 _ _ Hi) as [chain Hchain].
  exists (Z.to_nat (h mod self.(size))), chain.
  rewrite Z2Nat.id by lia. done.
Qed.

(** The hash depends on the table through its three parameters only. *)
Lemma _polynomial_hash_params self self' t :
  self'.(size) = self.(size) -> self'.(prime) = self.(prime) ->
  self'.(mod_) = self.(mod_) ->
  _polynomial_hash self' t = _polynomial_hash self t.
Proof.
  intros Hs Hp Hm. unfold _polynomial_hash. rewrite Hs. f_equal.
  generalize 0. induction t as [|c t IH]; intros h; simpl; [done|].
  rewrite Hp, Hm. destruct (pymod _ _); simpl; [apply IH|done].
Qed.

Lemma chain_exists_elem_of chain t :
  chain_exists chain t = true <-> t ∈ templates chain.
Proof.
  induction chain as [|e chain IH]; simpl.
  - split; [done|]. by intros ?%elem_of_nil.
  - unfold templates. simpl. rewrite elem_of_cons.
    destruct (str_eqb (template e) t) eqn:E.
    + apply str_eqb_eq in E. split; [by left|done].
    + apply str_eqb_neq in E. rewrite IH. split; [by right|].
      intros [?|?]; [congruence|done].
Qed.

Lemma chain_exists_false chain t :
  chain_exists chain t = false <-> t ∉ templates chain.
Proof.
  rewrite <- chain_exists_elem_of. by destruct (chain_exists chain t).
Qed.

Lemma chain_unlink_None chain t :
  chain_unlink chain t = None <-> chain_exists chain t = false.
Proof.
  induction chain as [|e chain IH]; simpl; [done|].
  destruct (str_eqb (template e) t); [done|].
  rewrite <- IH. by destruct (chain_unlink chain t).
Qed.

Lemma chain_unlink_Some chain t chain' :
  chain_unlink chain t = Some chain' ->
  templates chain ≡ₚ t :: templates chain'.
Proof.
  revert chain'. induction chain as [|e chain IH]; intros chain'; simpl; [done|].
  destruct (str_eqb (template e) t) eqn:E.
  - apply str_eqb_eq in E as <-. by intros [= <-].
  - destruct (chain_unlink chain t) as [c1|]; [|done]. intros [= <-].
    unfold templates in *. simpl. rewrite (IH c1 eq_refl).
    apply Permutation_swap.
Qed.

Lemma with_bucket_hash self i chain c t :
  _polynomial_hash (with_bucket self i chain c) t = _polynomial_hash self t.
Proof. by apply _polynomial_hash_params. Qed.

Lemma with_bucket_wf self i chain c :
  table_wf self ->
  (forall t, t ∈ templates chain ->
             _polynomial_hash self t = Some (Z.of_nat i)) ->
  NoDup (templates chain) ->
  table_wf (with_bucket self i chain c).
Proof.
  intros (Hsize & Hmod & Hlen & Hplace & Hnodup) Hin Hnd.
  split; [done|]. split; [done|]. simpl. split; [by rewrite length_insert|].
  split.
  - intros j chain' t Hj Ht. rewrite with_bucket_hash.
    destruct (decide (i = j)) as [<-|Hne].
    + apply list_lookup_insert_Some in Hj as [(_ & <- & _)|[? _]]; [|done].
      by apply Hin.
    + rewrite list_lookup_insert_ne in Hj by done. by eapply Hplace.
  - intros j chain' Hj.
    destruct (decide (i = j)) as [<-|Hne].
    + apply list_lookup_insert_Some in Hj as [(_ & <- & _)|[? _]]; done.
    + rewrite list_lookup_insert_ne in Hj by done. by eapply Hnodup.
Qed.

Section operations.
Context (self : HashTable) (t : pystr) (i : nat) (chain : list HashEntry).
Hypothesis Hwf : table_wf self.
Hypothesis Hhash : _polynomial_hash self t = Some (Z.of_nat i).
Hypothesis Hchain : self.(table) !! i = Some chain.

Lemma bucket_in_range : (i < length self.(table))%nat.
Proof. by eapply lookup_lt_Some. Qed.

Lemma exists_bucket : exists_ self t = Some (chain_exists chain t).
Proof.
  unfold exists_. rewrite Hhash. simpl.
  rewrite getitem_lookup by apply bucket_in_range. by rewrite Hchain.
Qed.

Lemma put_bucket :
  put self t =
  if chain_exists chain t
  then Some (self, (false, lit "Pattern '" ++ t ++ lit "' already exists"))
  else Some (with_bucket self i
               ({| template := t; hash_value := Z.of_nat i |} :: chain)
               (self.(count) + 1),
             (true, lit "Pattern '" ++ t ++ lit "' inserted successfully")).
Proof.
  unfold put. rewrite exists_bucket. simpl.
  destruct (chain_exists chain t); [done|].
  unfold _compute_full_hash. rewrite Hhash. simpl.
  rewrite getitem_lookup by apply bucket_in_range. rewrite Hchain. simpl.
  by rewrite setitem_insert by apply bucket_in_range.
Qed.

Lemma delete_bucket :
  delete self t =
  match chain_unlink chain t with
  | Some chain' =>
      Some (with_bucket self i chain' (self.(count) - 1),
            (true, lit "Pattern '" ++ t ++ lit "' deleted successfully"))
  | None => Some (self, (false, lit "Pattern '" ++ t ++ lit "' not found"))
  end.
Proof.
  unfold delete. rewrite Hhash. simpl.
  rewrite getitem_lookup by apply bucket_in_range. rewrite Hchain. simpl.
  destruct (chain_unlink chain t); [|done].
  by rewrite setitem_insert by apply bucket_in_range.
Qed.

End operations.

Lemma table_put_wf self t :
  table_wf self -> exists self' res, put self t = Some (self', res) /\ table_wf self'.
Proof.
  intros Hwf.
  destruct (_polynomial_hash_bucket self t Hwf) as (i & chain & Hh & Hc & _).
  rewrite (put_bucket self t i chain Hh Hc).
  destruct (chain_exists chain t) eqn:E; [eauto|].
  eexists _, _. split; [done|]. pose proof Hwf as (_ & _ & _ & Hplace & Hnd).
  apply with_bucket_wf; [done|..].
  - intros x [->|Hx]%elem_of_cons; [done|]. by eapply Hplace.
  - unfold templates. simpl. constructor; [|by eapply Hnd].
    by apply chain_exists_false.
Qed.

Lemma table_delete_wf self t :
  table_wf self -> exists self' res, delete self t = Some (self', res) /\ table_wf self'.
Proof.
  intros Hwf.
  destruct (_polynomial_hash_bucket self t Hwf) as (i & chain & Hh & Hc & _).
  rewrite (delete_bucket self t i chain Hh Hc).
  destruct (chain_unlink chain t) as [chain'|] eqn:E; [|eauto].
  eexists _, _. split; [done|]. pose proof Hwf as (_ & _ & _ & Hplace & Hnd).
  apply chain_unlink_Some in E as Hperm.
  pose proof (Hnd i chain Hc) as Hnd1. rewrite Hperm in Hnd1.
  apply NoDup_cons in Hnd1 as [_ Hnd1].
  apply with_bucket_wf; [done|..|done].
  intros x Hx. eapply Hplace; [done|]. rewrite Hperm. by right.
Qed.

Lemma exists_Some self t : table_wf self -> is_Some (exists_ self t).
Proof.
  intros Hwf.
  destruct (_polynomial_hash_bucket self t Hwf) as (i & chain & Hh & Hc & _).
  rewrite (exists_bucket self t i chain Hh Hc). eauto.
Qed.

Lemma table_update_wf self t t' :
  table_wf self -> exists self' res, update self t t' = Some (self', res) /\ table_wf self'.
Proof.
  intros Hwf. unfold update.
  destruct (exists_Some self t Hwf) as [e ->]. simpl.
  destruct e; simpl; [|eauto].
  destruct (exists_Some self t' Hwf) as [e' ->].
  destruct (negb (str_eqb t t')); simpl; [destruct e'; simpl; [eauto|]|].
  all: destruct (table_delete_wf self t Hwf) as (self1 & [b1 m1] & -> & Hwf1); simpl.
  all: destruct b1; [|eauto].
  all: destruct (table_put_wf self1 t' Hwf1) as (self2 & res2 & -> & Hwf2); simpl.
  all: eauto.
Qed.

Lemma table_init_wf n : 0 < n -> table_wf (init n).
Proof.
  intros Hn. split; [done|]. split; [done|]. simpl.
  split; [by rewrite length_replicate|].
  split.
  - intros i chain t [-> _]%lookup_replicate. by intros ?%elem_of_nil.
  - intros i chain [-> _]%lookup_replicate. constructor.
Qed.

Lemma table_step_wf self o :
  table_wf self -> exists self', table_step self o = Some self' /\ table_wf self'.
Proof.
  intros Hwf. destruct o as [t|t|t t']; simpl.
  - destruct (table_put_wf self t Hwf) as (self' & res & -> & Hwf'). eauto.
  - destruct (table_delete_wf self t Hwf) as (self' & res & -> & Hwf'). eauto.
  - destruct (table_update_wf self t t' Hwf) as (self' & res & -> & Hwf'). eauto.
Qed.

Lemma table_run_wf ops self :
  table_wf self -> exists self', table_run ops self = Some self' /\ table_wf self'.
Proof.
  revert self. induction ops as [|o ops IH]; intros self Hwf; simpl; [eauto|].
  destruct (table_step_wf self o Hwf) as (self1 & -> & Hwf1). simpl. by apply IH.
Qed.

Lemma collect_patterns_middle self (i : nat) chain :
  self.(table) !! i = Some chain ->
  collect_patterns self =
    flat_map (fun bucket => map template bucket) (take i self.(table))
    ++ templates chain
    ++ flat_map (fun bucket => map template bucket) (drop (S i) self.(table)).
Proof.
  intros Hc. unfold collect_patterns.
  rewrite <- (take_drop_middle _ _ _ Hc) at 1.
  by rewrite flat_map_app.
Qed.

Lemma collect_patterns_with_bucket self (i : nat) chain chain' c :
  self.(table) !! i = Some chain ->
  templates chain' ≡ₚ templates chain ->
  collect_patterns (with_bucket self i chain' c) ≡ₚ collect_patterns self.
Proof.
  intros Hc Hperm.
  assert (i < length self.(table))%nat as Hi by by eapply lookup_lt_Some.
  rewrite (collect_patterns_middle self i chain Hc).
  rewrite (collect_patterns_middle (with_bucket self i chain' c) i chain')
    by (by apply list_lookup_insert_eq).
  simpl. rewrite take_insert_ge, drop_insert_lt by lia. by rewrite Hperm.
Qed.

(** Lists with the same elements sort to the same list. *)
Lemma merge_sort_Permutation_eq (l1 l2 : list pystr) :
  l1 ≡ₚ l2 -> merge_sort str_le l1 = merge_sort str_le l2.
Proof.
  intros Hperm. apply (StronglySorted_unique str_le).
  - apply StronglySorted_merge_sort; apply _.
  - apply StronglySorted_merge_sort; apply _.
  - by rewrite !merge_sort_Permutation.
Qed.

(** On a well-formed table no template is stored twice. *)
Lemma NoDup_buckets (g : pystr -> option Z) (tbl : list (list HashEntry))
  (off : nat) :
  (forall (i : nat) chain t,
     tbl !! i = Some chain -> t ∈ templates chain ->
     g t = Some (Z.of_nat (off + i))) ->
  (forall (i : nat) chain, tbl !! i = Some chain -> NoDup (templates chain)) ->
  NoDup (flat_map (fun bucket => map template bucket) tbl).
Proof.
  revert off. induction tbl as [|c tbl IH]; intros off Hplace Hnd; simpl.
  - constructor.
  - apply NoDup_app. split; [by apply (Hnd 0%nat)|]. split.
    + intros t Ht Hin. apply list_elem_of_In, in_flat_map in Hin
        as (c' & Hc' & Hin).
      apply list_elem_of_In, list_elem_of_lookup in Hc' as [j Hj].
      apply list_elem_of_In in Hin.
      pose proof (Hplace 0%nat c t eq_refl Ht) as H0.
      pose proof (Hplace (S j) c' t Hj Hin) as H1.
      rewrite H0 in H1. injection H1. lia.
    + apply (IH (S off)).
      * intros i chain t Hi Ht. rewrite (Hplace (S i) chain t Hi Ht).
        do 2 f_equal. lia.
      * intros i chain Hi. by apply (Hnd (S i)).
Qed.

Lemma table_wf_NoDup self : table_wf self -> NoDup (collect_patterns self).
Proof.
  intros (_ & _ & _ & Hplace & Hnd).
  by apply (NoDup_buckets (_polynomial_hash self) _ 0).
Qed.

Lemma exists_elem_of self t :
  table_wf self -> exists_ self t = Some true <-> t ∈ collect_patterns self.
Proof.
  intros Hwf.
  destruct (_polynomial_hash_bucket self t Hwf) as (i & chain & Hh & Hc & _).
  rewrite (exists_bucket self t i chain Hh Hc).
  pose proof Hwf as (_ & _ & _ & Hplace & _). split.
  - intros [= Ht%chain_exists_elem_of].
    rewrite (collect_patterns_middle self i chain Hc).
    rewrite !elem_of_app. tauto.
  - intros Hin. f_equal. apply chain_exists_elem_of.
    apply list_elem_of_In, in_flat_map in Hin as (c' & Hc' & Hin).
    apply list_elem_of_In, list_elem_of_lookup in Hc' as [j Hj].
    apply list_elem_of_In in Hin.
    pose proof (Hplace j c' t Hj Hin) as Hh'. rewrite Hh in Hh'.
    injection Hh' as Hij. apply Nat2Z.inj in Hij as ->.
    rewrite Hc in Hj. by injection Hj as ->.
Qed.

Lemma exists_bool self t b :
  table_wf self -> (b = true <-> t ∈ collect_patterns self) ->
  exists_ self t = Some b.
Proof.
  intros Hwf Hb. destruct (exists_Some self t Hwf) as [b' Hb'].
  rewrite Hb'. f_equal.
  pose proof (exists_elem_of self t Hwf) as Hiff. rewrite Hb' in Hiff.
  destruct b, b'; try done.
  - destruct Hiff as [_ Hiff]. by specialize (Hiff (proj1 Hb eq_refl)).
  - destruct Hiff as [Hiff _]. specialize (Hiff eq_refl).
    by apply Hb in Hiff.
Qed.

(** [update(t, t)] on a stored template unlinks its entry and links a
    new one at the head of the same bucket. *)
Lemma update_same_bucket self t (i : nat) chain :
  table_wf self ->
  _polynomial_hash self t = Some (Z.of_nat i) ->
  self.(table) !! i = Some chain ->
  chain_exists chain t = true ->
  exists chain',
    templates chain ≡ₚ t :: templates chain' /\
    update self t t =
      Some (with_bucket self i
              ({| template := t; hash_value := Z.of_nat i |} :: chain')
              (self.(count) - 1 + 1),
            (true, lit "Pattern updated from '" ++ t ++ lit "' to '" ++ t
                   ++ lit "'")).
Proof.
  intros Hwf Hh Hc He. unfold update.
  rewrite (exists_bucket self t i chain Hh Hc), He. simpl.
  rewrite str_eqb_refl. simpl.
  rewrite (delete_bucket self t i chain Hh Hc).
  destruct (chain_unlink chain t) as [chain'|] eqn:Hu.
  2:{ apply chain_unlink_None in Hu. congruence. }
  simpl. pose proof (chain_unlink_Some _ _ _ Hu) as Hperm.
  exists chain'. split; [done|].
  assert (i < length self.(table))%nat as Hi by by eapply lookup_lt_Some.
  rewrite (put_bucket (with_bucket self i chain' (self.(count) - 1)) t i chain').
  2:{ by rewrite with_bucket_hash. }
  2:{ simpl. by apply list_lookup_insert_eq. }
  assert (chain_exists chain' t = false) as ->.
  { apply chain_exists_false.
    pose proof Hwf as (_ & _ & _ & _ & Hnd). specialize (Hnd i chain Hc).
    rewrite Hperm in Hnd. by apply NoDup_cons in Hnd as [? _]. }
  simpl. unfold with_bucket. simpl. by rewrite list_insert_insert_eq.
Qed.

(** C10: in a pattern index built from an empty table with at least one
    bucket by [put], [delete] and [update] calls, [update(t, t)] for a
    stored template [t] succeeds; afterwards the entry count is what it
    was, the stored templates are the same ([exists] answers alike for
    every template, [get_all_patterns] returns the same list), and [t]
    is stored, no template being stored twice. *)
Theorem C10_update_same_template n (ops : list table_op) self t :
  0 < n ->
  table_run ops (init n) = Some self ->
  exists_ self t = Some true ->
  exists self' msg,
    update self t t = Some (self', (true, msg)) /\
    get_size self' = get_size self /\
    get_all_patterns self' = get_all_patterns self /\
    (forall x, exists_ self' x = exists_ self x) /\
    exists_ self' t = Some true /\
    NoDup (collect_patterns self').
Proof.
  intros Hn Hrun Hex.
  destruct (table_run_wf ops (init n) (table_init_wf n Hn))
    as (self0 & Hrun0 & Hwf).
  rewrite Hrun in Hrun0. injection Hrun0 as <-.
  destruct (_polynomial_hash_bucket self t Hwf) as (i & chain & Hh & Hc & _).
  rewrite (exists_bucket self t i chain Hh Hc) in Hex. injection Hex as Hex.
  destruct (update_same_bucket self t i chain Hwf Hh Hc Hex)
    as (chain' & Hperm & Hupd).
  destruct (table_update_wf self t t Hwf) as (self' & res & Hupd' & Hwf').
  rewrite Hupd in Hupd'. injection Hupd' as <- <-.
  set (self' := with_bucket self i _ _) in *.
  assert (collect_patterns self' ≡ₚ collect_patterns self) as Hcollect.
  { apply (collect_patterns_with_bucket self i chain); [done|].
    unfold templates in *. simpl. by rewrite Hperm. }
  eexists self', _. split; [done|].
  split; [unfold get_size; simpl; lia|].
  split; [by apply merge_sort_Permutation_eq|].
  assert (forall x, exists_ self' x = exists_ self x) as Hsame.
  { intros x. destruct (exists_Some self x Hwf) as [b Hb]. rewrite Hb.
    apply exists_bool; [done|]. rewrite Hcollect.
    rewrite <- (exists_elem_of self x Hwf), Hb.
    split; [by intros ->|by intros [= ->]]. }
  split; [done|]. split; [|by apply table_wf_NoDup].
  rewrite Hsame, (exists_bucket self t i chain Hh Hc). by rewrite Hex.
Qed.

Lemma C10_update_same_template_witness :
  exists self' msg,
    update (with_bucket default 10
              [{| template := pattern_faa3il; hash_value := 10 |}] 1)
      pattern_faa3il pattern_faa3il = Some (self', (true, msg)) /\
    get_size self' = 1 /\
    get_all_patterns self' = [pattern_faa3il] /\
    (forall x,
       exists_ self' x =
       exists_ (with_bucket default 10
                  [{| template := pattern_faa3il; hash_value := 10 |}] 1) x) /\
    exists_ self' pattern_faa3il = Some true /\
    NoDup (collect_patterns self').
Proof.
  apply (C10_update_same_template 101 [Put pattern_faa3il]
           (with_bucket default 10
              [{| template := pattern_faa3il; hash_value := 10 |}] 1)
           pattern_faa3il).
  - lia.
  - reflexivity.
  - reflexivity.
Defined.

(** What [put] stores as [hash_value] is the index of the bucket:
    [_compute_full_hash] is [_polynomial_hash], reduction modulo the
    table size included. *)
Lemma put_stores_bucket_index self t self' msg :
  table_wf self ->
  put self t = Some (self', (true, msg)) ->
  exists (i : nat) chain,
    _polynomial_hash self t = Some (Z.of_nat i) /\
    self'.(table) !! i =
      Some ({| template := t; hash_value := Z.of_nat i |} :: chain).
Proof.
  intros Hwf Hput.
  destruct (_polynomial_hash_bucket self t Hwf) as (i & chain & Hh & Hc & Hi).
  rewrite (put_bucket self t i chain Hh Hc) in Hput.
  destruct (chain_exists chain t); [done|]. injection Hput as <- _.
  exists i, chain. split; [done|]. simpl. by apply list_lookup_insert_eq.
Qed.

(** C9, evaluated on the code: [put] of the template
    fa-fatha-alif-ayn-kasra-lam into the default table of 101 buckets
    stores the entry in bucket 10 with [hash_value] 10, the bucket index,
    while the weighted sum modulo 1 000 000 007 of that template is
    374 336 714. *)
Theorem C9_put_stores_reduced_hash :
  exists self' msg,
    put default pattern_faa3il = Some (self', (true, msg)) /\
    _polynomial_hash default pattern_faa3il = Some 10 /\
    getitem self'.(table) 10 =
      Some [{| template := pattern_faa3il; hash_value := 10 |}] /\
    hash_loop default pattern_faa3il 0 = Some 374336714.
Proof. eexists _, _. repeat split; reflexivity. Qed.

End hashtable_facts.


(** ** Roots of the wrong length *)

Module root_length_facts.
Import MorphologicalEngine morphology_facts avl avl_spec avl_facts.

(** C2, as the specification states it, fails for [insert]: the
    two-character root [ab] is inserted into the empty tree with a
    [True] flag. *)
Lemma C2_insert_accepts_short_root :
  length (lit "ab") <> 3%nat /\
  exists self',
    insert init (lit "ab") =
      Some (self', (true, lit "Root 'ab' inserted successfully")) /\
    search self' (lit "ab") = true.
Proof. split; [done|]. eexists. split; reflexivity. Qed.

(** C2 (amended): for every root that is not three characters long,
    [update] with that root as the new key returns [False] with the
    message [New root must be exactly 3 characters] and leaves the tree
    as it is, and [apply_root_to_pattern] returns the empty string for
    every pattern.  [insert] does not look at the length: on a
    well-formed tree that does not hold the root it returns [True] and
    the root is in the tree afterwards, the size count one more. *)
Theorem C2_root_of_wrong_length root :
  length root <> 3%nat ->
  (forall self old_root,
     update self old_root root =
       Some (self, (false, lit "New root must be exactly 3 characters"))) /\
  (forall pattern, apply_root_to_pattern root pattern = []) /\
  (forall self,
     wf self -> search self root = false ->
     exists self' msg,
       insert self root = Some (self', (true, msg)) /\
       search self' root = true /\
       get_size self' = get_size self + 1).
Proof.
  intros Hlen. split; [|split].
  - intros self old_root. unfold update.
    by destruct (Nat.eqb_spec (length root) 3).
  - intros pattern. by apply apply_root_to_pattern_bad_length.
  - intros self Hwf Habsent.
    destruct (insert_wf self root Hwf) as (self' & msg & Hins & _ & _ & Hsize).
    rewrite Habsent in *. simpl in Hins. exists self', msg.
    split; [done|]. split; [|done]. by eapply insert_then_search.
Qed.

Lemma C2_root_of_wrong_length_witness :
  (forall self old_root,
     update self old_root (lit "ab") =
       Some (self, (false, lit "New root must be exactly 3 characters"))) /\
  (forall pattern, apply_root_to_pattern (lit "ab") pattern = []) /\
  (forall self,
     wf self -> search self (lit "ab") = false ->
     exists self' msg,
       insert self (lit "ab") = Some (self', (true, msg)) /\
       search self' (lit "ab") = true /\
       get_size self' = get_size self + 1).
Proof. apply (C2_root_of_wrong_length (lit "ab")). simpl. lia. Defined.

End root_length_facts.


(** ** The root index: effects of the operations *)

Module avl_more_facts.
Import avl avl_spec avl_facts avl_more.

#[local] Arguments insert_rebalance : simpl never.
#[local] Arguments delete_rebalance : simpl never.
#[local] Arguments balanced : simpl never.

(** *** Looking a key up in the listing *)

Lemma lookup_item_None (x : pystr) (l : list (pystr * dict)) :
  lookup_item x l = None <-> x ∉ l.*1.
Proof.
  induction l as [|[k d] l IH]; simpl.
  - split; [intros _; apply not_elem_of_nil|done].
  - rewrite not_elem_of_cons. case_bool_decide as E.
    + split; [done|]. intros [? _]. congruence.
    + rewrite IH. split; [|tauto]. intros ?. split; [congruence|done].
Qed.

Lemma lookup_item_app (x : pystr) (l1 l2 : list (pystr * dict)) :
  lookup_item x (l1 ++ l2) =
  match lookup_item x l1 with
  | Some d => Some d
  | None => lookup_item x l2
  end.
Proof.
  induction l1 as [|[k d] l1 IH]; simpl; [done|]. by case_bool_decide.
Qed.

Lemma get_derived_words_lookup_item node x :
  bst node ->
  derived_words_of (_get_node node x) = lookup_item x (items node).
Proof.
  induction node as [|k l IHl r IHr h d]; intros Hb; [done|].
  apply bst_node in Hb as (Hl & Hr & Hlk & Hkr). simpl.
  rewrite lookup_item_app. simpl.
  destruct (str_eqb x k) eqn:E.
  - apply str_eqb_eq in E as ->.
    assert (lookup_item k (items l) = None) as ->.
    { apply lookup_item_None. intros Hin%Hlk. by apply str_lt_irrefl in Hin. }
    by rewrite bool_decide_eq_true_2.
  - apply str_eqb_neq in E.
    rewrite bool_decide_eq_false_2 by congruence.
    destruct (str_ltb x k) eqn:Hx.
    + rewrite (IHl Hl).
      assert (lookup_item x (items r) = None) as ->; [|by destruct lookup_item].
      apply lookup_item_None. intros Hin%Hkr. red in Hin.
      by rewrite (str_ltb_asym _ _ Hin) in Hx.
    + rewrite (IHr Hr).
      assert (lookup_item x (items l) = None) as ->; [|done].
      apply lookup_item_None. intros Hin%Hlk. red in Hin. congruence.
Qed.

Lemma lookup_item_is_Some (x : pystr) (l : list (pystr * dict)) :
  is_Some (lookup_item x l) <-> x ∈ l.*1.
Proof.
  rewrite <- not_eq_None_Some, lookup_item_None.
  split; [apply dec_stable|]. by intros ? ?.
Qed.

Lemma lookup_item_elem_of (x : pystr) (d : dict) (l : list (pystr * dict)) :
  NoDup l.*1 -> (x, d) ∈ l -> lookup_item x l = Some d.
Proof.
  induction l as [|[k d'] l IH]; simpl; [by intros _ ?%elem_of_nil|].
  intros [Hk Hnd]%NoDup_cons [[= -> ->]|Hin]%elem_of_cons.
  - by rewrite bool_decide_eq_true_2.
  - case_bool_decide as E; [|by apply IH]. subst k. exfalso. apply Hk.
    apply list_elem_of_fmap. by exists (x, d).
Qed.

Lemma lookup_item_insert_item (x r : pystr) (l : list (pystr * dict)) :
  StronglySorted str_lt l.*1 ->
  lookup_item x (insert_item r l) =
  match lookup_item x l with
  | Some d => Some d
  | None => if bool_decide (r = x) then Some ∅ else None
  end.
Proof.
  induction l as [|[k d] l IH]; simpl; [done|].
  intros [Hall Hs]%StronglySorted_cons.
  destruct (str_ltb r k) eqn:Hr; [|destruct (str_ltb k r) eqn:Hk]; simpl.
  - destruct (decide (r = x)) as [->|Hne].
    + rewrite bool_decide_eq_true_2 by done.
      rewrite bool_decide_eq_false_2
        by (intros ->; by rewrite str_ltb_irrefl in Hr).
      assert (lookup_item x l = None) as ->; [|done].
      apply lookup_item_None. intros Hin.
      eapply Forall_forall in Hall; [|done]. red in Hall.
      pose proof (str_ltb_trans _ _ _ Hr Hall) as Hrr.
      by rewrite str_ltb_irrefl in Hrr.
    + rewrite (bool_decide_eq_false_2 (r = x)) by done.
      by destruct (bool_decide (k = x)), (lookup_item x l).
  - destruct (bool_decide (k = x)); [done|]. by apply IH.
  - pose proof (str_ltb_connex _ _ Hr Hk) as <-.
    destruct (decide (r = x)) as [->|Hne].
    + by rewrite !bool_decide_eq_true_2.
    + rewrite !bool_decide_eq_false_2 by done. by destruct (lookup_item x l).
Qed.

Lemma lookup_item_remove_item (x r : pystr) (l : list (pystr * dict)) :
  lookup_item x (remove_item r l) =
  if bool_decide (r = x) then None else lookup_item x l.
Proof.
  unfold remove_item. induction l as [|[k d] l IH]; simpl.
  - by case_bool_decide.
  - rewrite filter_cons. simpl. destruct (decide (k <> r)) as [Hne|Heq]; simpl.
    + rewrite IH. repeat case_bool_decide; congruence.
    + apply dec_stable in Heq as ->. rewrite IH.
      repeat case_bool_decide; congruence.
Qed.

(** *** What the API shows of the listing *)

Lemma get_derived_words_items self x :
  wf self -> get_derived_words self x = lookup_item x (items self.(root)).
Proof. intros [_ Hs]. by apply get_derived_words_lookup_item. Qed.

Lemma search_get_derived_words self x :
  search self x = true <-> is_Some (get_derived_words self x).
Proof. apply _search_recursive_get_node. Qed.

Lemma search_bool self x :
  search self x = bool_decide (is_Some (get_derived_words self x)).
Proof.
  pose proof (search_get_derived_words self x) as H.
  destruct (search self x); symmetry.
  - apply bool_decide_eq_true_2. by apply H.
  - apply bool_decide_eq_false_2. intros ?%H. done.
Qed.

Lemma get_all_roots_with_words_items self :
  get_all_roots_with_words self = items self.(root).
Proof. unfold get_all_roots_with_words. by rewrite _in_order_with_words_items. Qed.

(** *** Assigning to the dictionary of a node *)

Lemma _set_node_height f node x :
  _get_height (_set_node f node x) = _get_height node.
Proof.
  destruct node as [|k l r h d]; [done|]. simpl.
  by destruct (str_eqb x k), (str_ltb x k).
Qed.

Lemma _set_node_balanced f node x :
  balanced node -> balanced (_set_node f node x).
Proof.
  induction node as [|k l IHl r IHr h d]; [done|].
  intros (Hl & Hr & Hb & Hh)%balanced_node. simpl.
  destruct (str_eqb x k); [|destruct (str_ltb x k)];
    apply balanced_node; rewrite ?_set_node_height; auto.
Qed.

Lemma _set_node_keys f node x : keys (_set_node f node x) = keys node.
Proof.
  induction node as [|k l IHl r IHr h d]; [done|]. simpl.
  destruct (str_eqb x k); [|destruct (str_ltb x k)];
    rewrite !keys_node; congruence.
Qed.

Lemma _set_node_wf f self x :
  wf self ->
  wf {| root := _set_node f self.(root) x; size := self.(size) |}.
Proof.
  intros [Hb Hs]. split; simpl; [by apply _set_node_balanced|].
  unfold bst. by rewrite _set_node_keys.
Qed.

Lemma _get_node_set_node_ne f node x y :
  x <> y ->
  derived_words_of (_get_node (_set_node f node x) y) =
  derived_words_of (_get_node node y).
Proof.
  intros Hne. induction node as [|k l IHl r IHr h d]; [done|]. simpl.
  destruct (str_eqb x k) eqn:Ex.
  - apply str_eqb_eq in Ex as ->. simpl.
    by rewrite (proj2 (str_eqb_neq y k)) by done.
  - destruct (str_ltb x k); simpl;
      destruct (str_eqb y k); try done; by destruct (str_ltb y k).
Qed.

Lemma length_keys node : length (keys node) = length (items node).
Proof. unfold keys. by rewrite length_fmap. Qed.

Lemma length_insert_item (x : pystr) (l : list (pystr * dict)) :
  StronglySorted str_lt l.*1 ->
  length (insert_item x l) =
  match lookup_item x l with
  | Some _ => length l
  | None => S (length l)
  end.
Proof.
  induction l as [|[k d] l IH]; simpl; [done|].
  intros [Hall Hs]%StronglySorted_cons.
  destruct (str_ltb x k) eqn:Hx; [|destruct (str_ltb k x) eqn:Hk]; simpl.
  - rewrite bool_decide_eq_false_2
      by (intros ->; by rewrite str_ltb_irrefl in Hx).
    assert (lookup_item x l = None) as ->; [|done].
    apply lookup_item_None. intros Hin.
    eapply Forall_forall in Hall; [|done]. red in Hall.
    pose proof (str_ltb_trans _ _ _ Hx Hall) as Hxx.
    by rewrite str_ltb_irrefl in Hxx.
  - rewrite bool_decide_eq_false_2
      by (intros ->; by rewrite str_ltb_irrefl in Hk).
    rewrite (IH Hs). by destruct (lookup_item x l).
  - pose proof (str_ltb_connex _ _ Hx Hk) as ->.
    by rewrite bool_decide_eq_true_2.
Qed.

Lemma length_remove_item (x : pystr) (l : list (pystr * dict)) :
  NoDup l.*1 ->
  length (remove_item x l) =
  match lookup_item x l with
  | Some _ => Nat.pred (length l)
  | None => length l
  end.
Proof.
  induction l as [|[k d] l IH]; simpl; [done|].
  intros [Hk Hnd]%NoDup_cons. case_bool_decide as E.
  - subst k. rewrite remove_item_head, remove_item_absent by done. done.
  - rewrite remove_item_other by done. simpl. rewrite (IH Hnd).
    destruct (lookup_item x l) eqn:El; [|done].
    destruct l; [done|]. done.
Qed.

(** *** The size count *)

Lemma search_lookup_item self x :
  wf self ->
  search self x =
  match lookup_item x (items self.(root)) with
  | Some _ => true
  | None => false
  end.
Proof.
  intros Hwf. rewrite search_bool, (get_derived_words_items _ _ Hwf).
  destruct (lookup_item x (items self.(root))); [|done].
  by apply bool_decide_eq_true_2.
Qed.

Lemma insert_counted self x :
  counted self ->
  exists self' res, insert self x = Some (self', res) /\ counted self'.
Proof.
  intros [Hwf Hsize].
  destruct (insert_wf self x Hwf) as (self' & msg & Hins & Hwf' & Hit & Hsz).
  eexists _, _. split; [done|]. split; [done|].
  rewrite Hsz, Hit, length_insert_item by apply Hwf.
  rewrite (search_lookup_item _ _ Hwf).
  destruct (lookup_item x (items self.(root))); lia.
Qed.

Lemma delete_counted self x :
  counted self ->
  exists self' res, delete self x = Some (self', res) /\ counted self'.
Proof.
  intros [Hwf Hsize].
  destruct (delete_wf self x Hwf) as (self' & msg & Hdel & Hwf' & Hit & Hsz).
  eexists _, _. split; [done|]. split; [done|].
  rewrite Hsz, Hit, length_remove_item
    by (apply StronglySorted_str_lt_NoDup, Hwf).
  rewrite (search_lookup_item _ _ Hwf).
  destruct (lookup_item x (items self.(root))) eqn:E; [|lia].
  destruct (items self.(root)); [done|]. simpl in *. lia.
Qed.

Lemma length_items_set_node f node x :
  length (items (_set_node f node x)) = length (items node).
Proof. by rewrite <- !length_keys, _set_node_keys. Qed.

Lemma update_counted self o n :
  counted self ->
  exists self' res, update self o n = Some (self', res) /\ counted self'.
Proof.
  intros Hc. unfold update.
  destruct (negb (length n =? 3)%nat); [eauto|].
  destruct (negb (search self o)); [eauto|].
  destruct (search self n && negb (str_eqb o n)); [eauto|].
  destruct (str_eqb o n); [eauto|].
  destruct (delete_counted self o Hc) as (self1 & [b1 m1] & -> & Hc1). simpl.
  destruct b1; [|eauto].
  destruct (insert_counted self1 n Hc1) as (self2 & res2 & -> & Hwf2 & Hsz2).
  simpl. eexists _, _. split; [done|]. split.
  - by apply _set_node_wf.
  - simpl. by rewrite length_items_set_node.
Qed.

Lemma add_validated_word_counted self r w t :
  counted self -> counted (add_validated_word self r w t).1.
Proof.
  intros [Hwf Hsz]. unfold add_validated_word.
  destruct (get_node self r); simpl; [done|]. split.
  - by apply _set_node_wf.
  - simpl. by rewrite length_items_set_node.
Qed.

Lemma exec_counted calls self :
  counted self -> exists self', exec calls self = Some self' /\ counted self'.
Proof.
  revert self. induction calls as [|c calls IH]; intros self Hc; simpl; [eauto|].
  assert (exists self1, exec_call self c = Some self1 /\ counted self1)
    as (self1 & -> & Hc1).
  { destruct c as [r|r|o n|r w t]; simpl.
    - destruct (insert_counted self r Hc) as (? & ? & -> & ?). eauto.
    - destruct (delete_counted self r Hc) as (? & ? & -> & ?). eauto.
    - destruct (update_counted self o n Hc) as (? & ? & -> & ?). eauto.
    - eexists. split; [done|]. by apply add_validated_word_counted. }
  simpl. by apply IH.
Qed.

Lemma init_counted : counted init.
Proof. split; [apply init_wf|done]. Qed.

(** X1: whatever sequence of [insert], [delete], [update] and
    [add_validated_word] calls is made on a new tree, no call raises,
    and in the state reached the tree is balanced, [in_order_traversal]
    is strictly increasing, and [get_size] is the number of roots it
    lists. *)
Theorem exec_keeps_tree_consistent (calls : list call) :
  exists self,
    exec calls init = Some self /\
    balanced self.(root) /\
    StronglySorted str_lt (in_order_traversal self) /\
    get_size self = Z.of_nat (length (in_order_traversal self)).
Proof.
  destruct (exec_counted calls init init_counted) as (self & Hex & [Hb Hs] & Hsz).
  exists self. rewrite in_order_traversal_keys, length_keys. done.
Qed.

(** *** The height is logarithmic in the size *)

Lemma pow2_half_step m :
  1 <= m -> 2 ^ ((1 + m) / 2) <= 2 * 2 ^ ((m - 1) / 2).
Proof.
  intros Hm. replace (1 + m) with ((m - 1) + 1 * 2) by lia.
  rewrite Z.div_add by lia. rewrite Z.pow_add_r; [lia| |lia].
  apply Z.div_pos; lia.
Qed.

Lemma balanced_height_bound node :
  balanced node ->
  2 ^ (_get_height node / 2) <= Z.of_nat (length (items node)) + 1.
Proof.
  induction node as [|k l IHl r IHr h d]; [done|].
  intros (Hl & Hr & Hb & ->)%balanced_node. simpl.
  specialize (IHl Hl). specialize (IHr Hr).
  pose proof (balanced_height_nonneg _ Hl).
  pose proof (balanced_height_nonneg _ Hr).
  rewrite length_app. simpl.
  destruct (decide (Z.max (_get_height l) (_get_height r) = 0)) as [->|Hm].
  { change (2 ^ ((1 + 0) / 2)) with 1. lia. }
  pose proof (pow2_half_step (Z.max (_get_height l) (_get_height r))) as Hpow.
  assert (2 ^ ((Z.max (_get_height l) (_get_height r) - 1) / 2)
            <= 2 ^ (_get_height l / 2) /\
          2 ^ ((Z.max (_get_height l) (_get_height r) - 1) / 2)
            <= 2 ^ (_get_height r / 2)) as [H1 H2].
  { split; apply Z.pow_le_mono_r; try lia; apply Z.div_le_mono; lia. }
  lia.
Qed.

(** X2: in every state reached by the four mutating calls, the height
    and the size satisfy [2 ^ (height / 2) <= size + 1]: the height
    is at most about twice the binary logarithm of the number of
    roots. *)
Theorem exec_height_logarithmic (calls : list call) :
  exists self,
    exec calls init = Some self /\
    2 ^ (get_height self / 2) <= get_size self + 1.
Proof.
  destruct (exec_counted calls init init_counted) as (self & Hex & [Hb Hs] & Hsz).
  exists self. split; [done|]. unfold get_height, get_size. rewrite Hsz.
  by apply balanced_height_bound.
Qed.

Lemma insert_get_derived_words self r self' res :
  wf self ->
  insert self r = Some (self', res) ->
  forall x,
    get_derived_words self' x =
    match get_derived_words self x with
    | Some d => Some d
    | None => if bool_decide (r = x) then Some ∅ else None
    end.
Proof.
  intros Hwf Hins x.
  destruct (insert_wf self r Hwf) as (self1 & msg & Heq & Hwf' & Hit & _).
  rewrite Heq in Hins. injection Hins as <- _.
  rewrite !get_derived_words_items, Hit by done.
  apply lookup_item_insert_item, Hwf.
Qed.

Lemma delete_get_derived_words self r self' res :
  wf self ->
  delete self r = Some (self', res) ->
  forall x,
    get_derived_words self' x =
    if bool_decide (r = x) then None else get_derived_words self x.
Proof.
  intros Hwf Hdel x.
  destruct (delete_wf self r Hwf) as (self1 & msg & Heq & Hwf' & Hit & _).
  rewrite Heq in Hdel. injection Hdel as <- _.
  rewrite !get_derived_words_items, Hit by done.
  apply lookup_item_remove_item.
Qed.

Lemma delete_then_search self r self' res :
  wf self -> delete self r = Some (self', res) -> search self' r = false.
Proof.
  intros Hwf Hdel.
  rewrite search_bool, (delete_get_derived_words _ _ _ _ Hwf Hdel).
  rewrite (bool_decide_eq_true_2 (r = r)) by done.
  apply bool_decide_eq_false_2. by intros [? ?].
Qed.

(** X3: on a well-formed tree [insert(r)] returns [True] exactly when
    [search(r)] was [False]; afterwards [search(r)] is [True], every
    root that had a dictionary keeps it, [r] has the empty dictionary if
    it is new, no other root appears, and [get_size] went up by one
    exactly when the flag is [True]. *)
Theorem insert_effect self r :
  wf self ->
  exists self' msg,
    insert self r = Some (self', (negb (search self r), msg)) /\
    wf self' /\
    search self' r = true /\
    (forall x,
       get_derived_words self' x =
       match get_derived_words self x with
       | Some d => Some d
       | None => if bool_decide (r = x) then Some ∅ else None
       end) /\
    get_size self' = (if search self r then get_size self else get_size self + 1).
Proof.
  intros Hwf.
  destruct (insert_wf self r Hwf) as (self' & msg & Hins & Hwf' & Hit & Hsz).
  exists self', msg. split; [done|]. split; [done|].
  split; [apply (insert_then_search _ _ _ _ Hwf Hins)|]. split; [|done].
  by eapply insert_get_derived_words.
Qed.

Lemma insert_effect_witness :
  exists self' msg,
    insert tree_ktb root_3lm =
      Some (self', (negb (search tree_ktb root_3lm), msg)) /\
    wf self' /\
    search self' root_3lm = true /\
    (forall x,
       get_derived_words self' x =
       match get_derived_words tree_ktb x with
       | Some d => Some d
       | None => if bool_decide (root_3lm = x) then Some ∅ else None
       end) /\
    get_size self' =
      (if search tree_ktb root_3lm then get_size tree_ktb
       else get_size tree_ktb + 1).
Proof.
  apply (insert_effect tree_ktb root_3lm). split.
  - apply balanced_node. simpl. repeat split; try done; lia.
  - repeat constructor.
Defined.

(** X4: on a well-formed tree [delete(r)] returns [True] exactly when
    [search(r)] was [True]; afterwards [r] has no node, every other root
    has the dictionary it had (also when the deleted node had two
    children and the successor's dictionary was moved), [get_size] went
    down by one exactly when the flag is [True], and a call that
    returns [False] leaves the tree as it was. *)
Theorem delete_effect self r :
  wf self ->
  exists self' msg,
    delete self r = Some (self', (search self r, msg)) /\
    wf self' /\
    search self' r = false /\
    (forall x, x <> r -> get_derived_words self' x = get_derived_words self x) /\
    get_size self' = (if search self r then get_size self - 1 else get_size self) /\
    (search self r = false -> self' = self).
Proof.
  intros Hwf.
  destruct (delete_wf self r Hwf) as (self' & msg & Hdel & Hwf' & Hit & Hsz).
  exists self', msg. split; [done|]. split; [done|].
  split; [|split; [|split; [done|]]].
  - apply (delete_then_search _ _ _ _ Hwf Hdel).
  - intros x Hx. rewrite (delete_get_derived_words _ _ _ _ Hwf Hdel).
    by rewrite (bool_decide_eq_false_2 (r = x)) by congruence.
  - intros Habsent. unfold delete in Hdel. rewrite Habsent in Hdel.
    simpl in Hdel. by injection Hdel as <- _.
Qed.

Lemma delete_effect_witness :
  exists self' msg,
    delete {| root := node_ktb; size := 3 |} root_ktb =
      Some (self', (search {| root := node_ktb; size := 3 |} root_ktb, msg)) /\
    wf self' /\
    search self' root_ktb = false /\
    (forall x, x <> root_ktb ->
       get_derived_words self' x =
       get_derived_words {| root := node_ktb; size := 3 |} x) /\
    get_size self' =
      (if search {| root := node_ktb; size := 3 |} root_ktb
       then get_size {| root := node_ktb; size := 3 |} - 1
       else get_size {| root := node_ktb; size := 3 |}) /\
    (search {| root := node_ktb; size := 3 |} root_ktb = false ->
     self' = {| root := node_ktb; size := 3 |}).
Proof.
  apply (delete_effect {| root := node_ktb; size := 3 |} root_ktb). split.
  - simpl. concrete_balanced.
  - repeat constructor.
Defined.

(** X5: a successful [update(old, new)] on a well-formed tree leaves a
    well-formed tree in which [old] is absent and [new] present, with
    the [get_size] it had; every root other than [old] and [new] keeps
    its dictionary.  An [update] that returns [False] leaves the tree as
    it was. *)
Theorem update_effect self old new :
  wf self ->
  exists self' success msg,
    update self old new = Some (self', (success, msg)) /\
    (success = true ->
       wf self' /\
       search self' old = false /\
       search self' new = true /\
       get_size self' = get_size self /\
       forall x, x <> old -> x <> new ->
         get_derived_words self' x = get_derived_words self x) /\
    (success = false -> self' = self).
Proof.
  intros Hwf. unfold update.
  destruct (negb (length new =? 3)%nat); [by eexists _, _, _|].
  destruct (search self old) eqn:Hold; simpl; [|by eexists _, _, _].
  destruct (str_eqb old new) eqn:E; simpl.
  { rewrite andb_false_r. by eexists _, _, _. }
  apply str_eqb_neq in E. rewrite andb_true_r.
  destruct (search self new) eqn:Hnew; [by eexists _, _, _|].
  destruct (delete_wf self old Hwf)
    as (self1 & msg1 & Hdel & Hwf1 & _ & Hsz1).
  pose proof (delete_then_search _ _ _ _ Hwf Hdel) as Hgone.
  assert (forall x, x <> old ->
            get_derived_words self1 x = get_derived_words self x) as Hget1.
  { intros x Hx. rewrite (delete_get_derived_words _ _ _ _ Hwf Hdel).
    by rewrite (bool_decide_eq_false_2 (old = x)) by congruence. }
  rewrite Hdel, Hold in *. simpl.
  destruct (insert_wf self1 new Hwf1)
    as (self2 & msg2 & Hins & Hwf2 & _ & Hsz2).
  pose proof (insert_then_search _ _ _ _ Hwf1 Hins) as Hfound.
  pose proof (insert_get_derived_words _ _ _ _ Hwf1 Hins) as Hget2.
  assert (search self1 new = false) as Hnew1.
  { rewrite search_bool, Hget1 by done. rewrite <- search_bool. done. }
  rewrite Hins, Hnew1 in *. simpl.
  eexists _, true, _. split; [done|]. split; [|done]. intros _.
  split; [by apply _set_node_wf|].
  split; [|split; [|split]].
  - rewrite search_bool. unfold get_derived_words, get_node. simpl.
    rewrite _get_node_set_node_ne by done.
    change (derived_words_of (_get_node self2.(root) old))
      with (get_derived_words self2 old).
    rewrite Hget2. rewrite (bool_decide_eq_false_2 (new = old)) by done.
    rewrite search_bool in Hgone.
    destruct (get_derived_words self1 old);
      [|by apply bool_decide_eq_false_2; intros [? ?]].
    rewrite bool_decide_eq_true_2 in Hgone by eauto. done.
  - rewrite search_bool. unfold get_derived_words, get_node. simpl.
    rewrite _get_node_set_node.
    apply bool_decide_eq_true_2. apply fmap_is_Some.
    by apply search_get_derived_words.
  - unfold get_size in *. simpl. lia.
  - intros x Hxo Hxn. unfold get_derived_words, get_node. simpl.
    rewrite _get_node_set_node_ne by done.
    change (derived_words_of (_get_node self2.(root) x))
      with (get_derived_words self2 x).
    rewrite Hget2, Hget1 by done.
    rewrite (bool_decide_eq_false_2 (new = x)) by congruence.
    unfold get_derived_words, get_node.
    by destruct (derived_words_of (_get_node self.(root) x)).
Qed.

Lemma update_effect_witness :
  exists self' success msg,
    update {| root := node_ktb; size := 3 |} root_nsr (lit "abc")
      = Some (self', (success, msg)) /\
    (success = true ->
       wf self' /\
       search self' root_nsr = false /\
       search self' (lit "abc") = true /\
       get_size self' = get_size {| root := node_ktb; size := 3 |} /\
       forall x, x <> root_nsr -> x <> lit "abc" ->
         get_derived_words self' x =
         get_derived_words {| root := node_ktb; size := 3 |} x) /\
    (success = false -> self' = {| root := node_ktb; size := 3 |}).
Proof.
  apply (update_effect {| root := node_ktb; size := 3 |} root_nsr (lit "abc")).
  split; [simpl; concrete_balanced | repeat constructor].
Defined.

(** *** Recording derived words *)

Lemma get_node_search self r :
  search self r = match get_node self r with NoNode => false | _ => true end.
Proof.
  unfold search, get_node. induction self.(root) as [|k l IHl rr IHr h d]; simpl;
    [done|].
  destruct (str_eqb r k); [done|]. by destruct (str_ltb r k).
Qed.

Lemma add_derived_word_frequency (d : dict) w t :
  get_word_frequency (add_derived_word d w t) w = get_word_frequency d w + 1.
Proof.
  unfold get_word_frequency, add_derived_word.
  destruct (d !! w) as [info|] eqn:E; by rewrite lookup_insert_eq.
Qed.

Lemma add_derived_word_template (d : dict) w t :
  template <$> add_derived_word d w t !! w =
  Some (default t (template <$> d !! w)).
Proof.
  unfold add_derived_word.
  destruct (d !! w) as [info|] eqn:E; by rewrite lookup_insert_eq.
Qed.

Lemma add_derived_word_other (d : dict) w t w' :
  w' <> w -> add_derived_word d w t !! w' = d !! w'.
Proof.
  intros Hne. unfold add_derived_word.
  destruct (d !! w) as [info|] eqn:E; by rewrite lookup_insert_ne.
Qed.

Lemma add_validated_word_get self r w t :
  get_derived_words (add_validated_word self r w t).1 r =
  (fun d => add_derived_word d w t) <$> get_derived_words self r.
Proof.
  unfold add_validated_word, get_derived_words.
  destruct (get_node self r) eqn:E; simpl; [by rewrite E|].
  unfold get_node in *. simpl. rewrite _get_node_set_node. by rewrite E.
Qed.

(** X6: [add_validated_word(root, word, template)] on any tree returns
    [True] exactly when [search(root)] is [True].  It never changes the
    traversal, the size or the height, nor the dictionary of another
    root.  In the dictionary of [root], the frequency of [word] as
    [get_word_frequency] reads it goes up by one, the template recorded
    for [word] is the one it had, or [template] if it had none, and the
    entries of other words are untouched. *)
Theorem add_validated_word_effect self r w t :
  (add_validated_word self r w t).2.1 = search self r /\
  in_order_traversal (add_validated_word self r w t).1
    = in_order_traversal self /\
  get_size (add_validated_word self r w t).1 = get_size self /\
  get_height (add_validated_word self r w t).1 = get_height self /\
  (forall x, x <> r ->
     get_derived_words (add_validated_word self r w t).1 x
       = get_derived_words self x) /\
  (forall d,
     get_derived_words self r = Some d ->
     exists d',
       get_derived_words (add_validated_word self r w t).1 r = Some d' /\
       get_word_frequency d' w = get_word_frequency d w + 1 /\
       template <$> d' !! w = Some (default t (template <$> d !! w)) /\
       forall w', w' <> w -> d' !! w' = d !! w').
Proof.
  split; [|split; [|split; [|split; [|split]]]].
  - rewrite get_node_search. unfold add_validated_word.
    by destruct (get_node self r).
  - rewrite !in_order_traversal_keys. unfold add_validated_word.
    destruct (get_node self r); simpl; [done|]. apply _set_node_keys.
  - unfold add_validated_word. by destruct (get_node self r).
  - unfold add_validated_word, get_height.
    destruct (get_node self r); simpl; [done|]. apply _set_node_height.
  - intros x Hx. unfold add_validated_word.
    destruct (get_node self r); simpl; [done|].
    unfold get_derived_words, get_node. simpl.
    by apply _get_node_set_node_ne.
  - intros d Hd. rewrite add_validated_word_get, Hd. simpl.
    eexists. split; [done|].
    split; [apply add_derived_word_frequency|].
    split; [apply add_derived_word_template|].
    intros w' Hw'. by apply add_derived_word_other.
Qed.

Lemma add_validated_word_effect_witness :
  (add_validated_word {| root := node_ktb; size := 3 |}
     root_nsr word_katib pattern_faa3il).2.1
    = search {| root := node_ktb; size := 3 |} root_nsr /\
  in_order_traversal
    (add_validated_word {| root := node_ktb; size := 3 |}
       root_nsr word_katib pattern_faa3il).1
    = in_order_traversal {| root := node_ktb; size := 3 |} /\
  get_size
    (add_validated_word {| root := node_ktb; size := 3 |}
       root_nsr word_katib pattern_faa3il).1
    = get_size {| root := node_ktb; size := 3 |} /\
  get_height
    (add_validated_word {| root := node_ktb; size := 3 |}
       root_nsr word_katib pattern_faa3il).1
    = get_height {| root := node_ktb; size := 3 |} /\
  (forall x, x <> root_nsr ->
     get_derived_words
       (add_validated_word {| root := node_ktb; size := 3 |}
          root_nsr word_katib pattern_faa3il).1 x
       = get_derived_words {| root := node_ktb; size := 3 |} x) /\
  (forall d,
     get_derived_words {| root := node_ktb; size := 3 |} root_nsr = Some d ->
     exists d',
       get_derived_words
         (add_validated_word {| root := node_ktb; size := 3 |}
            root_nsr word_katib pattern_faa3il).1 root_nsr = Some d' /\
       get_word_frequency d' word_katib
         = get_word_frequency d word_katib + 1 /\
       template <$> d' !! word_katib
         = Some (default pattern_faa3il (template <$> d !! word_katib)) /\
       forall w', w' <> word_katib -> d' !! w' = d !! w').
Proof.
  apply (add_validated_word_effect {| root := node_ktb; size := 3 |}
           root_nsr word_katib pattern_faa3il).
Defined.

(** X7: recording the same word for a stored root any number of times
    in a row, whatever templates are passed, adds the number of calls to
    its frequency and keeps the template of the first recording. *)
Theorem add_validated_word_repeated self r w (ts : list pystr) d :
  get_derived_words self r = Some d ->
  exists self' d',
    exec ((fun t => CallAddWord r w t) <$> ts) self = Some self' /\
    get_derived_words self' r = Some d' /\
    get_word_frequency d' w = get_word_frequency d w + Z.of_nat (length ts) /\
    (forall t0, head ts = Some t0 ->
       template <$> d' !! w = Some (default t0 (template <$> d !! w))).
Proof.
  revert self d. induction ts as [|t ts IH]; intros self d Hd; simpl.
  - exists self, d. split; [done|]. split; [done|]. split; [lia|done].
  - pose proof (add_validated_word_get self r w t) as Hd1.
    rewrite Hd in Hd1. simpl in Hd1.
    pose proof (add_derived_word_frequency d w t) as Hf1.
    pose proof (add_derived_word_template d w t) as Ht1.
    destruct (IH _ _ Hd1) as (self' & d' & Hex & Hd' & Hf & Ht).
    exists self', d'. split; [done|]. split; [done|]. split; [lia|].
    intros t0 [= <-]. destruct ts as [|t1 ts].
    + simpl in Hex. injection Hex as <-. rewrite Hd1 in Hd'.
      by injection Hd' as <-.
    + rewrite (Ht t1 eq_refl), Ht1. done.
Qed.

Lemma add_validated_word_repeated_witness :
  exists self' d',
    exec ((fun t => CallAddWord root_nsr word_katib t)
            <$> [pattern_faa3il; lit "1a2a3"])
      {| root := node_ktb; size := 3 |} = Some self' /\
    get_derived_words self' root_nsr = Some d' /\
    get_word_frequency d' word_katib =
      get_word_frequency dict_nsr word_katib
      + Z.of_nat (length [pattern_faa3il; lit "1a2a3"]) /\
    (forall t0, head [pattern_faa3il; lit "1a2a3"] = Some t0 ->
       template <$> d' !! word_katib =
       Some (default t0 (template <$> dict_nsr !! word_katib))).
Proof.
  apply (add_validated_word_repeated {| root := node_ktb; size := 3 |}
           root_nsr word_katib [pattern_faa3il; lit "1a2a3"] dict_nsr).
  reflexivity.
Defined.

(** *** The dump and the lookups agree *)

Lemma lookup_item_Some_elem_of (x : pystr) (d : dict)
  (l : list (pystr * dict)) :
  lookup_item x l = Some d -> (x, d) ∈ l.
Proof.
  induction l as [|[k d'] l IH]; simpl; [done|].
  case_bool_decide as E.
  - intros [= ->]. subst. by left.
  - intros H. right. by apply IH.
Qed.

(** X8: on a well-formed tree [get_all_roots_with_words] lists the
    roots of [get_all_roots] in the same order, each with exactly the
    dictionary [get_derived_words] returns for it, and [search] finds
    exactly the listed roots. *)
Theorem dump_agrees_with_lookups self :
  wf self ->
  (get_all_roots_with_words self).*1 = get_all_roots self /\
  (forall k d,
     (k, d) ∈ get_all_roots_with_words self <->
     get_derived_words self k = Some d) /\
  (forall k, search self k = true <-> k ∈ get_all_roots self).
Proof.
  intros Hwf. rewrite get_all_roots_with_words_items.
  unfold get_all_roots. rewrite in_order_traversal_keys.
  split; [done|]. split.
  - intros k d. rewrite (get_derived_words_items _ _ Hwf). split.
    + apply lookup_item_elem_of, StronglySorted_str_lt_NoDup, Hwf.
    + apply lookup_item_Some_elem_of.
  - intros k. apply _search_recursive_elem_of, Hwf.
Qed.

Lemma dump_agrees_with_lookups_witness :
  (get_all_roots_with_words {| root := node_ktb; size := 3 |}).*1
    = get_all_roots {| root := node_ktb; size := 3 |} /\
  (forall k d,
     (k, d) ∈ get_all_roots_with_words {| root := node_ktb; size := 3 |} <->
     get_derived_words {| root := node_ktb; size := 3 |} k = Some d) /\
  (forall k, search {| root := node_ktb; size := 3 |} k = true <->
             k ∈ get_all_roots {| root := node_ktb; size := 3 |}).
Proof.
  apply (dump_agrees_with_lookups {| root := node_ktb; size := 3 |}).
  split; [simpl; concrete_balanced | repeat constructor].
Defined.

(** *** Inserting and deleting again *)

Lemma remove_insert_item (x : pystr) (l : list (pystr * dict)) :
  x ∉ l.*1 -> remove_item x (insert_item x l) = l.
Proof.
  induction l as [|[k d] l IH]; simpl.
  - intros _. by rewrite remove_item_head.
  - rewrite not_elem_of_cons. intros [Hne Hl].
    destruct (str_ltb x k) eqn:Hx; [|destruct (str_ltb k x) eqn:Hk].
    + rewrite remove_item_head. apply remove_item_absent. simpl.
      rewrite not_elem_of_cons. done.
    + rewrite remove_item_other by done. by rewrite IH.
    + by pose proof (str_ltb_connex _ _ Hx Hk).
Qed.

(** X9: on a well-formed tree that does not hold [r], [insert(r)]
    followed by [delete(r)] both succeed and give back a tree with the
    same dump (roots and dictionaries, in order) and the same size. *)
Theorem insert_then_delete_restores self r :
  wf self ->
  search self r = false ->
  exists self1 msg1 self2 msg2,
    insert self r = Some (self1, (true, msg1)) /\
    delete self1 r = Some (self2, (true, msg2)) /\
    get_all_roots_with_words self2 = get_all_roots_with_words self /\
    get_size self2 = get_size self.
Proof.
  intros Hwf Habsent.
  destruct (insert_wf self r Hwf) as (self1 & msg1 & Hins & Hwf1 & Hit1 & Hsz1).
  destruct (delete_wf self1 r Hwf1) as (self2 & msg2 & Hdel & Hwf2 & Hit2 & Hsz2).
  rewrite Habsent in *.
  rewrite (insert_then_search _ _ _ _ Hwf Hins) in *.
  exists self1, msg1, self2, msg2. split; [done|]. split; [done|].
  rewrite !get_all_roots_with_words_items, Hit2, Hit1. split.
  - apply remove_insert_item.
    intros Hin%(_search_recursive_elem_of _ _ (proj2 Hwf)).
    unfold search in Habsent. congruence.
  - unfold get_size. lia.
Qed.

Lemma insert_then_delete_restores_witness :
  exists self1 msg1 self2 msg2,
    insert {| root := node_ktb; size := 3 |} (lit "abc")
      = Some (self1, (true, msg1)) /\
    delete self1 (lit "abc") = Some (self2, (true, msg2)) /\
    get_all_roots_with_words self2
      = get_all_roots_with_words {| root := node_ktb; size := 3 |} /\
    get_size self2 = get_size {| root := node_ktb; size := 3 |}.
Proof.
  apply (insert_then_delete_restores {| root := node_ktb; size := 3 |}
           (lit "abc")).
  - split; [simpl; concrete_balanced | repeat constructor].
  - reflexivity.
Defined.

End avl_more_facts.

(** ** Facts on deletion below the top node *)

Module avl_delete_facts.
Import avl avl_spec avl_facts avl_more avl_more_facts avl_deep.

#[local] Arguments insert_rebalance : simpl never.
#[local] Arguments delete_rebalance : simpl never.
#[local] Arguments balanced : simpl never.

(** *** The node [get_node] returns *)

Lemma _get_node_key node x k l r h d :
  _get_node node x = Node k l r h d -> k = x.
Proof.
  induction node as [|k0 l0 IHl r0 IHr h0 d0]; [done|]. simpl.
  destruct (str_eqb x k0) eqn:E.
  - apply str_eqb_eq in E. by intros [= <- _ _ _ _].
  - by destruct (str_ltb x k0).
Qed.

Lemma _get_node_balanced node x : balanced node -> balanced (_get_node node x).
Proof.
  induction node as [|k0 l0 IHl r0 IHr h0 d0]; [done|].
  intros Hb. pose proof Hb as (Hl & Hr & _)%balanced_node. simpl.
  destruct (str_eqb x k0); [done|]. destruct (str_ltb x k0); auto.
Qed.

Lemma _get_node_bst node x : bst node -> bst (_get_node node x).
Proof.
  induction node as [|k0 l0 IHl r0 IHr h0 d0]; [done|].
  intros Hb. pose proof Hb as (Hl & Hr & _)%bst_node. simpl.
  destruct (str_eqb x k0); [done|]. destruct (str_ltb x k0); auto.
Qed.

(** The nodes below the one found are a segment of the listing. *)
Lemma _get_node_segment node x :
  exists pre post, items node = pre ++ items (_get_node node x) ++ post.
Proof.
  induction node as [|k0 l0 IHl r0 IHr h0 d0]; [by exists [], []|]. simpl.
  destruct (str_eqb x k0).
  - exists [], []. by rewrite app_nil_r.
  - destruct (str_ltb x k0).
    + destruct IHl as (pre & post & ->).
      exists pre, (post ++ (k0, d0) :: items r0). by rewrite <- !app_assoc.
    + destruct IHr as (pre & post & ->).
      exists (items l0 ++ (k0, d0) :: pre), post.
      by rewrite <- !app_assoc.
Qed.

Lemma remove_item_middle (k : pystr) (d : dict)
  (pre post : list (pystr * dict)) :
  NoDup (pre ++ (k, d) :: post).*1 ->
  remove_item k (pre ++ (k, d) :: post) = pre ++ post.
Proof.
  rewrite fmap_app, fmap_cons. simpl.
  intros (_ & Hpre & [Hpost _]%NoDup_cons)%NoDup_app.
  rewrite remove_item_app, remove_item_head.
  rewrite !remove_item_absent; [done..|].
  intros Hin. apply (Hpre k Hin). by left.
Qed.

(** *** Deleting a node with two children, anywhere in the tree *)

(** C5: [delete(k)] on a well-formed tree in which the node of [k],
    wherever it is in the tree, has two children.  The in-order
    successor is the leftmost node of the node's right subtree.  The
    call of [_delete_recursive] that reaches the node removes the
    successor from the right subtree, puts the successor's key and its
    whole [derived_words] dictionary into the node, rebalances, and
    gives back the size count one less.  [delete] returns [True] with
    the message [Root 'k' deleted successfully], the size of the tree
    is one less, and in the dump the entry of [k]
    followed by the successor's entry has become the successor's entry
    alone, every other entry as it was; [k] is no longer found and the
    successor's key has the successor's dictionary. *)
Theorem C5_delete_two_children self k l r h d :
  wf self ->
  get_node self k = Node k l r h d ->
  l <> NoNode -> r <> NoNode ->
  exists mk ml mr mh md r' sub' self' pre post,
    _get_min_node r = Some (Node mk ml mr mh md) /\
    head (items r) = Some (mk, md) /\
    _delete_recursive r mk (self.(size) - 1) = Some (r', self.(size) - 2) /\
    items r' = tail (items r) /\
    delete_rebalance (Node mk l r' h md) = Some sub' /\
    items sub' = items l ++ (mk, md) :: items r' /\
    _delete_recursive (Node k l r h d) k self.(size)
      = Some (sub', self.(size) - 1) /\
    delete self k
      = Some (self', (true, lit "Root '" ++ k ++ lit "' deleted successfully")) /\
    get_size self' = get_size self - 1 /\
    get_all_roots_with_words self = pre ++ (k, d) :: (mk, md) :: post /\
    get_all_roots_with_words self' = pre ++ (mk, md) :: post /\
    search self' k = false /\
    get_derived_words self' mk = Some md.
Proof.
  intros Hwf Hnode Hl Hr. pose proof Hwf as [Hb Hs].
  unfold get_node in Hnode.
  pose proof (_get_node_balanced _ k Hb) as Hbn.
  pose proof (_get_node_bst _ k Hs) as Hsn. rewrite Hnode in Hbn, Hsn.
  destruct (_delete_recursive_two_children k l r h d self.(size) Hbn Hsn Hl Hr)
    as (mk & ml & mr & mh & md & r' & sub' & _ & Hmin & Hhead & Hdr & Hr'
        & Hreb & Hsub & Hdn & _).
  assert (search self k = true) as Hfound.
  { rewrite get_node_search. unfold get_node. by rewrite Hnode. }
  destruct (delete_wf self k Hwf) as (self' & msg & Hdel & Hwf' & Hit & Hsz).
  rewrite Hfound in Hdel, Hsz.
  assert (msg = lit "Root '" ++ k ++ lit "' deleted successfully") as ->.
  { revert Hdel. unfold delete. rewrite Hfound. simpl.
    destruct (_delete_recursive self.(root) k self.(size)) as [[n s]|];
      [simpl|done].
    by destruct (s <? self.(size)); intros [= _ <-]. }
  destruct (_get_node_segment self.(root) k) as (pre0 & post0 & Hseg).
  rewrite Hnode in Hseg. simpl in Hseg.
  assert (items r = (mk, md) :: tail (items r)) as Hir.
  { destruct (items r); [done|]. by injection Hhead as ->. }
  rewrite Hir in Hseg.
  assert (items self.(root)
          = (pre0 ++ items l) ++ (k, d) :: (mk, md) :: (tail (items r) ++ post0))
    as Hitems.
  { rewrite Hseg. by rewrite <- !app_assoc. }
  exists mk, ml, mr, mh, md, r', sub', self',
    (pre0 ++ items l), (tail (items r) ++ post0).
  do 7 (split; [done|]). split; [done|]. split; [done|].
  rewrite !get_all_roots_with_words_items. split; [done|].
  assert (items self'.(root)
          = (pre0 ++ items l) ++ (mk, md) :: tail (items r) ++ post0) as Hitems'.
  { rewrite Hit, Hitems. apply remove_item_middle.
    rewrite <- Hitems. apply StronglySorted_str_lt_NoDup, Hs. }
  split; [done|].
  split; [apply (delete_then_search _ _ _ _ Hwf Hdel)|].
  rewrite (get_derived_words_items _ _ Hwf'). apply lookup_item_elem_of.
  - apply StronglySorted_str_lt_NoDup, Hwf'.
  - rewrite Hitems'. apply elem_of_app. right. by left.
Qed.

Lemma C5_delete_two_children_witness :
  exists mk ml mr mh md r' sub' self' pre post,
    _get_min_node node_hhh = Some (Node mk ml mr mh md) /\
    head (items node_hhh) = Some (mk, md) /\
    _delete_recursive node_hhh mk (tree_deep.(size) - 1)
      = Some (r', tree_deep.(size) - 2) /\
    items r' = tail (items node_hhh) /\
    delete_rebalance (Node mk node_ccc r' 2 md) = Some sub' /\
    items sub' = items node_ccc ++ (mk, md) :: items r' /\
    _delete_recursive (Node (lit "fff") node_ccc node_hhh 2 dict_ktb)
      (lit "fff") tree_deep.(size) = Some (sub', tree_deep.(size) - 1) /\
    delete tree_deep (lit "fff")
      = Some (self',
              (true, lit "Root '" ++ lit "fff" ++ lit "' deleted successfully")) /\
    get_size self' = get_size tree_deep - 1 /\
    get_all_roots_with_words tree_deep
      = pre ++ (lit "fff", dict_ktb) :: (mk, md) :: post /\
    get_all_roots_with_words self' = pre ++ (mk, md) :: post /\
    search self' (lit "fff") = false /\
    get_derived_words self' mk = Some md.
Proof.
  apply (C5_delete_two_children tree_deep (lit "fff")
           node_ccc node_hhh 2 dict_ktb).
  - split; [simpl; concrete_balanced | repeat constructor].
  - reflexivity.
  - discriminate.
  - discriminate.
Defined.

End avl_delete_facts.



(** ** The pattern index: effects of the operations *)

Module hashtable_more_facts.
Import hashtable hashtable_spec hashtable_facts hashtable_more.

Lemma chain_exists_cons e chain x :
  chain_exists (e :: chain) x = str_eqb e.(template) x || chain_exists chain x.
Proof. simpl. by destruct (str_eqb (template e) x). Qed.

Lemma chain_unlink_length chain t chain' :
  chain_unlink chain t = Some chain' -> length chain = S (length chain').
Proof.
  revert chain'. induction chain as [|e chain IH]; intros chain'; simpl; [done|].
  destruct (str_eqb (template e) t); [by intros [= <-]|].
  destruct (chain_unlink chain t) as [c1|]; [|done]. intros [= <-].
  simpl. by rewrite (IH c1).
Qed.

Lemma chain_unlink_elem_of chain t chain' e :
  chain_unlink chain t = Some chain' -> e ∈ chain' -> e ∈ chain.
Proof.
  revert chain'. induction chain as [|e0 chain IH]; intros chain'; simpl; [done|].
  destruct (str_eqb (template e0) t); [intros [= <-] ?; by right|].
  destruct (chain_unlink chain t) as [c1|]; [|done]. intros [= <-].
  intros [->|Hin]%elem_of_cons; [by left|]. right. by apply (IH c1).
Qed.

Lemma chain_unlink_exists_other chain t chain' x :
  chain_unlink chain t = Some chain' -> x <> t ->
  chain_exists chain' x = chain_exists chain x.
Proof.
  intros Hu Hx. pose proof (chain_unlink_Some _ _ _ Hu) as Hperm.
  destruct (chain_exists chain x) eqn:E.
  - apply chain_exists_elem_of. apply chain_exists_elem_of in E.
    rewrite Hperm in E. by apply elem_of_cons in E as [?|?].
  - apply chain_exists_false. apply chain_exists_false in E.
    rewrite Hperm in E. intros Hin. apply E. by right.
Qed.

Lemma chain_unlink_exists_same chain t chain' :
  NoDup (templates chain) ->
  chain_unlink chain t = Some chain' -> chain_exists chain' t = false.
Proof.
  intros Hnd Hu. apply chain_exists_false.
  rewrite (chain_unlink_Some _ _ _ Hu) in Hnd.
  by apply NoDup_cons in Hnd as [? _].
Qed.

(** Putting a template at the head of its chain and unlinking it gives
    the chain back. *)
Lemma chain_unlink_head e chain :
  chain_unlink (e :: chain) e.(template) = Some chain.
Proof. simpl. by rewrite str_eqb_refl. Qed.

Lemma exists_with_bucket self (i j : nat) chain chain' c x :
  table_wf self ->
  self.(table) !! i = Some chain ->
  _polynomial_hash self x = Some (Z.of_nat j) ->
  exists_ (with_bucket self i chain' c) x =
  if decide (j = i) then Some (chain_exists chain' x) else exists_ self x.
Proof.
  intros Hwf Hc Hh.
  assert (i < length self.(table))%nat as Hi by by eapply lookup_lt_Some.
  destruct (_polynomial_hash_bucket self x Hwf) as (j' & cj & Hh' & Hcj & Hj).
  rewrite Hh in Hh'. injection Hh' as <-%Nat2Z.inj.
  destruct (decide (j = i)) as [->|Hne].
  - apply (exists_bucket _ _ i chain'); [by rewrite with_bucket_hash|].
    simpl. by apply list_lookup_insert_eq.
  - rewrite (exists_bucket self x j cj Hh Hcj).
    apply (exists_bucket _ _ j cj); [by rewrite with_bucket_hash|].
    simpl. by rewrite list_lookup_insert_ne.
Qed.

Lemma length_collect_with_bucket self (i : nat) chain chain' c :
  self.(table) !! i = Some chain ->
  (length (collect_patterns (with_bucket self i chain' c)) + length chain =
   length (collect_patterns self) + length chain')%nat.
Proof.
  intros Hc.
  assert (i < length self.(table))%nat as Hi by by eapply lookup_lt_Some.
  rewrite (collect_patterns_middle self i chain Hc).
  rewrite (collect_patterns_middle (with_bucket self i chain' c) i chain')
    by (by apply list_lookup_insert_eq).
  simpl. rewrite take_insert_ge, drop_insert_lt by lia.
  rewrite !length_app. unfold templates. rewrite !length_fmap. lia.
Qed.

Lemma with_bucket_ok self (i : nat) chain chain' c :
  table_ok self ->
  self.(table) !! i = Some chain ->
  table_wf (with_bucket self i chain' c) ->
  c = self.(count) + Z.of_nat (length chain') - Z.of_nat (length chain) ->
  (forall e, e ∈ chain' -> e ∈ chain \/ e.(hash_value) = Z.of_nat i) ->
  table_ok (with_bucket self i chain' c).
Proof.
  intros (Hwf & Hcount & Hhv) Hc Hwf' -> Hin. split; [done|]. split.
  - pose proof (length_collect_with_bucket self i chain chain'
                  (self.(count) + Z.of_nat (length chain')
                   - Z.of_nat (length chain)) Hc).
    simpl. lia.
  - intros j cj e Hj He. simpl in Hj.
    destruct (decide (i = j)) as [<-|Hne].
    + apply list_lookup_insert_Some in Hj as [(_ & <- & _)|[? _]]; [|done].
      destruct (Hin e He) as [?|?]; [by eapply Hhv|done].
    + rewrite list_lookup_insert_ne in Hj by done. by eapply Hhv.
Qed.

Lemma put_spec self t :
  table_ok self ->
  exists b self' msg,
    exists_ self t = Some b /\
    put self t = Some (self', (negb b, msg)) /\
    table_ok self' /\
    exists_ self' t = Some true /\
    (forall x, x <> t -> exists_ self' x = exists_ self x) /\
    get_size self' = (if b then get_size self else get_size self + 1) /\
    (b = true -> self' = self).
Proof.
  intros Hok. pose proof Hok as (Hwf & Hcount & Hhv).
  destruct (_polynomial_hash_bucket self t Hwf) as (i & chain & Hh & Hc & Hi).
  destruct (table_put_wf self t Hwf) as (self' & res & Hput & Hwf').
  rewrite (put_bucket self t i chain Hh Hc) in Hput.
  rewrite (exists_bucket self t i chain Hh Hc).
  rewrite (put_bucket self t i chain Hh Hc).
  destruct (chain_exists chain t) eqn:E.
  - injection Hput as <- <-. exists true. eexists _, _.
    split; [done|]. split; [done|]. split; [done|].
    split; [by rewrite (exists_bucket self t i chain Hh Hc), E|]. done.
  - injection Hput as <- <-. exists false. eexists _, _.
    split; [done|]. split; [done|]. split.
    { eapply with_bucket_ok; [done..| |].
      - simpl length. lia.
      - intros e [->|He]%elem_of_cons; [by right|by left]. }
    split.
    { rewrite (exists_with_bucket self i i chain _ _ t Hwf Hc Hh).
      rewrite decide_True by done. simpl. by rewrite str_eqb_refl. }
    split; [|split; [done|done]].
    intros x Hx.
    destruct (_polynomial_hash_bucket self x Hwf) as (j & cj & Hhx & Hcj & _).
    rewrite (exists_with_bucket self i j chain _ _ x Hwf Hc Hhx).
    destruct (decide (j = i)) as [->|Hne]; [|done].
    rewrite (exists_bucket self x i chain Hhx Hc), chain_exists_cons. simpl.
    by rewrite (proj2 (str_eqb_neq t x)) by done.
Qed.

Lemma delete_spec self t :
  table_ok self ->
  exists b self' msg,
    exists_ self t = Some b /\
    delete self t = Some (self', (b, msg)) /\
    table_ok self' /\
    exists_ self' t = Some false /\
    (forall x, x <> t -> exists_ self' x = exists_ self x) /\
    get_size self' = (if b then get_size self - 1 else get_size self) /\
    (b = false -> self' = self).
Proof.
  intros Hok. pose proof Hok as (Hwf & Hcount & Hhv).
  destruct (_polynomial_hash_bucket self t Hwf) as (i & chain & Hh & Hc & Hi).
  destruct (table_delete_wf self t Hwf) as (self' & res & Hdel & Hwf').
  rewrite (delete_bucket self t i chain Hh Hc) in Hdel.
  rewrite (exists_bucket self t i chain Hh Hc).
  rewrite (delete_bucket self t i chain Hh Hc).
  destruct (chain_unlink chain t) as [chain'|] eqn:Hu.
  - injection Hdel as <- <-.
    assert (chain_exists chain t = true) as ->.
    { destruct (chain_exists chain t) eqn:E; [done|].
      apply chain_unlink_None in E. congruence. }
    exists true. eexists _, _. split; [done|]. split; [done|]. split.
    { eapply with_bucket_ok; [done..| |].
      - rewrite (chain_unlink_length _ _ _ Hu). lia.
      - intros e He. left. by eapply chain_unlink_elem_of. }
    pose proof Hwf as (_ & _ & _ & _ & Hnd).
    split.
    { rewrite (exists_with_bucket self i i chain _ _ t Hwf Hc Hh).
      rewrite decide_True by done. f_equal.
      eapply chain_unlink_exists_same; [|done]. by eapply Hnd. }
    split; [|split; [done|done]].
    intros x Hx.
    destruct (_polynomial_hash_bucket self x Hwf) as (j & cj & Hhx & Hcj & _).
    rewrite (exists_with_bucket self i j chain _ _ x Hwf Hc Hhx).
    destruct (decide (j = i)) as [->|Hne]; [|done].
    rewrite (exists_bucket self x i chain Hhx Hc). f_equal.
    by eapply chain_unlink_exists_other.
  - injection Hdel as <- <-. apply chain_unlink_None in Hu. rewrite Hu.
    exists false. eexists _, _. split; [done|]. split; [done|].
    split; [done|]. split; [|done].
    by rewrite (exists_bucket self t i chain Hh Hc), Hu.
Qed.

Lemma table_ok_exists self t : table_ok self -> is_Some (exists_ self t).
Proof. intros [Hwf _]. by apply exists_Some. Qed.

Lemma update_spec self o n :
  table_ok self ->
  exists bo bn self' success msg,
    exists_ self o = Some bo /\ exists_ self n = Some bn /\
    update self o n = Some (self', (success, msg)) /\
    table_ok self' /\
    success = bo && (str_eqb o n || negb bn) /\
    (success = false -> self' = self) /\
    (success = true ->
       exists_ self' n = Some true /\
       exists_ self' o = Some (str_eqb o n) /\
       (forall x, x <> o -> x <> n -> exists_ self' x = exists_ self x) /\
       get_size self' = get_size self).
Proof.
  intros Hok. unfold update.
  destruct (table_ok_exists self o Hok) as [bo Hbo].
  destruct (table_ok_exists self n Hok) as [bn Hbn].
  exists bo, bn. rewrite Hbo, Hbn. simpl.
  destruct bo; simpl; [|by eexists _, _, _].
  destruct (str_eqb o n) eqn:E; simpl.
  - apply str_eqb_eq in E as <-.
    destruct (delete_spec self o Hok)
      as (b1 & self1 & m1 & Hb1 & -> & Hok1 & Hgone & Hoth1 & Hsz1 & _).
    rewrite Hbo in Hb1. injection Hb1 as <-. simpl.
    destruct (put_spec self1 o Hok1)
      as (b2 & self2 & m2 & Hb2 & -> & Hok2 & Hin & Hoth2 & Hsz2 & _).
    rewrite Hgone in Hb2. injection Hb2 as <-. simpl.
    eexists _, true, _. do 3 (split; [done|]).
    split; [done|]. split; [done|]. split; [done|]. intros _.
    split; [done|]. split; [done|]. split.
    + intros x Hx _. by rewrite Hoth2, Hoth1.
    + unfold get_size in *. lia.
  - apply str_eqb_neq in E.
    destruct bn; simpl; [by eexists _, _, _|].
    destruct (delete_spec self o Hok)
      as (b1 & self1 & m1 & Hb1 & -> & Hok1 & Hgone & Hoth1 & Hsz1 & _).
    rewrite Hbo in Hb1. injection Hb1 as <-. simpl.
    destruct (put_spec self1 n Hok1)
      as (b2 & self2 & m2 & Hb2 & -> & Hok2 & Hin & Hoth2 & Hsz2 & _).
    rewrite Hoth1, Hbn in Hb2 by congruence. injection Hb2 as <-. simpl.
    eexists _, true, _. do 3 (split; [done|]).
    split; [done|]. split; [done|]. split; [done|]. intros _.
    split; [done|]. split; [|split].
    + by rewrite Hoth2.
    + intros x Hxo Hxn. by rewrite Hoth2, Hoth1.
    + unfold get_size in *. lia.
Qed.

Lemma init_ok n : 0 < n -> table_ok (init n).
Proof.
  intros Hn. split; [by apply table_init_wf|]. split.
  - unfold collect_patterns. simpl.
    induction (Z.to_nat n) as [|k IH]; [done|]. simpl. done.
  - intros i chain e [-> _]%lookup_replicate. by intros ?%elem_of_nil.
Qed.

Lemma table_run_ok ops self :
  table_ok self -> exists self', table_run ops self = Some self' /\ table_ok self'.
Proof.
  revert self. induction ops as [|o ops IH]; intros self Hok; simpl; [eauto|].
  assert (exists self1, table_step self o = Some self1 /\ table_ok self1)
    as (self1 & -> & Hok1).
  { destruct o as [t|t|t t']; simpl.
    - destruct (put_spec self t Hok) as (? & ? & ? & _ & -> & ? & _). eauto.
    - destruct (delete_spec self t Hok) as (? & ? & ? & _ & -> & ? & _). eauto.
    - destruct (update_spec self t t' Hok)
        as (? & ? & ? & ? & ? & _ & _ & -> & ? & _). eauto. }
  simpl. by apply IH.
Qed.

Lemma reachable_ok self : reachable self -> table_ok self.
Proof.
  intros (n & ops & Hn & Hrun).
  destruct (table_run_ok ops (init n) (init_ok n Hn)) as (self' & Hrun' & Hok).
  rewrite Hrun in Hrun'. by injection Hrun' as <-.
Qed.

(** X10: on a reachable table [put(t)] returns [True] exactly when
    [exists(t)] was [False]; afterwards [exists(t)] is [True], [exists]
    answers as before for every other template (also one in the same
    bucket), the count went up by one exactly when the flag is [True],
    and a call that returns [False] leaves the table as it was. *)
Theorem put_effect self t :
  reachable self ->
  exists b self' msg,
    exists_ self t = Some b /\
    put self t = Some (self', (negb b, msg)) /\
    exists_ self' t = Some true /\
    (forall x, x <> t -> exists_ self' x = exists_ self x) /\
    get_size self' = (if b then get_size self else get_size self + 1) /\
    (b = true -> self' = self).
Proof.
  intros Hok%reachable_ok.
  destruct (put_spec self t Hok) as (b & self' & msg & ? & ? & _ & ?).
  by exists b, self', msg.
Qed.

Lemma put_effect_witness :
  exists b self' msg,
    exists_ (with_bucket default 10
               [{| template := pattern_faa3il; hash_value := 10 |}] 1)
      (lit "1a2a3") = Some b /\
    put (with_bucket default 10
           [{| template := pattern_faa3il; hash_value := 10 |}] 1)
      (lit "1a2a3") = Some (self', (negb b, msg)) /\
    exists_ self' (lit "1a2a3") = Some true /\
    (forall x, x <> lit "1a2a3" ->
       exists_ self' x =
       exists_ (with_bucket default 10
                  [{| template := pattern_faa3il; hash_value := 10 |}] 1) x) /\
    get_size self' =
      (if b
       then get_size (with_bucket default 10
                        [{| template := pattern_faa3il; hash_value := 10 |}] 1)
       else get_size (with_bucket default 10
                        [{| template := pattern_faa3il; hash_value := 10 |}] 1)
            + 1) /\
    (b = true ->
     self' = with_bucket default 10
               [{| template := pattern_faa3il; hash_value := 10 |}] 1).
Proof.
  apply (put_effect _ (lit "1a2a3")).
  exists 101, [Put pattern_faa3il]. split; [lia|reflexivity].
Defined.

(** X11: on a reachable table [delete(t)] returns [True] exactly when
    [exists(t)] was [True]; afterwards [exists(t)] is [False], [exists]
    answers as before for every other template, the count went down by
    one exactly when the flag is [True], and a call that returns [False]
    leaves the table as it was. *)
Theorem table_delete_effect self t :
  reachable self ->
  exists b self' msg,
    exists_ self t = Some b /\
    delete self t = Some (self', (b, msg)) /\
    exists_ self' t = Some false /\
    (forall x, x <> t -> exists_ self' x = exists_ self x) /\
    get_size self' = (if b then get_size self - 1 else get_size self) /\
    (b = false -> self' = self).
Proof.
  intros Hok%reachable_ok.
  destruct (delete_spec self t Hok) as (b & self' & msg & ? & ? & _ & ?).
  by exists b, self', msg.
Qed.

Lemma table_delete_effect_witness :
  exists b self' msg,
    exists_ (with_bucket default 10
               [{| template := pattern_faa3il; hash_value := 10 |}] 1)
      pattern_faa3il = Some b /\
    delete (with_bucket default 10
              [{| template := pattern_faa3il; hash_value := 10 |}] 1)
      pattern_faa3il = Some (self', (b, msg)) /\
    exists_ self' pattern_faa3il = Some false /\
    (forall x, x <> pattern_faa3il ->
       exists_ self' x =
       exists_ (with_bucket default 10
                  [{| template := pattern_faa3il; hash_value := 10 |}] 1) x) /\
    get_size self' =
      (if b
       then get_size (with_bucket default 10
                        [{| template := pattern_faa3il; hash_value := 10 |}] 1)
            - 1
       else get_size (with_bucket default 10
                        [{| template := pattern_faa3il; hash_value := 10 |}] 1))
    /\
    (b = false ->
     self' = with_bucket default 10
               [{| template := pattern_faa3il; hash_value := 10 |}] 1).
Proof.
  apply (table_delete_effect _ pattern_faa3il).
  exists 101, [Put pattern_faa3il]. split; [lia|reflexivity].
Defined.

(** X12: on a reachable table [update(old, new)] returns [True] exactly
    when [old] is stored and [new] is [old] or is not stored.  A call
    that returns [False] leaves the table as it was.  After one that
    returns [True], [new] is stored, [old] is stored only if it is
    [new], [exists] answers as before for every other template, and the
    count is what it was. *)
Theorem table_update_effect self old new :
  reachable self ->
  exists bo bn self' success msg,
    exists_ self old = Some bo /\ exists_ self new = Some bn /\
    update self old new = Some (self', (success, msg)) /\
    success = bo && (str_eqb old new || negb bn) /\
    (success = false -> self' = self) /\
    (success = true ->
       exists_ self' new = Some true /\
       exists_ self' old = Some (str_eqb old new) /\
       (forall x, x <> old -> x <> new -> exists_ self' x = exists_ self x) /\
       get_size self' = get_size self).
Proof.
  intros Hok%reachable_ok.
  destruct (update_spec self old new Hok)
    as (bo & bn & self' & success & msg & ? & ? & ? & _ & ?).
  by exists bo, bn, self', success, msg.
Qed.

Lemma table_update_effect_witness :
  exists bo bn self' success msg,
    exists_ (with_bucket default 10
               [{| template := pattern_faa3il; hash_value := 10 |}] 1)
      pattern_faa3il = Some bo /\
    exists_ (with_bucket default 10
               [{| template := pattern_faa3il; hash_value := 10 |}] 1)
      (lit "1a2a3") = Some bn /\
    update (with_bucket default 10
              [{| template := pattern_faa3il; hash_value := 10 |}] 1)
      pattern_faa3il (lit "1a2a3") = Some (self', (success, msg)) /\
    success = bo && (str_eqb pattern_faa3il (lit "1a2a3") || negb bn) /\
    (success = false ->
     self' = with_bucket default 10
               [{| template := pattern_faa3il; hash_value := 10 |}] 1) /\
    (success = true ->
       exists_ self' (lit "1a2a3") = Some true /\
       exists_ self' pattern_faa3il
         = Some (str_eqb pattern_faa3il (lit "1a2a3")) /\
       (forall x, x <> pattern_faa3il -> x <> lit "1a2a3" ->
          exists_ self' x =
          exists_ (with_bucket default 10
                     [{| template := pattern_faa3il; hash_value := 10 |}] 1)
            x) /\
       get_size self' =
         get_size (with_bucket default 10
                     [{| template := pattern_faa3il; hash_value := 10 |}] 1)).
Proof.
  apply (table_update_effect _ pattern_faa3il (lit "1a2a3")).
  exists 101, [Put pattern_faa3il]. split; [lia|reflexivity].
Defined.

(** *** What [get_all_patterns] returns *)

Lemma StronglySorted_str_le_lt (l : list pystr) :
  NoDup l -> StronglySorted str_le l -> StronglySorted str_lt l.
Proof.
  induction l as [|a l IH]; [constructor|].
  intros [Ha Hnd]%NoDup_cons [Hall Hs]%StronglySorted_cons.
  apply StronglySorted_cons. split; [|by apply IH].
  apply Forall_forall. intros b Hb.
  eapply Forall_forall in Hall; [|done]. unfold str_le, str_lt in *.
  destruct (str_ltb a b) eqn:E; [done|].
  pose proof (str_ltb_connex _ _ E Hall) as ->. done.
Qed.

(** X13: on a reachable table [get_all_patterns] returns the stored
    templates, each once, in strictly increasing order: a template is
    in the list exactly when [exists] answers [True] for it, and the
    length of the list is [get_size]. *)
Theorem get_all_patterns_sorted_exact self :
  reachable self ->
  StronglySorted str_lt (get_all_patterns self) /\
  (forall t, t ∈ get_all_patterns self <-> exists_ self t = Some true) /\
  get_size self = Z.of_nat (length (get_all_patterns self)).
Proof.
  intros (Hwf & Hcount & _)%reachable_ok. unfold get_all_patterns.
  split; [|split].
  - apply StronglySorted_str_le_lt.
    + rewrite merge_sort_Permutation. by apply table_wf_NoDup.
    + apply StronglySorted_merge_sort; apply _.
  - intros t. rewrite merge_sort_Permutation. symmetry.
    by apply exists_elem_of.
  - unfold get_size. rewrite Hcount. f_equal.
    apply Permutation_length. by rewrite merge_sort_Permutation.
Qed.

Lemma get_all_patterns_sorted_exact_witness :
  StronglySorted str_lt
    (get_all_patterns
       (with_bucket default 10
          [{| template := pattern_faa3il; hash_value := 10 |}] 1)) /\
  (forall t,
     t ∈ get_all_patterns
           (with_bucket default 10
              [{| template := pattern_faa3il; hash_value := 10 |}] 1) <->
     exists_ (with_bucket default 10
                [{| template := pattern_faa3il; hash_value := 10 |}] 1) t
       = Some true) /\
  get_size (with_bucket default 10
              [{| template := pattern_faa3il; hash_value := 10 |}] 1) =
  Z.of_nat (length (get_all_patterns
                      (with_bucket default 10
                         [{| template := pattern_faa3il; hash_value := 10 |}]
                         1))).
Proof.
  apply (get_all_patterns_sorted_exact
           (with_bucket default 10
              [{| template := pattern_faa3il; hash_value := 10 |}] 1)).
  exists 101, [Put pattern_faa3il]. split; [lia|reflexivity].
Defined.

(** X14: in a reachable table every entry sits in the bucket whose
    index is the [_polynomial_hash] of its template, that index is
    below the table size, and the [hash_value] the entry carries is
    that same index. *)
Theorem entries_in_their_bucket self (i : nat) chain e :
  reachable self ->
  self.(table) !! i = Some chain ->
  e ∈ chain ->
  _polynomial_hash self e.(template) = Some (Z.of_nat i) /\
  e.(hash_value) = Z.of_nat i /\
  0 <= Z.of_nat i < self.(size).
Proof.
  intros (Hwf & _ & Hhv)%reachable_ok Hc He.
  pose proof Hwf as (Hsize & _ & Hlen & Hplace & _).
  split; [|split].
  - eapply Hplace; [done|]. apply list_elem_of_fmap. by exists e.
  - by eapply Hhv.
  - apply lookup_lt_Some in Hc. lia.
Qed.

Lemma entries_in_their_bucket_witness :
  _polynomial_hash
    (with_bucket default 10
       [{| template := pattern_faa3il; hash_value := 10 |}] 1)
    {| template := pattern_faa3il; hash_value := 10 |}.(template)
    = Some (Z.of_nat 10) /\
  {| template := pattern_faa3il; hash_value := 10 |}.(hash_value)
    = Z.of_nat 10 /\
  0 <= Z.of_nat 10 <
    (with_bucket default 10
       [{| template := pattern_faa3il; hash_value := 10 |}] 1).(size).
Proof.
  apply (entries_in_their_bucket
           (with_bucket default 10
              [{| template := pattern_faa3il; hash_value := 10 |}] 1)
           10 [{| template := pattern_faa3il; hash_value := 10 |}]).
  - exists 101, [Put pattern_faa3il]. split; [lia|reflexivity].
  - reflexivity.
  - left.
Defined.

(** X15: [put(t)] of a template that is not stored followed by
    [delete(t)] gives back the table itself: the new entry is linked at
    the head of its chain and is the first one unlinked. *)
Theorem put_then_delete_restores self t :
  reachable self ->
  exists_ self t = Some false ->
  exists self1 msg1 msg2,
    put self t = Some (self1, (true, msg1)) /\
    delete self1 t = Some (self, (true, msg2)).
Proof.
  intros (Hwf & _)%reachable_ok Hex.
  destruct (_polynomial_hash_bucket self t Hwf) as (i & chain & Hh & Hc & Hi).
  rewrite (exists_bucket self t i chain Hh Hc) in Hex. injection Hex as Hex.
  rewrite (put_bucket self t i chain Hh Hc), Hex.
  eexists _, _, _. split; [done|].
  rewrite (delete_bucket _ t i
             ({| template := t; hash_value := Z.of_nat i |} :: chain)).
  2:{ by rewrite with_bucket_hash. }
  2:{ simpl. by apply list_lookup_insert_eq. }
  rewrite (chain_unlink_head {| template := t; hash_value := Z.of_nat i |}).
  do 2 f_equal. unfold with_bucket. simpl.
  rewrite list_insert_insert_eq, list_insert_id by done.
  destruct self. simpl. f_equal. lia.
Qed.

Lemma put_then_delete_restores_witness :
  exists self1 msg1 msg2,
    put (with_bucket default 10
           [{| template := pattern_faa3il; hash_value := 10 |}] 1)
      (lit "1a2a3") = Some (self1, (true, msg1)) /\
    delete self1 (lit "1a2a3") =
      Some (with_bucket default 10
              [{| template := pattern_faa3il; hash_value := 10 |}] 1,
            (true, msg2)).
Proof.
  apply (put_then_delete_restores _ (lit "1a2a3")).
  - exists 101, [Put pattern_faa3il]. split; [lia|reflexivity].
  - reflexivity.
Defined.

Lemma structure_loop_cons c (tbl : list (list HashEntry)) idx bs ne col :
  structure_loop (c :: tbl) idx bs ne col =
  structure_loop tbl (idx + 1)
    (bs ++ [{| index := idx; bucket_count := Z.of_nat (length c);
               chain := c |}])
    (ne + Z.of_nat (length (filter (fun c0 => c0 <> []) [c])))
    (col + Z.of_nat (length c)
     - Z.of_nat (length (filter (fun c0 => c0 <> []) [c]))).
Proof.
  destruct c as [|e c].
  - rewrite filter_cons_False by tauto. simpl. f_equal; lia.
  - rewrite filter_cons_True by done. cbn [structure_loop].
    destruct (Z.gtb_spec (Z.of_nat (length (e :: c))) 1) as [Hgt|Hle];
      simpl in *; f_equal; lia.
Qed.

Lemma structure_loop_spec (tbl : list (list HashEntry)) idx bs ne col :
  exists bs' ne' col',
    structure_loop tbl idx bs ne col = (bs', ne', col') /\
    ne' = ne + Z.of_nat (length (filter (fun c => c <> []) tbl)) /\
    ne' + col' = ne + col
      + Z.of_nat (length (flat_map (fun bucket => map template bucket) tbl)) /\
    length bs' = (length bs + length tbl)%nat /\
    (forall k : nat, (k < length bs)%nat -> bs' !! k = bs !! k) /\
    (forall (k : nat) c,
       tbl !! k = Some c ->
       bs' !! (length bs + k)%nat =
       Some {| index := idx + Z.of_nat k;
               bucket_count := Z.of_nat (length c); chain := c |}).
Proof.
  revert idx bs ne col. induction tbl as [|c tbl IH]; intros idx bs ne col.
  - simpl. eexists _, _, _. split; [done|]. repeat split; try lia; done.
  - rewrite structure_loop_cons.
    destruct (IH (idx + 1)
                (bs ++ [{| index := idx; bucket_count := Z.of_nat (length c);
                           chain := c |}])
                (ne + Z.of_nat (length (filter (fun c0 => c0 <> []) [c])))
                (col + Z.of_nat (length c)
                 - Z.of_nat (length (filter (fun c0 => c0 <> []) [c]))))
      as (bs' & ne' & col' & -> & Hne & Hsum & Hlen & Hold & Hnew).
    exists bs', ne', col'. split; [done|].
    rewrite length_app in *. simpl in *.
    split.
    { rewrite (filter_cons _ c tbl).
      rewrite filter_cons, filter_nil in Hne.
      destruct (decide (c <> [])); simpl in *; lia. }
    split; [rewrite length_app, length_map; lia|].
    split; [lia|]. split.
    + intros k Hk. rewrite Hold by lia. by rewrite lookup_app_l.
    + intros [|k] c' Hc'; simpl in Hc'.
      * injection Hc' as <-. rewrite Nat.add_0_r, Hold by lia.
        rewrite lookup_app_r, Nat.sub_diag by lia. simpl.
        by rewrite Z.add_0_r.
      * replace (length bs + S k)%nat with (length bs + 1 + k)%nat by lia.
        rewrite (Hnew k c' Hc'). do 2 f_equal. lia.
Qed.

(** X16: for a reachable table the dictionary of [get_table_structure]
    lists one element per bucket, in order, with the bucket's index, its
    chain and the length of that chain as [count]; [non_empty_buckets]
    is the number of buckets whose chain is not empty; and [collisions]
    is the table's count less [non_empty_buckets]. *)
Theorem get_table_structure_counts self :
  reachable self ->
  Z.of_nat (length (get_table_structure self).(buckets)) = self.(size) /\
  (forall (i : nat) c,
     self.(table) !! i = Some c ->
     (get_table_structure self).(buckets) !! i =
     Some {| index := Z.of_nat i; bucket_count := Z.of_nat (length c);
             chain := c |}) /\
  (get_table_structure self).(non_empty_buckets) =
    Z.of_nat (length (filter (fun c => c <> []) self.(table))) /\
  (get_table_structure self).(collisions) =
    (get_table_structure self).(structure_count)
    - (get_table_structure self).(non_empty_buckets).
Proof.
  intros ((Hsize & _ & Hlen & _) & Hcount & _)%reachable_ok.
  unfold get_table_structure.
  destruct (structure_loop_spec self.(table) 0 [] 0 0)
    as (bs & ne & col & -> & Hne & Hsum & Hlenb & _ & Hnew).
  simpl in *. split; [lia|]. split; [|split; [lia|]].
  - intros i c Hc. rewrite (Hnew i c Hc). do 2 f_equal.
  - unfold collect_patterns in Hcount. lia.
Qed.

Lemma get_table_structure_counts_witness :
  Z.of_nat (length (get_table_structure
                      (with_bucket default 10
                         [{| template := pattern_faa3il; hash_value := 10 |}]
                         1)).(buckets)) =
  (with_bucket default 10
     [{| template := pattern_faa3il; hash_value := 10 |}] 1).(size) /\
  (forall (i : nat) c,
     (with_bucket default 10
        [{| template := pattern_faa3il; hash_value := 10 |}] 1).(table) !! i
     = Some c ->
     (get_table_structure
        (with_bucket default 10
           [{| template := pattern_faa3il; hash_value := 10 |}] 1)).(buckets)
       !! i =
     Some {| index := Z.of_nat i; bucket_count := Z.of_nat (length c);
             chain := c |}) /\
  (get_table_structure
     (with_bucket default 10
        [{| template := pattern_faa3il; hash_value := 10 |}] 1)).(non_empty_buckets)
  = Z.of_nat (length (filter (fun c => c <> [])
       (with_bucket default 10
          [{| template := pattern_faa3il; hash_value := 10 |}] 1).(table))) /\
  (get_table_structure
     (with_bucket default 10
        [{| template := pattern_faa3il; hash_value := 10 |}] 1)).(collisions)
  = (get_table_structure
       (with_bucket default 10
          [{| template := pattern_faa3il; hash_value := 10 |}] 1)).(structure_count)
    - (get_table_structure
         (with_bucket default 10
            [{| template := pattern_faa3il; hash_value := 10 |}] 1)).(non_empty_buckets).
Proof.
  apply (get_table_structure_counts
           (with_bucket default 10
              [{| template := pattern_faa3il; hash_value := 10 |}] 1)).
  exists 101, [Put pattern_faa3il]. split; [lia|reflexivity].
Defined.

(** *** The hash as a polynomial *)

Lemma hash_loop_polynomial self (t : pystr) h :
  self.(mod_) <> 0 ->
  hash_loop self t (h mod self.(mod_)) =
  Some ((h * self.(prime) ^ Z.of_nat (length t) + polynomial self.(prime) t)
        mod self.(mod_)).
Proof.
  intros Hmod. revert h. induction t as [|c t IH]; intros h.
  - simpl. do 2 f_equal. lia.
  - cbn [hash_loop]. unfold pymod.
    destruct (Z.eqb_spec self.(mod_) 0); [done|].
    cbn [mbind option_bind]. rewrite IH. f_equal.
    cbn [polynomial length]. rewrite Nat2Z.inj_succ, Z.pow_succ_r by lia.
    set (p := self.(prime)). set (k := p ^ Z.of_nat (length t)).
    set (P := polynomial p t). set (M := self.(mod_)) in *.
    replace (((h mod M) * p + c) * k + P)
      with ((h * (p * k) + (c * k + P)) + (- (h / M) * p * k) * M)
      by (rewrite (Z.mod_eq h M) by done; ring).
    by rewrite Z.mod_add.
Qed.

(** X24: with a non-zero modulus, [_polynomial_hash] of a template is
    the sum [p1*prime^(k-1) + ... + pk] of its docstring, reduced
    modulo [mod] and then modulo the table size; for a table of size 0
    it raises. *)
Theorem _polynomial_hash_closed_form self (t : pystr) :
  self.(mod_) <> 0 ->
  _polynomial_hash self t =
  if self.(size) =? 0 then None
  else Some ((polynomial self.(prime) t mod self.(mod_)) mod self.(size)).
Proof.
  intros Hmod. unfold _polynomial_hash.
  pose proof (hash_loop_polynomial self t 0 Hmod) as Hloop.
  rewrite Z.mod_0_l in Hloop by done. rewrite Hloop. simpl.
  unfold pymod. by destruct (self.(size) =? 0).
Qed.

Lemma _polynomial_hash_closed_form_witness :
  _polynomial_hash default pattern_faa3il =
  if default.(size) =? 0 then None
  else Some ((polynomial default.(prime) pattern_faa3il mod default.(mod_))
             mod default.(size)).
Proof.
  apply (_polynomial_hash_closed_form default pattern_faa3il).
  discriminate.
Defined.

End hashtable_more_facts.


(** ** The morphological engine: validation, generation and the rules *)

Module morphology_more_facts.
Import MorphologicalEngine morphology_facts.

(** *** [validate_word]: the first template that generates the word *)

Lemma validate_loop_true word root (patterns : list pystr) t :
  validate_loop word root patterns = (true, Some t) <->
  exists i : nat,
    patterns !! i = Some t /\
    apply_root_to_pattern root t = word /\
    forall (j : nat) p,
      (j < i)%nat -> patterns !! j = Some p ->
      apply_root_to_pattern root p <> word.
Proof.
  induction patterns as [|p ps IH]; simpl.
  - split; [done|]. by intros (i & ? & _).
  - destruct (str_eqb (apply_root_to_pattern root p) word) eqn:E.
    + apply str_eqb_eq in E. split.
      * intros [= <-]. exists 0%nat. repeat split; [done|]. intros; lia.
      * intros ([|i] & Hi & Hw & Hfirst).
        -- by injection Hi as ->.
        -- by destruct (Hfirst 0%nat p ltac:(lia) eq_refl).
    + apply str_eqb_neq in E. rewrite IH. split.
      * intros (i & Hi & Hw & Hfirst). exists (S i). repeat split; [done..|].
        intros [|j] q Hj Hq; simpl in Hq; [by injection Hq as <-|].
        apply (Hfirst j); [lia|done].
      * intros ([|i] & Hi & Hw & Hfirst); simpl in Hi.
        -- injection Hi as ->. done.
        -- exists i. repeat split; [done..|].
           intros j q Hj Hq. apply (Hfirst (S j)); [lia|done].
Qed.

Lemma validate_loop_false word root (patterns : list pystr) :
  validate_loop word root patterns = (false, None) <->
  Forall (fun p => apply_root_to_pattern root p <> word) patterns.
Proof.
  induction patterns as [|p ps IH]; simpl.
  - split; [constructor|done].
  - rewrite Forall_cons.
    destruct (str_eqb (apply_root_to_pattern root p) word) eqn:E.
    + apply str_eqb_eq in E. split; [done|]. by intros [? _].
    + apply str_eqb_neq in E. rewrite IH. tauto.
Qed.

Lemma validate_loop_shape word root (patterns : list pystr) :
  validate_loop word root patterns = (false, None) \/
  exists t, validate_loop word root patterns = (true, Some t).
Proof.
  induction patterns as [|p ps IH]; simpl; [by left|].
  destruct (str_eqb (apply_root_to_pattern root p) word); [|done].
  right. by eexists.
Qed.

(** X17: [validate_word] returns [(True, t)] exactly when the root has
    three characters, [t] is in the list, [t] generates the word and no
    template before it in the list does. *)
Theorem validate_word_first_match word root (patterns : list pystr) t :
  validate_word word root patterns = (true, Some t) <->
  length root = 3%nat /\
  exists i : nat,
    patterns !! i = Some t /\
    apply_root_to_pattern root t = word /\
    forall (j : nat) p,
      (j < i)%nat -> patterns !! j = Some p ->
      apply_root_to_pattern root p <> word.
Proof.
  unfold validate_word. destruct (Nat.eqb_spec (length root) 3) as [Hl|Hl]; simpl.
  - rewrite validate_loop_true. tauto.
  - split; [done|]. by intros [? _].
Qed.

(** X18: [validate_word] returns either [(False, None)] or [(True, t)]
    for a template [t]; it returns [(False, None)] exactly when the root
    does not have three characters or no template of the list generates
    the word. *)
Theorem validate_word_no_match word root (patterns : list pystr) :
  (validate_word word root patterns = (false, None) \/
   exists t, validate_word word root patterns = (true, Some t)) /\
  (validate_word word root patterns = (false, None) <->
   length root <> 3%nat \/
   Forall (fun p => apply_root_to_pattern root p <> word) patterns).
Proof.
  unfold validate_word. destruct (Nat.eqb_spec (length root) 3) as [Hl|Hl]; simpl.
  - split; [apply validate_loop_shape|]. rewrite validate_loop_false. tauto.
  - split; [by left|]. tauto.
Qed.

(** *** [generate_derivatives]: one entry per productive template *)

Lemma generate_loop_filter root (patterns : list pystr) acc :
  generate_loop root patterns acc =
  acc ++ ((fun t => {| template := t;
                       generated_word := apply_root_to_pattern root t |})
            <$> filter (fun t => apply_root_to_pattern root t <> []) patterns).
Proof.
  revert acc. induction patterns as [|p ps IH]; intros acc; simpl.
  - by rewrite app_nil_r.
  - rewrite IH, filter_cons.
    destruct (apply_root_to_pattern root p) as [|c w] eqn:E.
    + by rewrite decide_False by tauto.
    + rewrite decide_True by done. simpl. rewrite E.
      by rewrite <- app_assoc.
Qed.

(** X19: [generate_derivatives] returns, in the order of the list and
    without removing repetitions, one [{template, generated_word}] for
    every template whose generated word is not empty, the word being
    the one [apply_root_to_pattern] returns; for a root that does not
    have three characters it returns the empty list. *)
Theorem generate_derivatives_filter root (patterns : list pystr) :
  generate_derivatives root patterns =
  if (length root =? 3)%nat then
    (fun t => {| template := t;
                 generated_word := apply_root_to_pattern root t |})
      <$> filter (fun t => apply_root_to_pattern root t <> []) patterns
  else [].
Proof.
  unfold generate_derivatives.
  destruct (length root =? 3)%nat; simpl; [|done].
  by rewrite generate_loop_filter.
Qed.

(** X20: the other direction of the round trip: a non-empty word that
    [validate_word] accepts with template [t] is in
    [generate_derivatives] of the same root and list, with that
    template. *)
Theorem validated_word_is_generated word root (patterns : list pystr) t :
  word <> [] ->
  validate_word word root patterns = (true, Some t) ->
  {| template := t; generated_word := word |}
    ∈ generate_derivatives root patterns.
Proof.
  intros Hne. unfold validate_word, generate_derivatives.
  destruct (length root =? 3)%nat; simpl; [|done].
  intros (i & Hi & Hw & _)%validate_loop_true.
  rewrite generate_loop_filter. simpl.
  apply list_elem_of_fmap. exists t. split; [by rewrite Hw|].
  apply list_elem_of_filter. split; [by rewrite Hw|].
  by eapply list_elem_of_lookup_2.
Qed.

Lemma validated_word_is_generated_witness :
  {| template := pattern_faa3il; generated_word := word_katib_vocalised |}
    ∈ generate_derivatives root_ktb [lit "xyz"; pattern_faa3il].
Proof.
  apply (validated_word_is_generated word_katib_vocalised root_ktb
           [lit "xyz"; pattern_faa3il] pattern_faa3il).
  - discriminate.
  - reflexivity.
Defined.

(** *** Lengths *)

Lemma starts_with_length (p s : pystr) :
  starts_with p s = true -> (length p <= length s)%nat.
Proof.
  revert s. induction p as [|x p IH]; intros [|y s]; simpl; try done; try lia.
  intros [_ H]%andb_true_iff. apply IH in H. lia.
Qed.

Lemma replace_scan_length (old new s : pystr) (skip : nat) :
  (length new <= length old)%nat ->
  (length (replace_scan old new s skip) + Nat.min skip (length s)
   <= length s)%nat.
Proof.
  intros Hlen. revert skip. induction s as [|c s IH]; intros skip; simpl.
  - lia.
  - destruct skip as [|k].
    + destruct (starts_with old (c :: s)) eqn:E.
      * apply starts_with_length in E. simpl in E.
        specialize (IH (length old - 1)%nat). rewrite length_app. lia.
      * specialize (IH 0%nat). simpl. lia.
    + specialize (IH k). lia.
Qed.

Lemma replace_length (s old new : pystr) :
  (length new <= length old)%nat ->
  (length (replace s old new) <= length s)%nat.
Proof.
  intros Hlen. unfold replace. destruct old as [|x old].
  - destruct new; [|simpl in Hlen; lia]. simpl.
    induction s as [|c s IH]; simpl; lia.
  - pose proof (replace_scan_length (x :: old) new s 0 Hlen). lia.
Qed.

Lemma replace_scan_nonempty (old new s : pystr) :
  new <> [] -> s <> [] -> replace_scan old new s 0 <> [].
Proof.
  intros Hnew Hs. destruct s as [|c s]; [done|]. simpl.
  destruct (starts_with old (c :: s)); [|done].
  destruct new; [done|]. done.
Qed.

Lemma replace_nonempty (s old new : pystr) :
  new <> [] -> s <> [] -> replace s old new <> [].
Proof.
  intros Hnew Hs. unfold replace. destruct old.
  - destruct new; done.
  - by apply replace_scan_nonempty.
Qed.

Lemma substitute_loop_map fa ayn lam (pattern result : pystr) :
  substitute_loop fa ayn lam pattern result =
  result ++ map (place fa ayn lam) pattern.
Proof.
  revert result. induction pattern as [|c p IH]; intros result; simpl.
  - by rewrite app_nil_r.
  - by rewrite IH, <- app_assoc.
Qed.

Lemma removelast_snoc_length (w : pystr) x :
  w <> [] -> length (removelast w ++ [x]) = length w.
Proof.
  intros Hw. rewrite length_app. simpl.
  destruct (exists_last Hw) as (w' & y & ->).
  rewrite removelast_last, length_app. simpl. lia.
Qed.

(** Every rule keeps the length of the word, and keeps a non-empty word
    non-empty. *)
Lemma apply_hollow_root_rules_length word root :
  (length (apply_hollow_root_rules word root) <= length word)%nat /\
  (word <> [] -> apply_hollow_root_rules word root <> []).
Proof.
  unfold apply_hollow_root_rules.
  destruct root as [|c1 [|c2 [|c3 [|c4 rest]]]]; try (split; [lia|done]).
  destruct (char_in c2 WEAK_LETTERS); [|split; [lia|done]].
  destruct (c2 =? WAW); [|destruct (c2 =? YA); [|split; [lia|done]]].
  all: split;
    [ etransitivity; [apply replace_length; simpl; lia|];
      etransitivity; [apply replace_length; simpl; lia|];
      apply replace_length; simpl; lia
    | intros Hw; do 3 (apply replace_nonempty; [done|]); done ].
Qed.

Lemma apply_defective_root_rules_length word root :
  (length (apply_defective_root_rules word root) <= length word)%nat /\
  (word <> [] -> apply_defective_root_rules word root <> []).
Proof.
  unfold apply_defective_root_rules.
  destruct root as [|c1 [|c2 [|c3 [|c4 rest]]]]; try (split; [lia|done]).
  destruct (char_in c3 WEAK_LETTERS); [|split; [lia|done]].
  destruct (ends_with_char word c3) eqn:E; [|split; [lia|done]].
  split.
  - rewrite removelast_snoc_length; [lia|]. by intros ->.
  - intros _. by destruct (removelast word).
Qed.

Lemma apply_form8_assimilation_length word root :
  (length (apply_form8_assimilation word root) <= length word)%nat /\
  (word <> [] -> apply_form8_assimilation word root <> []).
Proof.
  unfold apply_form8_assimilation.
  destruct root as [|c1 [|c2 [|c3 [|c4 rest]]]]; try (split; [lia|done]).
  destruct (char_in c1 EMPHATIC);
    [|destruct (char_in c1 DENTAL); [|destruct (c1 =? THA)]];
    try (split; [lia|done]).
  all: split; [apply replace_length; simpl; lia
              | intros Hw; by apply replace_nonempty].
Qed.

Lemma apply_form7_assimilation_length word root :
  (length (apply_form7_assimilation word root) <= length word)%nat /\
  (word <> [] -> apply_form7_assimilation word root <> []).
Proof.
  unfold apply_form7_assimilation.
  destruct root as [|c1 [|c2 [|c3 [|c4 rest]]]]; try (split; [lia|done]).
  destruct (char_in c1 LABIAL); [|split; [lia|done]].
  split; [apply replace_length; simpl; lia
         | intros Hw; by apply replace_nonempty].
Qed.

Lemma apply_phonological_rules_length word root pattern :
  (length (apply_phonological_rules word root pattern) <= length word)%nat /\
  (word <> [] -> apply_phonological_rules word root pattern <> []).
Proof.
  unfold apply_phonological_rules.
  destruct (negb (length root =? 3)%nat); [split; [lia|done]|].
  destruct (is_weak_root root) as [w pos].
  set (w1 := if bool_decide (w = hollow) then _ else _).
  assert ((length w1 <= length word)%nat /\ (word <> [] -> w1 <> []))
    as [Hl1 Hn1].
  { subst w1. destruct (bool_decide (w = hollow));
      [apply apply_hollow_root_rules_length|].
    destruct (bool_decide (w = defective));
      [apply apply_defective_root_rules_length|]. split; [lia|done]. }
  destruct (apply_form8_assimilation_length w1 root) as [Hl2 Hn2].
  destruct (apply_form7_assimilation_length
              (apply_form8_assimilation w1 root) root) as [Hl3 Hn3].
  split.
  - etransitivity; [apply replace_length; simpl; lia|]. lia.
  - intros Hw. apply replace_nonempty; [done|]. auto.
Qed.

(** X21: the word [apply_root_to_pattern] returns is never longer than
    the pattern, and it is empty exactly when the root does not have
    three characters or the pattern is empty. *)
Theorem apply_root_to_pattern_length root pattern :
  (length (apply_root_to_pattern root pattern) <= length pattern)%nat /\
  (apply_root_to_pattern root pattern = [] <->
   length root <> 3%nat \/ pattern = []).
Proof.
  unfold apply_root_to_pattern.
  destruct root as [|fa [|ayn [|lam [|c4 rest]]]]; simpl;
    try (split; [lia|split; [by left|done]]).
  rewrite substitute_loop_map. simpl.
  destruct (apply_phonological_rules_length
              (map (place fa ayn lam) pattern) [fa; ayn; lam] pattern)
    as [Hl Hn].
  split; [by rewrite length_map in Hl|]. split.
  - intros Hempty. right. destruct pattern as [|c p]; [done|].
    exfalso. by apply Hn.
  - intros [?| ->]; [done|].
    change (map (place fa ayn lam) []) with (@nil Z) in *.
    destruct (apply_phonological_rules [] [fa; ayn; lam] []); [done|].
    simpl length in Hl. lia.
Qed.

(** *** Roots no rule applies to *)



(** *** The last character *)

Lemma last_app_nonempty (l1 l2 : pystr) :
  l2 <> [] -> last (l1 ++ l2) = last l2.
Proof.
  intros Hl2. destruct (exists_last Hl2) as (l & x & ->).
  by rewrite app_assoc, !last_snoc.
Qed.

Lemma starts_with_nil_r (p : pystr) : starts_with p [] = true -> p = [].
Proof. by destruct p. Qed.

Lemma last_drop_singleton (old : pystr) (n : nat) x :
  drop n old = [x] -> last old = Some x.
Proof.
  intros Hd. rewrite <- (take_drop n old), Hd. apply last_snoc.
Qed.

Lemma drop_pred_cons (old : pystr) (k : nat) :
  (S k <= length old)%nat ->
  exists x, drop (length old - S k) old = x :: drop (length old - k) old.
Proof.
  intros Hk.
  destruct (drop (length old - S k) old) as [|x rest] eqn:E.
  - apply (f_equal length) in E. rewrite length_drop in E. simpl in E. lia.
  - exists x. f_equal.
    replace (length old - k)%nat with (length old - S k + 1)%nat by lia.
    by rewrite <- drop_drop, E.
Qed.

Lemma replace_scan_last (old new : pystr) c :
  old <> [] ->
  last old <> Some c ->
  forall (s : pystr) (skip : nat),
    last s = Some c ->
    (skip <= length old)%nat ->
    starts_with (drop (length old - skip) old) s = true ->
    last (replace_scan old new s skip) = Some c.
Proof.
  intros Hold Hlast. induction s as [|c0 s IH]; intros skip Hs Hskip Hinv.
  - done.
  - simpl. destruct skip as [|k].
    + destruct (starts_with old (c0 :: s)) eqn:E.
      * assert (s <> []) as Hne.
        { intros ->. destruct old as [|x [|y old]]; [done| |].
          - simpl in E. rewrite andb_true_r in E. apply Z.eqb_eq in E as ->.
            simpl in Hs, Hlast. congruence.
          - simpl in E. by rewrite andb_false_r in E. }
        assert (last s = Some c) as Hs'.
        { destruct s; [done|]. done. }
        assert (last (replace_scan old new s (length old - 1)) = Some c) as Hr.
        { apply IH; [done|lia|].
          destruct old as [|x old]; [done|]. simpl length.
          replace (S (length old) - (S (length old) - 1))%nat with 1%nat by lia.
          simpl in E. apply andb_true_iff in E as [_ E]. done. }
        rewrite last_app_nonempty; [done|]. intros Hnil.
        by rewrite Hnil in Hr.
      * destruct s as [|c1 s]; [done|].
        change (last (c0 :: replace_scan old new (c1 :: s) 0))
          with (last (c0 :: replace_scan old new (c1 :: s) 0)).
        assert (last (replace_scan old new (c1 :: s) 0) = Some c) as Hr.
        { apply IH; [done|lia|]. by rewrite Nat.sub_0_r, drop_all. }
        destruct (replace_scan old new (c1 :: s) 0); [done|]. done.
    + destruct (drop_pred_cons old k Hskip) as [x Hx].
      rewrite Hx in Hinv. simpl in Hinv.
      apply andb_true_iff in Hinv as [Hx0 Hinv].
      assert (s <> []) as Hne.
      { intros ->. apply starts_with_nil_r in Hinv. rewrite Hinv in Hx.
        apply last_drop_singleton in Hx. apply Z.eqb_eq in Hx0 as ->.
        simpl in Hs. congruence. }
      apply IH; [by destruct s|lia|done].
Qed.

Lemma replace_last (s old new : pystr) c :
  old <> [] -> last old <> Some c -> last s = Some c ->
  last (replace s old new) = Some c.
Proof.
  intros Hold Hlast Hs. unfold replace. destruct old as [|x old]; [done|].
  apply replace_scan_last; [done..|lia|].
  by rewrite Nat.sub_0_r, drop_all.
Qed.

(** X23: for a defective root (third letter weak, first and second
    not) and a pattern whose last character is a marker of the third
    position, the generated word ends in alif maqsura: the final weak
    letter is replaced and no later rule touches the last character. *)
Theorem defective_root_final_letter c1 c2 c3 pattern m :
  (is_weak_root [c1; c2; c3]).1 = defective ->
  last pattern = Some m ->
  place c1 c2 c3 m = c3 ->
  last (apply_root_to_pattern [c1; c2; c3] pattern) = Some ALIF_MAQSURA.
Proof.
  intros Hdef Hm Hplace. unfold apply_root_to_pattern.
  rewrite substitute_loop_map. simpl app.
  set (w := map (place c1 c2 c3) pattern).
  assert (last w = Some c3) as Hw.
  { subst w. destruct (exists_last (l := pattern)) as (p & y & ->);
      [by intros ->|].
    rewrite last_snoc in Hm. injection Hm as ->.
    rewrite map_app. simpl. by rewrite last_snoc, Hplace. }
  unfold apply_phonological_rules. simpl negb. cbv iota.
  destruct (is_weak_root [c1; c2; c3]) as [wk pos] eqn:Ewk.
  simpl in Hdef. subst wk.
  rewrite bool_decide_eq_false_2 by done.
  rewrite bool_decide_eq_true_2 by done.
  assert (char_in c3 WEAK_LETTERS = true) as Hc3.
  { unfold is_weak_root in Ewk.
    destruct (char_in c1 WEAK_LETTERS); [done|].
    destruct (char_in c2 WEAK_LETTERS); [done|].
    destruct (char_in c3 WEAK_LETTERS); [done|].
    by destruct (c2 =? c3). }
  assert (last (apply_defective_root_rules w [c1; c2; c3])
          = Some ALIF_MAQSURA) as H1.
  { unfold apply_defective_root_rules. rewrite Hc3.
    unfold ends_with_char. rewrite Hw, Z.eqb_refl. apply last_snoc. }
  assert (last (apply_form8_assimilation
                  (apply_defective_root_rules w [c1; c2; c3]) [c1; c2; c3])
          = Some ALIF_MAQSURA) as H2.
  { unfold apply_form8_assimilation.
    destruct (char_in c1 EMPHATIC);
      [|destruct (char_in c1 DENTAL); [|destruct (c1 =? THA)]];
      try done; by apply replace_last. }
  assert (last (apply_form7_assimilation
                  (apply_form8_assimilation
                     (apply_defective_root_rules w [c1; c2; c3])
                     [c1; c2; c3]) [c1; c2; c3])
          = Some ALIF_MAQSURA) as H3.
  { unfold apply_form7_assimilation.
    destruct (char_in c1 LABIAL) eqn:El; [|done].
    apply replace_last; [done| |done]. simpl. intros [= ->].
    by vm_compute in El. }
  by apply replace_last.
Qed.

Lemma defective_root_final_letter_witness :
  last (apply_root_to_pattern [0x631; 0x645; YA] [FA; FATHA; AYN; FATHA; LAM])
  = Some ALIF_MAQSURA.
Proof.
  apply (defective_root_final_letter 0x631 0x645 YA
           [FA; FATHA; AYN; FATHA; LAM] LAM).
  - reflexivity.
  - reflexivity.
  - reflexivity.
Defined.

End morphology_more_facts.
